(** * EventPool: a publish/subscribe registry holding handlers through WeakRef

    Shallow embedding of [src/EventPool.ts] (the static class [EventPool])
    and the properties of its specification.

    - A JavaScript [Map] is an association list in insertion order: the order
      is observable ([emit] calls the handlers in that order, [offById] scans
      the events in that order).  Keys are unique in a [Map]; here this is
      part of [well_formed], which every operation keeps.
    - A [symbol] is the rank of its creation: [Symbol(event)] never returns
      the same symbol twice.
    - A handler is a function object compared by identity.  The closure
      [onceHandler] built by [once] is the one handler whose body is code of
      the class; it is modelled with its body, which calls [off].  A function
      of the caller is given by what it does when called.  [invoke],
      [emit_loop] and [emit] are the emission when these functions are plain:
      they return normally and do not call the registry.  [invokeX], [loopX]
      and [emitX] further down are the emission for functions that throw or
      call the registry; [emitX_plain] shows that the two agree on plain
      functions.
    - [WeakRef.deref] depends on the garbage collector, which the class does
      not control: every operation that dereferences takes the set of
      handlers that still resolve as a parameter [live].  Within one
      operation this set does not change. *)

From Stdlib Require Import String List Arith Bool Lia.
Import ListNotations.
Local Open Scope string_scope.
Local Open Scope list_scope.

(** ** Keys compared by identity *)

Class EqDec (A : Type) := eq_dec : forall x y : A, {x = y} + {x <> y}.

#[export] Instance nat_EqDec : EqDec nat := Nat.eq_dec.
#[export] Instance string_EqDec : EqDec string := string_dec.

(** ** JavaScript [Map]: keyed entries in insertion order *)

Abbreviation JsMap K V := (list (K * V)%type) (only parsing).

Section JsMapOps.
Context {K V : Type} `{EqDec K}.

(** [m.get(k)] *)
Fixpoint map_get (k : K) (m : JsMap K V) : option V :=
  match m with
  | [] => None
  | (k', v) :: m' => if eq_dec k k' then Some v else map_get k m'
  end.

(** [m.has(k)] *)
Definition map_has (k : K) (m : JsMap K V) : bool :=
  match map_get k m with Some _ => true | None => false end.

(** [m.set(k, v)]: an existing key keeps its place, a new key goes last. *)
Fixpoint map_set (k : K) (v : V) (m : JsMap K V) : JsMap K V :=
  match m with
  | [] => [(k, v)]
  | (k', v') :: m' =>
      if eq_dec k k' then (k, v) :: m' else (k', v') :: map_set k v m'
  end.

(** [m.delete(k)] *)
Fixpoint map_delete (k : K) (m : JsMap K V) : JsMap K V :=
  match m with
  | [] => []
  | (k', v') :: m' =>
      if eq_dec k k' then map_delete k m' else (k', v') :: map_delete k m'
  end.

(** [m.keys()] *)
Definition map_keys (m : JsMap K V) : list K := map fst m.
End JsMapOps.

(** [outer.get(event)!]: the table of an event known to have one. *)
Definition table {V : Type} (event : string) (m : JsMap string (list V)) : list V :=
  match map_get event m with Some t => t | None => [] end.

(** ** Data model *)

Abbreviation symbol := nat (only parsing).

(** [type Handler<T = any> = (...args: T[]) => any] *)
Inductive Handler : Type :=
| Fn (f : nat)
    (* a function of the caller, [f] its identity *)
| OnceHandler (closure : nat) (event : string) (handler : Handler).
    (* the closure [onceHandler] of [once(event, handler)] *)

Definition Handler_eq_dec : forall x y : Handler, {x = y} + {x <> y}.
Proof. decide equality; [apply Nat.eq_dec | apply string_dec | apply Nat.eq_dec]. Defined.

#[export] Instance Handler_EqDec : EqDec Handler := Handler_eq_dec.

Record WeakRef : Type := mkWeakRef { target : Handler }.

Definition Args : Type := list nat.

(** What the garbage collector has not reclaimed. *)
Definition Heap : Type := Handler -> bool.

(** [weakRef.deref()] *)
Definition deref (live : Heap) (w : WeakRef) : option Handler :=
  if live (target w) then Some (target w) else None.

Abbreviation EventMap := (JsMap symbol WeakRef) (only parsing).
Abbreviation HandlerMap := (JsMap Handler symbol) (only parsing).

(** The two static fields, the two allocators of the runtime the class draws
    from ([Symbol(...)] and closure creation) and the trace of handler calls. *)
Record Pool : Type := mkPool {
  events : JsMap string EventMap;
  handlerMap : JsMap string HandlerMap;
  nextSymbol : nat;
  nextClosure : nat;
  calls : list (Handler * Args)
}.

Definition empty : Pool := mkPool [] [] 0 0 [].

Definition set_tables (evs : JsMap string EventMap) (hms : JsMap string HandlerMap)
    (s : Pool) : Pool :=
  mkPool evs hms (nextSymbol s) (nextClosure s) (calls s).

(** ** Operations *)

(** The first loop of [cleanDeadHandlers]: ids whose reference is dead. *)
Definition deadEventIds (live : Heap) (eventMap : EventMap) : list symbol :=
  map fst (filter (fun e => match deref live (snd e) with Some _ => false | None => true end)
             eventMap).

(** The inner loop of [cleanDeadHandlers]: the first reverse entry holding
    [eventId] is deleted. *)
Definition delete_reverse (eventId : symbol) (hm : HandlerMap) : HandlerMap :=
  match find (fun e => Nat.eqb (snd e) eventId) hm with
  | Some (handler, _) => map_delete handler hm
  | None => hm
  end.

Definition purge (t : EventMap * HandlerMap) (eventId : symbol) : EventMap * HandlerMap :=
  (map_delete eventId (fst t), delete_reverse eventId (snd t)).

Definition cleanDeadHandlers (live : Heap) (event : string) (s : Pool) : Pool :=
  if negb (map_has event (events s)) || negb (map_has event (handlerMap s)) then s
  else
    let eventMap := table event (events s) in
    let hm := table event (handlerMap s) in
    let t := fold_left purge (deadEventIds live eventMap) (eventMap, hm) in
    set_tables (map_set event (fst t) (events s))
               (map_set event (snd t) (handlerMap s)) s.

Definition on (event : string) (handler : Handler) (s : Pool) : symbol * Pool :=
  let evs := if map_has event (events s) then events s
             else map_set event [] (events s) in
  let hms := if map_has event (handlerMap s) then handlerMap s
             else map_set event [] (handlerMap s) in
  let eventId := nextSymbol s in
  let eventMap := map_set eventId (mkWeakRef handler) (table event evs) in
  let hm := map_set handler eventId (table event hms) in
  (eventId,
   mkPool (map_set event eventMap evs) (map_set event hm hms)
          (S (nextSymbol s)) (nextClosure s) (calls s)).

Definition off (event : string) (handler : Handler) (s : Pool) : Pool :=
  if negb (map_has event (events s)) || negb (map_has event (handlerMap s)) then s
  else
    let hm := table event (handlerMap s) in
    match map_get handler hm with
    | None => s
    | Some eventId =>
        let eventMap := table event (events s) in
        set_tables (map_set event (map_delete eventId eventMap) (events s))
                   (map_set event (map_delete handler hm) (handlerMap s)) s
    end.

Definition once (event : string) (handler : Handler) (s : Pool) : symbol * Pool :=
  let onceHandler := OnceHandler (nextClosure s) event handler in
  on event onceHandler
     (mkPool (events s) (handlerMap s) (nextSymbol s) (S (nextClosure s)) (calls s)).

(** The scan of [offById]: the first event whose table has [eventId]. *)
Fixpoint owner (eventId : symbol) (evs : JsMap string EventMap)
    : option (string * EventMap) :=
  match evs with
  | [] => None
  | (event, eventMap) :: rest =>
      if map_has eventId eventMap then Some (event, eventMap)
      else owner eventId rest
  end.

Definition offById (live : Heap) (eventId : symbol) (s : Pool) : Pool :=
  match owner eventId (events s) with
  | None => s
  | Some (event, eventMap) =>
      let handler :=
        match map_get eventId eventMap with
        | Some w => deref live w
        | None => None
        end in
      let hms :=
        match handler, map_get event (handlerMap s) with
        | Some h, Some hm => map_set event (map_delete h hm) (handlerMap s)
        | _, _ => handlerMap s
        end in
      set_tables (map_set event (map_delete eventId eventMap) (events s)) hms s
  end.

Definition removeAll (s : Pool) : Pool := set_tables [] [] s.

Definition removeAllListeners (event : string) (s : Pool) : Pool :=
  set_tables (map_delete event (events s)) (map_delete event (handlerMap s)) s.

Definition record_call (h : Handler) (args : Args) (s : Pool) : Pool :=
  mkPool (events s) (handlerMap s) (nextSymbol s) (nextClosure s)
         (calls s ++ [(h, args)]).

(** [handler(...args)] for plain functions of the caller.  The body of
    [onceHandler] is
    [handler && handler(...args); this.off(event, onceHandler)]. *)
Fixpoint invoke (h : Handler) (args : Args) (s : Pool) : Pool :=
  match h with
  | Fn _ => record_call h args s
  | OnceHandler _ event handler =>
      off event h (invoke handler args (record_call h args s))
  end.

(** The loop of [emit] over [eventMap.entries()], for plain functions of the
    caller.  A Map iterator is live: an entry deleted before the iterator
    reaches it is skipped.  The handlers called here only delete, so the
    entries met are those of the table at the start of the loop that are
    still present when their turn comes. *)
Fixpoint emit_loop (live : Heap) (event : string) (args : Args)
    (pending : list symbol) (s : Pool) : Pool :=
  match pending with
  | [] => s
  | eventId :: rest =>
      match map_get eventId (table event (events s)) with
      | Some weakRef =>
          match deref live weakRef with
          | Some handler => emit_loop live event args rest (invoke handler args s)
          | None => emit_loop live event args rest s
          end
      | None => emit_loop live event args rest s
      end
  end.

Definition emit (live : Heap) (event : string) (args : Args) (s : Pool) : Pool :=
  let s1 := cleanDeadHandlers live event s in
  if negb (map_has event (events s1)) then s1
  else emit_loop live event args (map_keys (table event (events s1))) s1.

Definition sweepDeadHandlers (live : Heap) (s : Pool) : Pool :=
  fold_left (fun acc event => cleanDeadHandlers live event acc)
            (map_keys (events s)) s.

(** ** Vocabulary of the properties *)

(** The handlers that run when [h] is called: [h] itself and, for a closure
    of [once], the handler it wraps. *)
Fixpoint invoked_by (h : Handler) : list Handler :=
  match h with
  | Fn _ => [h]
  | OnceHandler _ _ handler => h :: invoked_by handler
  end.

(** How many closures of [once] wrap the innermost function. *)
Fixpoint depth (h : Handler) : nat :=
  match h with
  | Fn _ => 0
  | OnceHandler _ _ handler => S (depth handler)
  end.

(** The argument lists [h] was called with, oldest first. *)
Definition invocations_of (h : Handler) (trace : list (Handler * Args)) : list Args :=
  map snd (filter (fun c => if eq_dec (fst c) h then true else false) trace).

(** Every closure of [once] inside [h] was created before the allocator
    reached [n]. *)
Fixpoint closures_below (n : nat) (h : Handler) : Prop :=
  match h with
  | Fn _ => True
  | OnceHandler c _ handler => c < n /\ closures_below n handler
  end.

(** Every closure of [once] inside [h] unsubscribes from [event]. *)
Fixpoint scoped_to (event : string) (h : Handler) : Prop :=
  match h with
  | Fn _ => True
  | OnceHandler _ e handler => e = event /\ scoped_to event handler
  end.

(** Successive emissions on one event, the collector running in between. *)
Fixpoint emits (event : string) (es : list (Heap * Args)) (s : Pool) : Pool :=
  match es with
  | [] => s
  | (live, args) :: rest => emits event rest (emit live event args s)
  end.

(** The handlers the class keeps alive: a [Map] holds its keys strongly, so
    these are the keys of the reverse tables; the target of a [WeakRef] is
    not held. *)
Definition strongly_held (s : Pool) : list Handler :=
  flat_map (fun row => map_keys (snd row)) (handlerMap s).

(** What holds of the two fields because they are [Map]s filled by this
    class: keys are unique, every symbol met was created earlier, and a
    symbol is recorded for one handler. *)
Record well_formed (s : Pool) : Prop := {
  wf_events_keys : NoDup (map_keys (events s));
  wf_handlerMap_keys : NoDup (map_keys (handlerMap s));
  wf_eventMap_keys :
    forall event em, In (event, em) (events s) -> NoDup (map_keys em);
  wf_reverse_keys :
    forall event hm, In (event, hm) (handlerMap s) -> NoDup (map_keys hm);
  wf_event_ids :
    forall event em id w,
      In (event, em) (events s) -> In (id, w) em -> id < nextSymbol s;
  wf_reverse_ids :
    forall event hm h id,
      In (event, hm) (handlerMap s) -> In (h, id) hm -> id < nextSymbol s;
  wf_reverse_inj :
    forall event hm h h' id,
      In (event, hm) (handlerMap s) -> In (h, id) hm -> In (h', id) hm -> h = h'
}.

(** Every closure of [once] the tables refer to was created earlier. *)
Record allocated (s : Pool) : Prop := {
  al_events :
    forall event em id w,
      In (event, em) (events s) -> In (id, w) em ->
      closures_below (nextClosure s) (target w);
  al_handlerMap :
    forall event hm h id,
      In (event, hm) (handlerMap s) -> In (h, id) hm ->
      closures_below (nextClosure s) h
}.

(** The half of invariant I1 the class maintains: the reverse entry of a live
    handler leads to a subscription entry referring to that handler. *)
Definition consistent (live : Heap) (s : Pool) : Prop :=
  forall event h id,
    map_get h (table event (handlerMap s)) = Some id ->
    live h = true ->
    map_get id (table event (events s)) = Some (mkWeakRef h).

(** Invariant I1 as the specification words it. *)
Definition I1 (live : Heap) (s : Pool) : Prop :=
  forall event id h,
    (map_get id (table event (events s)) = Some (mkWeakRef h) /\ live h = true)
    <-> map_get h (table event (handlerMap s)) = Some id.

(** The public operations. *)
Inductive Op : Type :=
| On (event : string) (handler : Handler)
| Once (event : string) (handler : Handler)
| Off (event : string) (handler : Handler)
| OffById (eventId : symbol)
| RemoveAllListeners (event : string)
| RemoveAll
| Emit (event : string) (args : Args)
| SweepDeadHandlers.

Definition run (live : Heap) (op : Op) (s : Pool) : Pool :=
  match op with
  | On event handler => snd (on event handler s)
  | Once event handler => snd (once event handler s)
  | Off event handler => off event handler s
  | OffById eventId => offById live eventId s
  | RemoveAllListeners event => removeAllListeners event s
  | RemoveAll => removeAll s
  | Emit event args => emit live event args s
  | SweepDeadHandlers => sweepDeadHandlers live s
  end.

(** A handler passed by the caller exists already: its closures, if any, were
    allocated before the call. *)
Definition admissible (s : Pool) (op : Op) : Prop :=
  match op with
  | On _ handler | Once _ handler => closures_below (nextClosure s) handler
  | _ => True
  end.

(** [sub_map m' m]: [m'] is [m] after some calls of [delete]. *)
Inductive sub_map {K V : Type} `{EqDec K} : JsMap K V -> JsMap K V -> Prop :=
| sub_map_refl m : sub_map m m
| sub_map_delete k m' m : sub_map m' m -> sub_map (map_delete k m') m.

(** [shrinks s s']: from [s] to [s'] no row was added or removed, every
    table only lost entries, and nothing was allocated. *)
Record shrinks (s s' : Pool) : Prop := {
  shrinks_events_keys : map_keys (events s') = map_keys (events s);
  shrinks_handlerMap_keys : map_keys (handlerMap s') = map_keys (handlerMap s);
  shrinks_events : forall event, sub_map (table event (events s')) (table event (events s));
  shrinks_handlerMap :
    forall event, sub_map (table event (handlerMap s')) (table event (handlerMap s));
  shrinks_nextSymbol : nextSymbol s' = nextSymbol s;
  shrinks_nextClosure : nextClosure s' = nextClosure s
}.

(** The states the class can be in: from the empty registry, public
    operations and garbage collections in any order. *)
Inductive reachable : Heap -> Pool -> Prop :=
| reachable_empty live : reachable live empty
| reachable_gc live live' s :
    reachable live s -> (forall h, live' h = true -> live h = true) ->
    reachable live' s
| reachable_run live op s :
    reachable live s -> admissible s op -> reachable live (run live op s).

(** The subscription [id] of [event] resolves, and calling its handler
    calls [h]. *)
Definition reaches (live : Heap) (event : string) (s : Pool) (id : symbol)
    (h : Handler) : Prop :=
  exists w, map_get id (table event (events s)) = Some w /\
            live (target w) = true /\ In h (invoked_by (target w)).

(** The subscription [id] of [event] refers to [h], and no reverse entry of
    another handler holds [id]. *)
Definition guarded (event : string) (id : symbol) (h : Handler) (s : Pool) : Prop :=
  map_get id (table event (events s)) = Some (mkWeakRef h) /\
  forall h', map_get h' (table event (handlerMap s)) = Some id -> h' = h.

(** A removal that names nothing recorded: [off] for an event without tables
    or a handler without reverse entry, [offById] for a symbol no table
    holds. *)
Definition unknown (s : Pool) (op : Op) : Prop :=
  match op with
  | Off event handler =>
      map_has event (events s) = false \/
      map_has event (handlerMap s) = false \/
      map_get handler (table event (handlerMap s)) = None
  | OffById eventId =>
      forall event em, In (event, em) (events s) -> map_has eventId em = false
  | _ => False
  end.

(** The operation works on [event] alone.  For [emit] the handlers called
    are functions of the caller or closures of [once] made for [event]. *)
Definition scoped (live : Heap) (s : Pool) (event : string) (op : Op) : Prop :=
  match op with
  | On e _ | Once e _ | Off e _ | RemoveAllListeners e => e = event
  | OffById eventId => exists em, owner eventId (events s) = Some (event, em)
  | Emit e _ =>
      e = event /\
      forall id w, map_get id (table event (events s)) = Some w ->
                   live (target w) = true -> scoped_to event (target w)
  | RemoveAll | SweepDeadHandlers => False
  end.

(** Both tables of [event] are the same in [s] and [s'] (or absent in both). *)
Definition untouched (event : string) (s s' : Pool) : Prop :=
  map_get event (events s') = map_get event (events s) /\
  map_get event (handlerMap s') = map_get event (handlerMap s).

(** [cleanDeadHandlers] has nothing to do for [event]. *)
Definition swept (live : Heap) (event : string) (s : Pool) : Prop :=
  map_has event (events s) = true -> map_has event (handlerMap s) = true ->
  deadEventIds live (table event (events s)) = [].

(** ** The rest of the class *)

(** A line [gcDebug] writes with [console.log]: the two banners, and per
    subscription the values its template interpolates (the event, the symbol,
    and the handler whose name is shown or the mark of a reclaimed one). *)
Inductive DebugLine : Type :=
| DebugStart
| DebugHandler (event : string) (eventId : symbol) (handler : Handler)
| DebugReclaimed (event : string) (eventId : symbol)
| DebugEnd.

(** [gcDebug()]: the lines written, in order.  The fields are only read. *)
Definition gcDebug (live : Heap) (s : Pool) : list DebugLine :=
  DebugStart ::
  flat_map (fun row : string * list (symbol * WeakRef) =>
              map (fun e : symbol * WeakRef =>
                     match deref live (snd e) with
                     | Some handler => DebugHandler (fst row) (fst e) handler
                     | None => DebugReclaimed (fst row) (fst e)
                     end) (snd row))
           (events s)
  ++ [DebugEnd].

(** The two fields have the same event names, in the same order. *)
Definition paired (s : Pool) : Prop :=
  map_keys (events s) = map_keys (handlerMap s).

(** A symbol is in the subscription table of one event at most. *)
Definition one_owner (s : Pool) : Prop :=
  forall e1 e2 id w1 w2,
    map_get id (table e1 (events s)) = Some w1 ->
    map_get id (table e2 (events s)) = Some w2 -> e1 = e2.

(** ** Handlers that throw or call the registry

    The operations above give [emit] for handlers that return normally and
    leave the registry alone.  What follows is the emission for any function
    of the caller: its body makes registry calls, then returns or throws.
    [emitX] is proved below to agree with [emit] when the handlers called are
    plain.

    - An exception leaves [onceHandler] before its [off], and leaves the loop
      of [emit], which has no handler for it.
    - The loop iterates the event's inner [Map] object.  Entries appended to
      it during the emission are met in their turn.  [removeAllListeners] and
      [removeAll] take the object out of [events] without emptying it: the
      loop goes on over what it held, and nothing else can change it any
      more.
    - A handler that emits, or subscribes at every call, may never return:
      the recursion is bounded by [fuel]. *)

(** What a function of the caller does when called. *)
Record Body : Type := mkBody { does : list Op; throws : bool }.

Definition Program : Type := nat -> Args -> Body.

Definition plain_body : Body := mkBody [] false.

Inductive Outcome : Type := Returned | Thrown | OutOfFuel.

(** The registry, and the inner [Map]s of [events] that bulk removals have
    taken out, oldest first. *)
Record XPool : Type := mkXPool {
  pool : Pool;
  retired : list (string * list (symbol * WeakRef))
}.

Definition lift (f : Pool -> Pool) (x : XPool) : XPool :=
  mkXPool (f (pool x)) (retired x).

Definition retired_of (event : string) (x : XPool) : list (string * list (symbol * WeakRef)) :=
  filter (fun r => if string_dec (fst r) event then true else false) (retired x).

(** The inner [Map] a loop of [emit] holds: the one that was the row of
    [event] when [n0] rows of [event] had been taken out. *)
Definition object (event : string) (n0 : nat) (x : XPool) : list (symbol * WeakRef) :=
  match nth_error (retired_of event x) n0 with
  | Some r => snd r
  | None => table event (events (pool x))
  end.

Definition removeAllListenersX (event : string) (x : XPool) : XPool :=
  mkXPool (removeAllListeners event (pool x))
          (match map_get event (events (pool x)) with
           | Some m => retired x ++ [(event, m)]
           | None => retired x
           end).

Definition removeAllX (x : XPool) : XPool :=
  mkXPool (removeAll (pool x)) (retired x ++ events (pool x)).

(** Keys of the iterated [Map] the loop has not met yet. *)
Definition unseen (known : list symbol) (obj : list (symbol * WeakRef)) : list symbol :=
  filter (fun k => negb (existsb (Nat.eqb k) known)) (map_keys obj).

(** [emit], given the loop. *)
Definition emit_with
    (loop : string -> Args -> nat -> list symbol -> list symbol -> XPool -> XPool * Outcome)
    (live : Heap) (event : string) (args : Args) (x : XPool) : XPool * Outcome :=
  let x1 := lift (cleanDeadHandlers live event) x in
  if negb (map_has event (events (pool x1))) then (x1, Returned)
  else loop event args (length (retired_of event x1)) [] [] x1.

(** One registry call made by a handler. *)
Definition step_with
    (loop : string -> Args -> nat -> list symbol -> list symbol -> XPool -> XPool * Outcome)
    (live : Heap) (op : Op) (x : XPool) : XPool * Outcome :=
  match op with
  | Emit event args => emit_with loop live event args x
  | RemoveAll => (removeAllX x, Returned)
  | RemoveAllListeners event => (removeAllListenersX event x, Returned)
  | _ => (lift (run live op) x, Returned)
  end.

Fixpoint body_with
    (loop : string -> Args -> nat -> list symbol -> list symbol -> XPool -> XPool * Outcome)
    (live : Heap) (ops : list Op) (x : XPool) : XPool * Outcome :=
  match ops with
  | [] => (x, Returned)
  | op :: rest =>
      match step_with loop live op x with
      | (x', Returned) => body_with loop live rest x'
      | r => r
      end
  end.

(** [handler(...args)] and the loop of [emit] over the inner [Map] of
    [event]: [pending] are the keys still to meet, [known] all keys met or
    pending. *)
Fixpoint invokeX (fuel : nat) (prog : Program) (live : Heap) (h : Handler)
    (args : Args) (x : XPool) {struct fuel} : XPool * Outcome :=
  match fuel with
  | 0 => (x, OutOfFuel)
  | S n =>
      let x1 := lift (record_call h args) x in
      match h with
      | Fn f =>
          match body_with (loopX n prog live) live (does (prog f args)) x1 with
          | (x2, Returned) => (x2, if throws (prog f args) then Thrown else Returned)
          | r => r
          end
      | OnceHandler _ event handler =>
          match invokeX n prog live handler args x1 with
          | (x2, Returned) => (lift (off event h) x2, Returned)
          | r => r
          end
      end
  end
with loopX (fuel : nat) (prog : Program) (live : Heap) (event : string) (args : Args)
    (n0 : nat) (known pending : list symbol) (x : XPool) {struct fuel}
    : XPool * Outcome :=
  match fuel with
  | 0 => (x, OutOfFuel)
  | S n =>
      let obj := object event n0 x in
      let new := unseen known obj in
      match pending ++ new with
      | [] => (x, Returned)
      | eventId :: rest =>
          match map_get eventId obj with
          | Some weakRef =>
              match deref live weakRef with
              | Some handler =>
                  match invokeX n prog live handler args x with
                  | (x', Returned) =>
                      loopX n prog live event args n0 (known ++ new) rest x'
                  | r => r
                  end
              | None => loopX n prog live event args n0 (known ++ new) rest x
              end
          | None => loopX n prog live event args n0 (known ++ new) rest x
          end
      end
  end.

Definition emitX (fuel : nat) (prog : Program) (live : Heap) (event : string)
    (args : Args) (x : XPool) : XPool * Outcome :=
  emit_with (loopX fuel prog live) live event args x.

(** Successive emissions by a caller that goes on after an exception. *)
Fixpoint emitsX (fuel : nat) (prog : Program) (event : string)
    (es : list (Heap * Args)) (x : XPool) : XPool * list Outcome :=
  match es with
  | [] => (x, [])
  | (live, args) :: rest =>
      let r := emitX fuel prog live event args x in
      let rs := emitsX fuel prog event rest (fst r) in
      (fst rs, snd r :: snd rs)
  end.

Definition start (s : Pool) : XPool := mkXPool s [].

(** Calling [h] calls only functions that return normally without calling
    the registry. *)
Definition plain (prog : Program) (h : Handler) : Prop :=
  forall f, In (Fn f) (invoked_by h) -> forall args, prog f args = plain_body.

(** Fuel that an emission on [event] with plain handlers does not exhaust. *)
Definition fuel_bound (event : string) (s : Pool) : nat :=
  length (table event (events s)) +
  list_max (map (fun e => depth (target (snd e))) (table event (events s))) + 2.

(** A subscription of a handler that has none yet in the event's table. *)
Definition first_subscription (s : Pool) (op : Op) : Prop :=
  match op with
  | On event handler =>
      forall id, map_get id (table event (events s)) <> Some (mkWeakRef handler)
  | _ => True
  end.

(** The states reached when [on] is never called with a handler that the
    event's table already refers to. *)
Inductive reachable_fresh : Heap -> Pool -> Prop :=
| reachable_fresh_empty live : reachable_fresh live empty
| reachable_fresh_gc live live' s :
    reachable_fresh live s -> (forall h, live' h = true -> live h = true) ->
    reachable_fresh live' s
| reachable_fresh_run live op s :
    reachable_fresh live s -> admissible s op -> first_subscription s op ->
    reachable_fresh live (run live op s).

(** The subscription-to-reverse half of invariant I1: the handler a
    subscription refers to is recorded for that subscription. *)
Definition forward (s : Pool) : Prop :=
  forall event id h,
    map_get id (table event (events s)) = Some (mkWeakRef h) ->
    map_get h (table event (handlerMap s)) = Some id.

(** Calling [h] calls only functions that do not call the registry (they
    may throw). *)
Definition passive (prog : Program) (h : Handler) : Prop :=
  forall f, In (Fn f) (invoked_by h) -> forall args, does (prog f args) = [].

(** ** Small runs *)

Definition all_live : Heap := fun _ => true.

Example run_on_emit :
  calls (emit all_live "e" [7] (snd (on "e" (Fn 0) empty))) = [(Fn 0, [7])].
Proof. reflexivity. Qed.

Example run_once_twice :
  calls (emit all_live "e" [2] (emit all_live "e" [1] (snd (once "e" (Fn 0) empty))))
  = [(OnceHandler 0 "e" (Fn 0), [1]); (Fn 0, [1])].
Proof. reflexivity. Qed.

(** The run of the test on sweeping: of two subscribers the second is
    reclaimed; the sweep deletes its two entries and the first is still
    called. *)
Example run_sweep :
  let live := fun h => match h with Fn 2 => false | _ => true end in
  let s := snd (on "sweepTest" (Fn 2) (snd (on "sweepTest" (Fn 1) empty))) in
  let s' := sweepDeadHandlers live s in
  events s' = [("sweepTest", [(0, mkWeakRef (Fn 1))])] /\
  handlerMap s' = [("sweepTest", [(Fn 1, 0)])] /\
  calls (emit live "sweepTest" [5] s') = [(Fn 1, [5])].
Proof. repeat split. Qed.

Example run_scenario :
  let s1 := snd (on "E" (Fn 1) empty) in
  let s2 := snd (on "E" (Fn 2) s1) in
  let s3 := emit all_live "E" [1] s2 in
  let s4 := emit all_live "E" [2] (off "E" (Fn 1) s3) in
  calls s4 = [(Fn 1, [1]); (Fn 2, [1]); (Fn 2, [2])].
Proof. reflexivity. Qed.

(** ** Facts on [Map]s *)

Section JsMapFacts.
Context {K V : Type} `{EqDec K}.
Implicit Types (k : K) (v : V) (m : JsMap K V).

Lemma map_get_set_eq k v m : map_get k (map_set k v m) = Some v.
Proof.
  induction m as [|[k' v'] m IH]; simpl.
  - destruct (eq_dec k k); congruence.
  - destruct (eq_dec k k') as [->|N]; simpl.
    + destruct (eq_dec k' k'); congruence.
    + destruct (eq_dec k k'); congruence.
Qed.

Lemma map_get_set_neq k k' v m :
  k <> k' -> map_get k' (map_set k v m) = map_get k' m.
Proof.
  intros N. induction m as [|[k0 v0] m IH]; simpl.
  - destruct (eq_dec k' k); congruence.
  - destruct (eq_dec k k0) as [->|N0]; simpl.
    + destruct (eq_dec k' k0); congruence.
    + destruct (eq_dec k' k0); congruence.
Qed.

Lemma map_get_delete_eq k m : map_get k (map_delete k m) = None.
Proof.
  induction m as [|[k' v'] m IH]; simpl; auto.
  destruct (eq_dec k k') as [->|N]; simpl; auto.
  destruct (eq_dec k k'); congruence.
Qed.

Lemma map_get_delete_neq k k' m :
  k <> k' -> map_get k' (map_delete k m) = map_get k' m.
Proof.
  intros N. induction m as [|[k0 v0] m IH]; simpl; auto.
  destruct (eq_dec k k0) as [->|N0]; simpl.
  - destruct (eq_dec k' k0); congruence.
  - destruct (eq_dec k' k0); congruence.
Qed.

(** Deleting never reveals a binding that was not there. *)
Lemma map_get_delete_Some k k' v m :
  map_get k' (map_delete k m) = Some v -> map_get k' m = Some v /\ k <> k'.
Proof.
  intros G. destruct (eq_dec k k') as [->|N].
  - rewrite map_get_delete_eq in G. discriminate.
  - rewrite map_get_delete_neq in G by assumption. auto.
Qed.

Lemma map_has_true k m : map_has k m = true <-> exists v, map_get k m = Some v.
Proof.
  unfold map_has. destruct (map_get k m); split; intros; eauto; try discriminate.
  destruct H0; discriminate.
Qed.

Lemma map_has_false k m : map_has k m = false <-> map_get k m = None.
Proof. unfold map_has. destruct (map_get k m); split; intros; congruence. Qed.

Lemma map_get_In k v m : map_get k m = Some v -> In (k, v) m.
Proof.
  induction m as [|[k' v'] m IH]; simpl; try discriminate.
  destruct (eq_dec k k') as [->|N]; intros G.
  - left. congruence.
  - right. auto.
Qed.

Lemma map_get_None k m : map_get k m = None <-> ~ In k (map_keys m).
Proof.
  induction m as [|[k' v'] m IH]; simpl.
  - tauto.
  - destruct (eq_dec k k') as [->|N].
    + split; [discriminate | intros C; exfalso; apply C; auto].
    + rewrite IH. split; intros C; [intros [E|I]; [congruence | auto] | tauto].
Qed.

Lemma In_map_keys k v m : In (k, v) m -> In k (map_keys m).
Proof. intros I. apply (in_map fst) in I. exact I. Qed.

Lemma In_map_get k v m : NoDup (map_keys m) -> In (k, v) m -> map_get k m = Some v.
Proof.
  induction m as [|[k' v'] m IH]; simpl; intros ND I; [contradiction|].
  inversion ND as [|? ? NI ND']; subst.
  destruct I as [E|I].
  - inversion E; subst. destruct (eq_dec k k); congruence.
  - destruct (eq_dec k k') as [->|N]; auto.
    exfalso. apply NI. eapply In_map_keys; eauto.
Qed.

Lemma In_map_delete k k' v m : In (k', v) (map_delete k m) <-> In (k', v) m /\ k <> k'.
Proof.
  induction m as [|[k0 v0] m IH]; simpl.
  - tauto.
  - destruct (eq_dec k k0) as [->|N]; simpl; rewrite IH.
    + split; [tauto|]. intros [[E|I] N]; [inversion E; congruence | tauto].
    + split.
      * intros [E|I]; [inversion E; subst; tauto | tauto].
      * tauto.
Qed.

Lemma In_map_set k k' v v' m :
  In (k', v') (map_set k v m) -> (k' = k /\ v' = v) \/ In (k', v') m.
Proof.
  induction m as [|[k0 v0] m IH]; simpl.
  - intros [E|[]]. inversion E; auto.
  - destruct (eq_dec k k0) as [->|N]; simpl.
    + intros [E|I]; [inversion E; auto | auto].
    + intros [E|I]; [auto | destruct (IH I); auto].
Qed.

Lemma map_keys_set_present k v m :
  In k (map_keys m) -> map_keys (map_set k v m) = map_keys m.
Proof.
  induction m as [|[k0 v0] m IH]; simpl; [contradiction|].
  intros I. destruct (eq_dec k k0) as [->|N]; simpl; auto.
  f_equal. apply IH. destruct I; congruence.
Qed.

Lemma map_keys_set_absent k v m :
  ~ In k (map_keys m) -> map_keys (map_set k v m) = map_keys m ++ [k].
Proof.
  induction m as [|[k0 v0] m IH]; simpl; auto.
  intros NI. destruct (eq_dec k k0) as [->|N]; simpl.
  - exfalso. auto.
  - f_equal. auto.
Qed.

Lemma NoDup_map_set k v m : NoDup (map_keys m) -> NoDup (map_keys (map_set k v m)).
Proof.
  intros ND. destruct (in_dec eq_dec k (map_keys m)) as [I|NI].
  - rewrite map_keys_set_present; auto.
  - rewrite map_keys_set_absent by assumption.
    apply NoDup_app; auto.
    + constructor; [simpl; tauto | constructor].
    + intros x Ix [<-|[]]. auto.
Qed.

Lemma map_delete_filter k m :
  map_delete k m = filter (fun e => if eq_dec k (fst e) then false else true) m.
Proof.
  induction m as [|[k0 v0] m IH]; simpl; auto.
  destruct (eq_dec k k0); simpl; congruence.
Qed.

Lemma NoDup_keys_filter (f : K * V -> bool) m :
  NoDup (map_keys m) -> NoDup (map_keys (filter f m)).
Proof.
  induction m as [|[k0 v0] m IH]; simpl; auto.
  intros ND. inversion ND as [|? ? NI ND']; subst.
  destruct (f (k0, v0)); simpl; auto.
  constructor; auto.
  intros I. apply NI. unfold map_keys in *. rewrite in_map_iff in *.
  destruct I as [e [E I]]. exists e. split; auto.
  apply filter_In in I. tauto.
Qed.

Lemma NoDup_map_delete k m : NoDup (map_keys m) -> NoDup (map_keys (map_delete k m)).
Proof. rewrite map_delete_filter. apply NoDup_keys_filter. Qed.

Lemma map_set_same k v m : map_get k m = Some v -> map_set k v m = m.
Proof.
  induction m as [|[k0 v0] m IH]; simpl; try discriminate.
  destruct (eq_dec k k0) as [->|N]; intros G.
  - congruence.
  - f_equal. auto.
Qed.

Lemma map_set_set k v v0 m : map_set k v (map_set k v0 m) = map_set k v m.
Proof.
  induction m as [|[k1 v1] m IH]; simpl.
  - destruct (eq_dec k k); congruence.
  - destruct (eq_dec k k1) as [->|N]; simpl.
    + destruct (eq_dec k1 k1); congruence.
    + destruct (eq_dec k k1); congruence.
Qed.

Lemma map_delete_absent k m : map_get k m = None -> map_delete k m = m.
Proof.
  induction m as [|[k0 v0] m IH]; simpl; auto.
  destruct (eq_dec k k0) as [->|N]; intros G; [discriminate|].
  f_equal. auto.
Qed.

Lemma map_has_set k k' v m : map_has k' m = true -> map_has k' (map_set k v m) = true.
Proof.
  intros Hm. destruct (eq_dec k k') as [->|N].
  - unfold map_has. now rewrite map_get_set_eq.
  - unfold map_has in *. now rewrite map_get_set_neq.
Qed.

End JsMapFacts.

(** Rows of the two fields. *)

Section RowFacts.
Context {V : Type}.
Implicit Types (m : JsMap string (list V)) (t : list V).

Lemma table_set_eq event t m : table event (map_set event t m) = t.
Proof. unfold table. now rewrite map_get_set_eq. Qed.

Lemma table_set_neq event event' t m :
  event <> event' -> table event' (map_set event t m) = table event' m.
Proof. intros N. unfold table. now rewrite map_get_set_neq. Qed.

Lemma table_delete_neq event event' m :
  event <> event' -> table event' (map_delete event m) = table event' m.
Proof. intros N. unfold table. now rewrite map_get_delete_neq. Qed.

Lemma table_In event m :
  map_has event m = true -> In (event, table event m) m.
Proof.
  intros Hm. apply map_has_true in Hm. destruct Hm as [t G].
  unfold table. rewrite G. now apply map_get_In.
Qed.

Lemma In_table event t m :
  NoDup (map_keys m) -> In (event, t) m -> table event m = t.
Proof. intros ND I. unfold table. now rewrite (In_map_get _ _ _ ND I). Qed.

Lemma table_absent event m : map_has event m = false -> table event m = [].
Proof. intros Hm. apply map_has_false in Hm. unfold table. now rewrite Hm. Qed.

End RowFacts.

(** ** Tables that only lose entries *)

Section SubMap.
Context {K V : Type} `{EqDec K}.
Implicit Types (k : K) (v : V) (m : JsMap K V).

Lemma sub_map_trans m1 m2 m3 : sub_map m1 m2 -> sub_map m2 m3 -> sub_map m1 m3.
Proof. induction 1; intros S; auto. constructor. auto. Qed.

Lemma sub_map_get k v m' m : sub_map m' m -> map_get k m' = Some v -> map_get k m = Some v.
Proof.
  induction 1; intros G; auto.
  apply map_get_delete_Some in G. tauto.
Qed.

Lemma sub_map_get_None k m' m : sub_map m' m -> map_get k m = None -> map_get k m' = None.
Proof.
  intros S G. destruct (map_get k m') eqn:G'; auto.
  rewrite (sub_map_get _ _ _ _ S G') in G. discriminate.
Qed.

Lemma sub_map_In k v m' m : sub_map m' m -> In (k, v) m' -> In (k, v) m.
Proof.
  induction 1; intros I; auto.
  apply In_map_delete in I. tauto.
Qed.

Lemma sub_map_NoDup m' m : sub_map m' m -> NoDup (map_keys m) -> NoDup (map_keys m').
Proof. induction 1; intros ND; auto. apply NoDup_map_delete. auto. Qed.

End SubMap.

Create HintDb pool.
#[local] Hint Constructors sub_map : pool.
#[local] Hint Resolve sub_map_trans : pool.

Lemma shrinks_refl s : shrinks s s.
Proof. constructor; auto with pool. Qed.

Lemma shrinks_trans s1 s2 s3 : shrinks s1 s2 -> shrinks s2 s3 -> shrinks s1 s3.
Proof.
  intros [A1 A2 A3 A4 A5 A6] [B1 B2 B3 B4 B5 B6].
  constructor; try congruence; intros event; eauto with pool.
Qed.

Lemma map_has_keys {K V : Type} `{EqDec K} (k : K) (m : JsMap K V) :
  map_has k m = true <-> In k (map_keys m).
Proof.
  unfold map_has. destruct (map_get k m) eqn:G.
  - split; auto. intros _. apply map_get_In in G. eapply In_map_keys; eauto.
  - apply map_get_None in G. split; [discriminate | contradiction].
Qed.

Lemma shrinks_has_events s s' event :
  shrinks s s' -> map_has event (events s') = map_has event (events s).
Proof.
  intros S. apply eq_true_iff_eq. rewrite !map_has_keys.
  now rewrite (shrinks_events_keys _ _ S).
Qed.

Lemma shrinks_has_handlerMap s s' event :
  shrinks s s' -> map_has event (handlerMap s') = map_has event (handlerMap s).
Proof.
  intros S. apply eq_true_iff_eq. rewrite !map_has_keys.
  now rewrite (shrinks_handlerMap_keys _ _ S).
Qed.

(** One row replaced by a smaller one. *)
Lemma shrinks_set_tables s event em hm :
  map_has event (events s) = true -> map_has event (handlerMap s) = true ->
  sub_map em (table event (events s)) ->
  sub_map hm (table event (handlerMap s)) ->
  shrinks s (set_tables (map_set event em (events s)) (map_set event hm (handlerMap s)) s).
Proof.
  intros He Hh Se Sh.
  constructor; cbn [set_tables events handlerMap nextSymbol nextClosure]; auto.
  - apply map_keys_set_present. now apply map_has_keys.
  - apply map_keys_set_present. now apply map_has_keys.
  - intros e. destruct (string_dec event e) as [<-|N].
    + now rewrite table_set_eq.
    + rewrite table_set_neq by assumption. constructor.
  - intros e. destruct (string_dec event e) as [<-|N].
    + now rewrite table_set_eq.
    + rewrite table_set_neq by assumption. constructor.
Qed.

Lemma shrinks_off event handler s : shrinks s (off event handler s).
Proof.
  unfold off.
  destruct (map_has event (events s)) eqn:He; simpl; [|apply shrinks_refl].
  destruct (map_has event (handlerMap s)) eqn:Hh; simpl; [|apply shrinks_refl].
  destruct (map_get handler (table event (handlerMap s))); [|apply shrinks_refl].
  apply shrinks_set_tables; auto with pool.
Qed.

Lemma delete_reverse_sub eventId hm : sub_map (delete_reverse eventId hm) hm.
Proof.
  unfold delete_reverse.
  destruct (find (fun e => Nat.eqb (snd e) eventId) hm) as [[h i]|]; auto with pool.
Qed.

Lemma purge_sub ids : forall t,
  sub_map (fst (fold_left purge ids t)) (fst t) /\
  sub_map (snd (fold_left purge ids t)) (snd t).
Proof.
  induction ids as [|id ids IH]; intros [em hm]; simpl; auto with pool.
  destruct (IH (purge (em, hm) id)) as [A B]. simpl in *.
  split; eapply sub_map_trans; eauto using delete_reverse_sub with pool.
Qed.

Lemma shrinks_cleanDeadHandlers live event s : shrinks s (cleanDeadHandlers live event s).
Proof.
  unfold cleanDeadHandlers.
  destruct (map_has event (events s)) eqn:He; simpl; [|apply shrinks_refl].
  destruct (map_has event (handlerMap s)) eqn:Hh; simpl; [|apply shrinks_refl].
  apply shrinks_set_tables; auto; apply purge_sub.
Qed.

Lemma shrinks_record_call h args s : shrinks s (record_call h args s).
Proof. constructor; simpl; auto with pool. Qed.

Lemma shrinks_invoke h args : forall s, shrinks s (invoke h args s).
Proof.
  induction h as [f|c event h IH]; intros s; simpl.
  - apply shrinks_record_call.
  - eapply shrinks_trans; [apply shrinks_record_call|].
    eapply shrinks_trans; [apply IH|]. apply shrinks_off.
Qed.

Lemma shrinks_emit_loop live event args pending :
  forall s, shrinks s (emit_loop live event args pending s).
Proof.
  induction pending as [|id rest IH]; intros s; simpl; [apply shrinks_refl|].
  destruct (map_get id _) as [w|]; auto.
  destruct (deref live w); auto.
  eapply shrinks_trans; [apply shrinks_invoke | apply IH].
Qed.

Lemma shrinks_emit live event args s : shrinks s (emit live event args s).
Proof.
  unfold emit.
  destruct (negb _); [apply shrinks_cleanDeadHandlers|].
  eapply shrinks_trans; [apply shrinks_cleanDeadHandlers | apply shrinks_emit_loop].
Qed.

Lemma shrinks_sweep_fold live l :
  forall s, shrinks s (fold_left (fun acc event => cleanDeadHandlers live event acc) l s).
Proof.
  induction l as [|e l IH]; intros s; simpl; [apply shrinks_refl|].
  eapply shrinks_trans; [apply shrinks_cleanDeadHandlers | apply IH].
Qed.

Lemma shrinks_sweepDeadHandlers live s : shrinks s (sweepDeadHandlers live s).
Proof. apply shrinks_sweep_fold. Qed.

Lemma shrinks_emits event es : forall s, shrinks s (emits event es s).
Proof.
  induction es as [|[live args] es IH]; intros s; simpl; [apply shrinks_refl|].
  eapply shrinks_trans; [apply shrinks_emit | apply IH].
Qed.

(** ** Well-formedness is kept by every operation *)

Lemma In_table_row {V : Type} (event : string) (x : V) (m : JsMap string (list V)) :
  In x (table event m) -> In (event, table event m) m.
Proof.
  unfold table. destruct (map_get event m) eqn:G; [|contradiction].
  intros _. now apply map_get_In.
Qed.

Lemma shrinks_row_events s s' event em' :
  NoDup (map_keys (events s)) -> shrinks s s' -> In (event, em') (events s') ->
  exists em, In (event, em) (events s) /\ sub_map em' em.
Proof.
  intros ND S I. exists (table event (events s)). split.
  - apply table_In. rewrite <- (shrinks_has_events _ _ _ S).
    apply map_has_keys. eapply In_map_keys; eauto.
  - rewrite <- (In_table event em' (events s')); [apply S | | assumption].
    now rewrite (shrinks_events_keys _ _ S).
Qed.

Lemma shrinks_row_handlerMap s s' event hm' :
  NoDup (map_keys (handlerMap s)) -> shrinks s s' -> In (event, hm') (handlerMap s') ->
  exists hm, In (event, hm) (handlerMap s) /\ sub_map hm' hm.
Proof.
  intros ND S I. exists (table event (handlerMap s)). split.
  - apply table_In. rewrite <- (shrinks_has_handlerMap _ _ _ S).
    apply map_has_keys. eapply In_map_keys; eauto.
  - rewrite <- (In_table event hm' (handlerMap s')); [apply S | | assumption].
    now rewrite (shrinks_handlerMap_keys _ _ S).
Qed.

Lemma wf_shrinks s s' : well_formed s -> shrinks s s' -> well_formed s'.
Proof.
  intros W S.
  pose proof (wf_events_keys _ W) as NDe.
  pose proof (wf_handlerMap_keys _ W) as NDh.
  constructor.
  - now rewrite (shrinks_events_keys _ _ S).
  - now rewrite (shrinks_handlerMap_keys _ _ S).
  - intros event em I.
    destruct (shrinks_row_events _ _ _ _ NDe S I) as [em0 [I0 Sub]].
    eapply sub_map_NoDup; eauto. eapply wf_eventMap_keys; eauto.
  - intros event hm I.
    destruct (shrinks_row_handlerMap _ _ _ _ NDh S I) as [hm0 [I0 Sub]].
    eapply sub_map_NoDup; eauto. eapply wf_reverse_keys; eauto.
  - intros event em id w I Iw.
    destruct (shrinks_row_events _ _ _ _ NDe S I) as [em0 [I0 Sub]].
    rewrite (shrinks_nextSymbol _ _ S).
    eapply wf_event_ids; eauto using sub_map_In.
  - intros event hm h id I Ih.
    destruct (shrinks_row_handlerMap _ _ _ _ NDh S I) as [hm0 [I0 Sub]].
    rewrite (shrinks_nextSymbol _ _ S).
    eapply wf_reverse_ids; eauto using sub_map_In.
  - intros event hm h h' id I Ih Ih'.
    destruct (shrinks_row_handlerMap _ _ _ _ NDh S I) as [hm0 [I0 Sub]].
    eapply wf_reverse_inj; eauto using sub_map_In.
Qed.

Lemma allocated_shrinks s s' : well_formed s -> allocated s -> shrinks s s' -> allocated s'.
Proof.
  intros W A S.
  pose proof (wf_events_keys _ W) as NDe.
  pose proof (wf_handlerMap_keys _ W) as NDh.
  constructor.
  - intros event em id w I Iw.
    destruct (shrinks_row_events _ _ _ _ NDe S I) as [em0 [I0 Sub]].
    rewrite (shrinks_nextClosure _ _ S).
    eapply al_events; eauto using sub_map_In.
  - intros event hm h id I Ih.
    destruct (shrinks_row_handlerMap _ _ _ _ NDh S I) as [hm0 [I0 Sub]].
    rewrite (shrinks_nextClosure _ _ S).
    eapply al_handlerMap; eauto using sub_map_In.
Qed.

Lemma wf_empty : well_formed empty.
Proof. constructor; simpl; try constructor; contradiction. Qed.

Lemma allocated_empty : allocated empty.
Proof. constructor; simpl; contradiction. Qed.

Lemma wf_removeAll s : well_formed s -> well_formed (removeAll s).
Proof. intros _. constructor; simpl; try constructor; contradiction. Qed.

Lemma allocated_removeAll s : allocated (removeAll s).
Proof. constructor; simpl; contradiction. Qed.

Lemma allocated_removeAllListeners event s :
  allocated s -> allocated (removeAllListeners event s).
Proof.
  intros A. constructor; cbn [removeAllListeners set_tables events handlerMap nextClosure].
  - intros e em id w I. apply In_map_delete in I. destruct I as [I _]. eapply al_events; eauto.
  - intros e hm h id I. apply In_map_delete in I. destruct I as [I _]. eapply al_handlerMap; eauto.
Qed.

Lemma wf_removeAllListeners event s :
  well_formed s -> well_formed (removeAllListeners event s).
Proof.
  intros W. constructor; cbn [removeAllListeners set_tables events handlerMap
                               nextSymbol nextClosure].
  - apply NoDup_map_delete, W.
  - apply NoDup_map_delete, W.
  - intros e em I. apply In_map_delete in I. destruct I as [I _]. eapply wf_eventMap_keys; eauto.
  - intros e hm I. apply In_map_delete in I. destruct I as [I _]. eapply wf_reverse_keys; eauto.
  - intros e em id w I. apply In_map_delete in I. destruct I as [I _]. eapply wf_event_ids; eauto.
  - intros e hm h id I. apply In_map_delete in I. destruct I as [I _]. eapply wf_reverse_ids; eauto.
  - intros e hm h h' id I. apply In_map_delete in I. destruct I as [I _].
    eapply wf_reverse_inj; eauto.
Qed.

(** [on] written without the two creation tests: a missing row is created
    with its first entry. *)
Lemma on_events event handler s :
  events (snd (on event handler s)) =
  map_set event (map_set (nextSymbol s) (mkWeakRef handler) (table event (events s)))
          (events s).
Proof.
  unfold on. cbn [snd events].
  destruct (map_has event (events s)) eqn:He; auto.
  rewrite table_set_eq, map_set_set, (table_absent _ _ He). reflexivity.
Qed.

Lemma on_handlerMap event handler s :
  handlerMap (snd (on event handler s)) =
  map_set event (map_set handler (nextSymbol s) (table event (handlerMap s)))
          (handlerMap s).
Proof.
  unfold on. cbn [snd handlerMap].
  destruct (map_has event (handlerMap s)) eqn:He; auto.
  rewrite table_set_eq, map_set_set, (table_absent _ _ He). reflexivity.
Qed.

Lemma on_fst event handler s : fst (on event handler s) = nextSymbol s.
Proof. reflexivity. Qed.

Lemma on_nextSymbol event handler s :
  nextSymbol (snd (on event handler s)) = S (nextSymbol s).
Proof. reflexivity. Qed.

Lemma on_nextClosure event handler s :
  nextClosure (snd (on event handler s)) = nextClosure s.
Proof. reflexivity. Qed.

Lemma on_calls event handler s : calls (snd (on event handler s)) = calls s.
Proof. reflexivity. Qed.

Lemma on_rows_events event handler s e em id w :
  In (e, em) (events (snd (on event handler s))) -> In (id, w) em ->
  (id = nextSymbol s /\ w = mkWeakRef handler) \/
  exists em0, In (e, em0) (events s) /\ In (id, w) em0.
Proof.
  intros I Iw. rewrite on_events in I.
  apply In_map_set in I. destruct I as [[-> ->]|I]; [|eauto].
  apply In_map_set in Iw. destruct Iw as [Iw|Iw]; [auto|].
  right. eexists. split; [eapply In_table_row|]; eauto.
Qed.

Lemma on_rows_handlerMap event handler s e hm h id :
  In (e, hm) (handlerMap (snd (on event handler s))) -> In (h, id) hm ->
  (h = handler /\ id = nextSymbol s) \/
  exists hm0, In (e, hm0) (handlerMap s) /\ In (h, id) hm0.
Proof.
  intros I Ih. rewrite on_handlerMap in I.
  apply In_map_set in I. destruct I as [[-> ->]|I]; [|eauto].
  apply In_map_set in Ih. destruct Ih as [Ih|Ih]; [auto|].
  right. eexists. split; [eapply In_table_row|]; eauto.
Qed.

Lemma wf_on event handler s : well_formed s -> well_formed (snd (on event handler s)).
Proof.
  intros W. constructor.
  - rewrite on_events. apply NoDup_map_set, W.
  - rewrite on_handlerMap. apply NoDup_map_set, W.
  - intros e em I. rewrite on_events in I.
    apply In_map_set in I. destruct I as [[-> ->]|I].
    + apply NoDup_map_set.
      destruct (map_has event (events s)) eqn:He.
      * eapply wf_eventMap_keys; eauto using table_In.
      * rewrite (table_absent _ _ He). constructor.
    + eapply wf_eventMap_keys; eauto.
  - intros e hm I. rewrite on_handlerMap in I.
    apply In_map_set in I. destruct I as [[-> ->]|I].
    + apply NoDup_map_set.
      destruct (map_has event (handlerMap s)) eqn:He.
      * eapply wf_reverse_keys; eauto using table_In.
      * rewrite (table_absent _ _ He). constructor.
    + eapply wf_reverse_keys; eauto.
  - intros e em id w I Iw. rewrite on_nextSymbol.
    destruct (on_rows_events _ _ _ _ _ _ _ I Iw) as [[-> _]|[em0 [I0 Iw0]]]; [lia|].
    pose proof (wf_event_ids _ W _ _ _ _ I0 Iw0). lia.
  - intros e hm h id I Ih. rewrite on_nextSymbol.
    destruct (on_rows_handlerMap _ _ _ _ _ _ _ I Ih) as [[_ ->]|[hm0 [I0 Ih0]]]; [lia|].
    pose proof (wf_reverse_ids _ W _ _ _ _ I0 Ih0). lia.
  - intros e hm h h' id I Ih Ih'.
    destruct (on_rows_handlerMap _ _ _ _ _ _ _ I Ih) as [[-> ->]|[hm0 [I0 Ih0]]];
      destruct (on_rows_handlerMap _ _ _ _ _ _ _ I Ih') as [[-> E]|[hm1 [I1 Ih1]]]; auto.
    + pose proof (wf_reverse_ids _ W _ _ _ _ I1 Ih1). lia.
    + pose proof (wf_reverse_ids _ W _ _ _ _ I0 Ih0). lia.
    + assert (hm1 = hm0) as ->.
      { rewrite <- (In_table e hm0 (handlerMap s)); [|apply W|assumption].
        symmetry. apply In_table; [apply W|assumption]. }
      eapply wf_reverse_inj; eauto.
Qed.

Lemma allocated_on event handler s :
  allocated s -> closures_below (nextClosure s) handler ->
  allocated (snd (on event handler s)).
Proof.
  intros A C. constructor.
  - intros e em id w I Iw. rewrite on_nextClosure.
    destruct (on_rows_events _ _ _ _ _ _ _ I Iw) as [[_ ->]|[em0 [I0 Iw0]]]; [exact C|].
    eapply al_events; eauto.
  - intros e hm h id I Ih. rewrite on_nextClosure.
    destruct (on_rows_handlerMap _ _ _ _ _ _ _ I Ih) as [[-> _]|[hm0 [I0 Ih0]]]; [exact C|].
    eapply al_handlerMap; eauto.
Qed.

Lemma closures_below_le n m h : n <= m -> closures_below n h -> closures_below m h.
Proof. intros L. induction h; simpl; auto. intros [A B]. split; [lia | auto]. Qed.

(** [once] before it calls [on]: the closure is allocated. *)
Lemma wf_closure_allocated s :
  well_formed s ->
  well_formed (mkPool (events s) (handlerMap s) (nextSymbol s) (S (nextClosure s)) (calls s)).
Proof. intros [? ? ? ? ? ? ?]. constructor; auto. Qed.

Lemma wf_once event handler s : well_formed s -> well_formed (snd (once event handler s)).
Proof. intros W. unfold once. apply wf_on. now apply wf_closure_allocated. Qed.

Lemma allocated_once event handler s :
  allocated s -> closures_below (nextClosure s) handler ->
  allocated (snd (once event handler s)).
Proof.
  intros A C. unfold once. apply allocated_on.
  - destruct A as [Ae Ah].
    constructor; cbn [events handlerMap nextClosure] in *; intros;
      (eapply (closures_below_le (nextClosure s)); [lia | eauto]).
  - cbn [nextClosure closures_below]. split; [lia|].
    eapply closures_below_le; [|eassumption]. lia.
Qed.

Lemma owner_Some eventId evs event em :
  owner eventId evs = Some (event, em) -> In (event, em) evs /\ map_has eventId em = true.
Proof.
  induction evs as [|[e m] evs IH]; simpl; [discriminate|].
  destruct (map_has eventId m) eqn:Hm.
  - intros E. inversion E; subst. auto.
  - intros E. destruct (IH E). auto.
Qed.

Lemma owner_None eventId evs :
  owner eventId evs = None <-> forall event em, In (event, em) evs -> map_has eventId em = false.
Proof.
  induction evs as [|[e m] evs IH]; simpl.
  - split; [intros _ ? ? [] | auto].
  - destruct (map_has eventId m) eqn:Hm.
    + split; [discriminate|]. intros A. rewrite (A e m) in Hm; [discriminate | auto].
    + rewrite IH. split.
      * intros A event em [E|I]; [inversion E; subst; auto | eauto].
      * intros A event em I. eauto.
Qed.

Lemma shrinks_offById live eventId s :
  NoDup (map_keys (events s)) -> shrinks s (offById live eventId s).
Proof.
  intros ND. unfold offById.
  destruct (owner eventId (events s)) as [[event em]|] eqn:O; [|apply shrinks_refl].
  apply owner_Some in O. destruct O as [I _].
  pose proof (In_table _ _ _ ND I) as T.
  assert (He : In event (map_keys (events s))) by (eapply In_map_keys; eauto).
  constructor; cbn [set_tables events handlerMap nextSymbol nextClosure]; auto.
  - now apply map_keys_set_present.
  - destruct (match map_get eventId em with Some w => deref live w | None => None end);
      auto.
    destruct (map_get event (handlerMap s)) eqn:G; auto.
    apply map_keys_set_present. apply map_get_In in G. eapply In_map_keys; eauto.
  - intros e. destruct (string_dec event e) as [<-|N].
    + rewrite table_set_eq, T. auto with pool.
    + rewrite table_set_neq by assumption. constructor.
  - intros e.
    destruct (match map_get eventId em with Some w => deref live w | None => None end);
      auto with pool.
    destruct (map_get event (handlerMap s)) eqn:G; auto with pool.
    destruct (string_dec event e) as [<-|N].
    + rewrite table_set_eq. unfold table. rewrite G. auto with pool.
    + rewrite table_set_neq by assumption. constructor.
Qed.

Lemma wf_run live op s : well_formed s -> well_formed (run live op s).
Proof.
  intros W. destruct op; simpl in *.
  - now apply wf_on.
  - now apply wf_once.
  - eapply wf_shrinks; eauto using shrinks_off.
  - eapply wf_shrinks; eauto. apply shrinks_offById, W.
  - now apply wf_removeAllListeners.
  - now apply wf_removeAll.
  - eapply wf_shrinks; eauto using shrinks_emit.
  - eapply wf_shrinks; eauto using shrinks_sweepDeadHandlers.
Qed.

Lemma allocated_run live op s :
  well_formed s -> allocated s -> admissible s op -> allocated (run live op s).
Proof.
  intros W A Ad. destruct op; simpl in *.
  - now apply allocated_on.
  - now apply allocated_once.
  - eapply allocated_shrinks; eauto using shrinks_off.
  - eapply allocated_shrinks; eauto. apply shrinks_offById, W.
  - now apply allocated_removeAllListeners.
  - now apply allocated_removeAll.
  - eapply allocated_shrinks; eauto using shrinks_emit.
  - eapply allocated_shrinks; eauto using shrinks_sweepDeadHandlers.
Qed.

(** ** The reverse table leads to the subscription table *)

Lemma table_delete_eq {V : Type} (event : string) (m : JsMap string (list V)) :
  table event (map_delete event m) = [].
Proof. unfold table. now rewrite map_get_delete_eq. Qed.

Lemma table_get_has {K V : Type} `{EqDec K} (event : string) (k : K) (v : V)
    (m : JsMap string (JsMap K V)) :
  map_get k (table event m) = Some v -> map_has event m = true.
Proof.
  unfold table, map_has. destruct (map_get event m); auto. discriminate.
Qed.

Lemma table_get_In {K V : Type} `{EqDec K} (event : string) (k : K) (v : V)
    (m : JsMap string (JsMap K V)) :
  map_get k (table event m) = Some v ->
  In (event, table event m) m /\ In (k, v) (table event m).
Proof.
  intros G. split.
  - apply table_In. eapply table_get_has; eauto.
  - now apply map_get_In.
Qed.

Lemma consistent_same_tables live s s' :
  events s' = events s -> handlerMap s' = handlerMap s ->
  consistent live s -> consistent live s'.
Proof. unfold consistent. intros -> ->. auto. Qed.

Lemma consistent_on live event handler s :
  well_formed s -> consistent live s -> consistent live (snd (on event handler s)).
Proof.
  intros W C e h id. rewrite on_events, on_handlerMap.
  destruct (string_dec event e) as [<-|N].
  - rewrite !table_set_eq. destruct (Handler_eq_dec handler h) as [<-|Nh].
    + rewrite map_get_set_eq. intros E _. inversion E; subst.
      apply map_get_set_eq.
    + rewrite map_get_set_neq by assumption. intros G L.
      assert (id < nextSymbol s).
      { apply table_get_In in G. destruct G. eapply wf_reverse_ids; eauto. }
      rewrite map_get_set_neq by lia. auto.
  - rewrite !table_set_neq by assumption. auto.
Qed.

Lemma consistent_off live event handler s :
  well_formed s -> consistent live s -> consistent live (off event handler s).
Proof.
  intros W C. unfold off.
  destruct (map_has event (events s)) eqn:He; simpl; auto.
  destruct (map_has event (handlerMap s)) eqn:Hh; simpl; auto.
  destruct (map_get handler (table event (handlerMap s))) as [id0|] eqn:G0; auto.
  intros e h id. cbn [set_tables events handlerMap].
  destruct (string_dec event e) as [<-|N].
  - rewrite !table_set_eq. intros G L.
    apply map_get_delete_Some in G. destruct G as [G Nh].
    rewrite map_get_delete_neq; auto.
    intros <-. apply Nh.
    apply table_get_In in G. apply map_get_In in G0. destruct G.
    eapply wf_reverse_inj; eauto.
  - rewrite !table_set_neq by assumption. auto.
Qed.

Lemma consistent_offById live eventId s :
  well_formed s -> consistent live s -> consistent live (offById live eventId s).
Proof.
  intros W C. unfold offById.
  destruct (owner eventId (events s)) as [[event em]|] eqn:O; auto.
  apply owner_Some in O. destruct O as [I _].
  pose proof (In_table _ _ _ (wf_events_keys _ W) I) as T. subst em.
  intros e h id. cbn [set_tables events handlerMap].
  destruct (string_dec event e) as [<-|N].
  - rewrite table_set_eq. intros G L.
    assert (G' : map_get h (table event (handlerMap s)) = Some id).
    { destruct (match map_get eventId (table event (events s)) with
                | Some w => deref live w | None => None end); auto.
      destruct (map_get event (handlerMap s)) eqn:Gh; auto.
      rewrite table_set_eq in G. apply map_get_delete_Some in G.
      unfold table. rewrite Gh. tauto. }
    pose proof (C _ _ _ G' L) as Ge.
    rewrite map_get_delete_neq; auto.
    intros ->. rewrite Ge in G. unfold deref in G. cbn [target] in G. rewrite L in G.
    pose proof (table_get_has _ _ _ _ G') as Hh. apply map_has_true in Hh.
    destruct Hh as [hm Gh]. rewrite Gh, table_set_eq, map_get_delete_eq in G.
    discriminate.
  - rewrite table_set_neq by assumption. intros G L.
    apply C; auto.
    destruct (match map_get eventId (table event (events s)) with
              | Some w => deref live w | None => None end); auto.
    destruct (map_get event (handlerMap s)); auto.
    now rewrite table_set_neq in G.
Qed.

Lemma consistent_removeAllListeners live event s :
  consistent live s -> consistent live (removeAllListeners event s).
Proof.
  intros C e h id. cbn [removeAllListeners set_tables events handlerMap].
  destruct (string_dec event e) as [<-|N].
  - rewrite table_delete_eq. discriminate.
  - rewrite !table_delete_neq by assumption. auto.
Qed.

Lemma consistent_removeAll live s : consistent live (removeAll s).
Proof. intros e h id. discriminate. Qed.

Lemma consistent_empty live : consistent live empty.
Proof. intros e h id. discriminate. Qed.

(** The ids [cleanDeadHandlers] collects. *)
Lemma In_deadEventIds live em id :
  In id (deadEventIds live em) <-> exists w, In (id, w) em /\ live (target w) = false.
Proof.
  unfold deadEventIds. rewrite in_map_iff. split.
  - intros [[i w] [E I]]. simpl in E. subst i. apply filter_In in I.
    destruct I as [I D]. exists w. split; auto.
    unfold deref in D. simpl in D. destruct (live (target w)); congruence.
  - intros [w [I D]]. exists (id, w). split; auto.
    apply filter_In. split; auto. unfold deref. simpl. now rewrite D.
Qed.

Lemma purge_fst_kept ids id : forall t,
  ~ In id ids -> map_get id (fst (fold_left purge ids t)) = map_get id (fst t).
Proof.
  induction ids as [|i ids IH]; intros t NI; simpl; auto.
  rewrite IH by (simpl in NI; tauto). simpl.
  apply map_get_delete_neq. simpl in NI. tauto.
Qed.

Lemma purge_fst_deleted ids id : forall t,
  In id ids -> map_get id (fst (fold_left purge ids t)) = None.
Proof.
  induction ids as [|i ids IH]; intros t I; simpl; [contradiction|].
  destruct (in_dec Nat.eq_dec id ids) as [I'|NI]; auto.
  rewrite purge_fst_kept by assumption. simpl.
  destruct I as [->|I]; [apply map_get_delete_eq | contradiction].
Qed.

Lemma consistent_cleanDeadHandlers live event s :
  well_formed s -> consistent live s -> consistent live (cleanDeadHandlers live event s).
Proof.
  intros W C. unfold cleanDeadHandlers.
  destruct (map_has event (events s)) eqn:He; simpl; auto.
  destruct (map_has event (handlerMap s)) eqn:Hh; simpl; auto.
  intros e h id. cbn [set_tables events handlerMap].
  destruct (string_dec event e) as [<-|N].
  - rewrite !table_set_eq. intros G L.
    destruct (purge_sub (deadEventIds live (table event (events s)))
                (table event (events s), table event (handlerMap s))) as [_ Sh].
    apply (sub_map_get _ _ _ _ Sh) in G. simpl in G.
    pose proof (C _ _ _ G L) as Ge.
    rewrite purge_fst_kept; auto.
    rewrite In_deadEventIds. intros [w [Iw D]].
    apply In_map_get in Iw.
    + rewrite Iw in Ge. inversion Ge; subst. simpl in D. congruence.
    + eapply wf_eventMap_keys; eauto using table_In.
  - rewrite !table_set_neq by assumption. auto.
Qed.

Lemma consistent_invoke live h args : forall s,
  well_formed s -> consistent live s -> consistent live (invoke h args s).
Proof.
  induction h as [f|c event h IH]; intros s W C; simpl.
  - exact C.
  - apply consistent_off.
    + eapply wf_shrinks; [exact W|].
      eapply shrinks_trans; [apply shrinks_record_call | apply shrinks_invoke].
    + apply IH.
      * eapply wf_shrinks; [exact W | apply shrinks_record_call].
      * exact C.
Qed.

Lemma consistent_emit_loop live event args pending : forall s,
  well_formed s -> consistent live s ->
  consistent live (emit_loop live event args pending s).
Proof.
  induction pending as [|id rest IH]; intros s W C; simpl; auto.
  destruct (map_get id _) as [w|]; auto.
  destruct (deref live w); auto.
  apply IH.
  - eapply wf_shrinks; [exact W | apply shrinks_invoke].
  - now apply consistent_invoke.
Qed.

Lemma consistent_emit live event args s :
  well_formed s -> consistent live s -> consistent live (emit live event args s).
Proof.
  intros W C. unfold emit.
  assert (W1 : well_formed (cleanDeadHandlers live event s))
    by (eapply wf_shrinks; [exact W | apply shrinks_cleanDeadHandlers]).
  pose proof (consistent_cleanDeadHandlers live event s W C) as C1.
  destruct (negb _); auto.
  now apply consistent_emit_loop.
Qed.

Lemma consistent_sweep_fold live l : forall s,
  well_formed s -> consistent live s ->
  consistent live (fold_left (fun acc event => cleanDeadHandlers live event acc) l s).
Proof.
  induction l as [|e l IH]; intros s W C; simpl; auto.
  apply IH.
  - eapply wf_shrinks; [exact W | apply shrinks_cleanDeadHandlers].
  - now apply consistent_cleanDeadHandlers.
Qed.

Lemma consistent_once live event handler s :
  well_formed s -> consistent live s -> consistent live (snd (once event handler s)).
Proof.
  intros W C. unfold once. apply consistent_on.
  - now apply wf_closure_allocated.
  - exact C.
Qed.

Lemma consistent_run live op s :
  well_formed s -> consistent live s -> consistent live (run live op s).
Proof.
  intros W C. destruct op; simpl.
  - now apply consistent_on.
  - now apply consistent_once.
  - now apply consistent_off.
  - now apply consistent_offById.
  - now apply consistent_removeAllListeners.
  - apply consistent_removeAll.
  - now apply consistent_emit.
  - now apply consistent_sweep_fold.
Qed.

(** A handler the collector reclaims does not come back. *)
Lemma consistent_gc live live' s :
  (forall h, live' h = true -> live h = true) ->
  consistent live s -> consistent live' s.
Proof. intros L C e h id G L'. apply C; auto. Qed.

(** ** The call trace *)

Lemma invocations_of_app h l1 l2 :
  invocations_of h (l1 ++ l2) = invocations_of h l1 ++ invocations_of h l2.
Proof. unfold invocations_of. now rewrite filter_app, map_app. Qed.

Lemma invocations_of_others h (args : Args) hs :
  ~ In h hs -> invocations_of h (map (fun x => (x, args)) hs) = [].
Proof.
  induction hs as [|x hs IH]; simpl; auto.
  intros NI. unfold invocations_of in *. simpl.
  destruct (eq_dec x h) as [->|N]; [exfalso; auto|]. apply IH. tauto.
Qed.

Lemma invoked_by_depth h x : In x (invoked_by h) -> depth x <= depth h.
Proof.
  induction h as [f|c e h IH]; simpl.
  - intros [<-|[]]. simpl. lia.
  - intros [<-|I]; simpl; [lia|]. apply IH in I. lia.
Qed.

Lemma invoked_by_self h : In h (invoked_by h).
Proof. destruct h; simpl; auto. Qed.

Lemma invoked_by_inner c e h : ~ In (OnceHandler c e h) (invoked_by h).
Proof. intros I. apply invoked_by_depth in I. simpl in I. lia. Qed.

Lemma invoked_by_trans h x y :
  In x (invoked_by h) -> In y (invoked_by x) -> In y (invoked_by h).
Proof.
  induction h as [f|c e h IH]; simpl.
  - intros [<-|[]]. auto.
  - intros [<-|I] J; simpl in *; auto.
Qed.

Lemma invocations_of_self h (args : Args) :
  invocations_of h (map (fun x => (x, args)) (invoked_by h)) = [args].
Proof.
  destruct h as [f|c e h]; unfold invocations_of; simpl.
  - destruct (eq_dec (Fn f) (Fn f)); [reflexivity | congruence].
  - destruct (eq_dec (OnceHandler c e h) (OnceHandler c e h)); [|congruence].
    simpl. f_equal.
    apply (invocations_of_others (OnceHandler c e h) args (invoked_by h)).
    apply invoked_by_inner.
Qed.

Lemma calls_invoke h args : forall s,
  calls (invoke h args s) = calls s ++ map (fun x => (x, args)) (invoked_by h).
Proof.
  induction h as [f|c e h IH]; intros s; simpl; auto.
  assert (O : forall x t, calls (off e x t) = calls t).
  { intros x t. unfold off. destruct (_ || _); auto.
    destruct (map_get x _); auto. }
  rewrite O, IH. simpl. now rewrite <- app_assoc.
Qed.

Lemma closures_below_invoked n h x :
  closures_below n h -> In x (invoked_by h) -> closures_below n x.
Proof.
  induction h as [f|c e h IH]; simpl.
  - intros _ [<-|[]]. exact I.
  - intros [A B] [<-|J]; simpl; auto.
Qed.

(** A closure about to be created is called by no existing handler. *)
Lemma fresh_closure_not_invoked n e inner h :
  closures_below n h -> ~ In (OnceHandler n e inner) (invoked_by h).
Proof.
  intros C J. apply (closures_below_invoked _ _ _ C) in J. simpl in J. lia.
Qed.

(** ** Emission *)

Lemma reaches_shrinks live event s s' id h :
  shrinks s s' -> reaches live event s' id h -> reaches live event s id h.
Proof.
  intros S [w [G R]]. exists w. split; auto.
  eapply sub_map_get; eauto. apply S.
Qed.

Lemma emit_loop_app live event args l1 : forall l2 s,
  emit_loop live event args (l1 ++ l2) s =
  emit_loop live event args l2 (emit_loop live event args l1 s).
Proof.
  induction l1 as [|id l1 IH]; intros l2 s; simpl; auto.
  destruct (map_get id _) as [w|]; auto.
  destruct (deref live w); auto.
Qed.

(** Subscriptions that do not reach [h] leave its part of the trace alone. *)
Lemma emit_loop_quiet live event args h pending : forall s,
  (forall id, In id pending -> ~ reaches live event s id h) ->
  invocations_of h (calls (emit_loop live event args pending s)) =
  invocations_of h (calls s).
Proof.
  induction pending as [|id rest IH]; intros s Q; simpl; auto.
  assert (Q' : forall t, shrinks s t ->
            forall id', In id' rest -> ~ reaches live event t id' h).
  { intros t S id' I R. apply (Q id'); [simpl; auto|].
    eapply reaches_shrinks; eauto. }
  destruct (map_get id (table event (events s))) as [w|] eqn:G;
    [|apply IH, Q', shrinks_refl].
  unfold deref. destruct (live (target w)) eqn:L; [|apply IH, Q', shrinks_refl].
  rewrite IH by (apply Q', shrinks_invoke).
  rewrite calls_invoke, invocations_of_app, invocations_of_others.
  - apply app_nil_r.
  - intros J. apply (Q id); [simpl; auto|]. exists w. auto.
Qed.

Lemma guarded_off event id h e x s :
  guarded event id h s -> x <> h -> guarded event id h (off e x s).
Proof.
  intros [Ge P] N. unfold off.
  destruct (map_has e (events s)) eqn:He; simpl; [|split; auto].
  destruct (map_has e (handlerMap s)) eqn:Hh; simpl; [|split; auto].
  destruct (map_get x (table e (handlerMap s))) as [id0|] eqn:G0; [|split; auto].
  unfold guarded. cbn [set_tables events handlerMap].
  destruct (string_dec e event) as [->|Ne].
  - rewrite !table_set_eq. split.
    + rewrite map_get_delete_neq; auto. intros ->. auto.
    + intros h' G. apply map_get_delete_Some in G. apply P. tauto.
  - rewrite !table_set_neq by assumption. auto.
Qed.

Lemma guarded_record_call event id h x args s :
  guarded event id h s -> guarded event id h (record_call x args s).
Proof. auto. Qed.

Lemma guarded_invoke event id h x args : forall s,
  guarded event id h s -> ~ In h (invoked_by x) -> guarded event id h (invoke x args s).
Proof.
  induction x as [f|c e x IH]; intros s G NI; simpl; auto.
  simpl in NI. apply guarded_off; [|intros E; apply NI; auto].
  apply IH; [|tauto]. exact G.
Qed.

Lemma guarded_emit_loop live event args id h pending : forall s,
  guarded event id h s ->
  (forall id', In id' pending -> ~ reaches live event s id' h) ->
  guarded event id h (emit_loop live event args pending s).
Proof.
  induction pending as [|id' rest IH]; intros s G Q; simpl; auto.
  assert (Q' : forall t, shrinks s t ->
            forall i, In i rest -> ~ reaches live event t i h).
  { intros t S i I R. apply (Q i); [simpl; auto|].
    eapply reaches_shrinks; eauto. }
  destruct (map_get id' (table event (events s))) as [w|] eqn:Gw;
    [|apply IH; auto using shrinks_refl].
  unfold deref. destruct (live (target w)) eqn:L; [|apply IH; auto using shrinks_refl].
  apply IH; [|apply Q', shrinks_invoke].
  apply guarded_invoke; auto.
  intros J. apply (Q id'); [simpl; auto|]. exists w. auto.
Qed.

(** The same for a reverse entry. *)
Lemma reverse_off event id h e x s :
  map_get h (table event (handlerMap s)) = Some id -> x <> h ->
  map_get h (table event (handlerMap (off e x s))) = Some id.
Proof.
  intros G N. unfold off.
  destruct (map_has e (events s)) eqn:He; simpl; auto.
  destruct (map_has e (handlerMap s)) eqn:Hh; simpl; auto.
  destruct (map_get x (table e (handlerMap s))) as [id0|] eqn:G0; auto.
  cbn [set_tables handlerMap].
  destruct (string_dec e event) as [->|Ne].
  - rewrite table_set_eq, map_get_delete_neq; auto.
  - rewrite table_set_neq by assumption. auto.
Qed.

Lemma reverse_invoke event id h x args : forall s,
  map_get h (table event (handlerMap s)) = Some id -> ~ In h (invoked_by x) ->
  map_get h (table event (handlerMap (invoke x args s))) = Some id.
Proof.
  induction x as [f|c e x IH]; intros s G NI; simpl; auto.
  simpl in NI. apply reverse_off; [|intros E; apply NI; auto].
  apply IH; [|tauto]. exact G.
Qed.

Lemma reverse_emit_loop live event args id h pending : forall s,
  map_get h (table event (handlerMap s)) = Some id ->
  (forall id', In id' pending -> ~ reaches live event s id' h) ->
  map_get h (table event (handlerMap (emit_loop live event args pending s))) = Some id.
Proof.
  induction pending as [|id' rest IH]; intros s G Q; simpl; auto.
  assert (Q' : forall t, shrinks s t ->
            forall i, In i rest -> ~ reaches live event t i h).
  { intros t S i I R. apply (Q i); [simpl; auto|].
    eapply reaches_shrinks; eauto. }
  destruct (map_get id' (table event (events s))) as [w|] eqn:Gw;
    [|apply IH; auto using shrinks_refl].
  unfold deref. destruct (live (target w)) eqn:L; [|apply IH; auto using shrinks_refl].
  apply IH; [|apply Q', shrinks_invoke].
  apply reverse_invoke; auto.
  intros J. apply (Q id'); [simpl; auto|]. exists w. auto.
Qed.

(** The loop of [emit] cut at a subscription that nothing removes before its
    turn: the entries before it, its handler, the entries after it. *)
Lemma emit_loop_split live event args id h pending s :
  NoDup pending -> In id pending ->
  guarded event id h s -> live h = true ->
  (forall id', id' <> id -> ~ reaches live event s id' h) ->
  exists before after,
    pending = before ++ id :: after /\ ~ In id before /\ ~ In id after /\
    guarded event id h (emit_loop live event args before s) /\
    emit_loop live event args pending s =
    emit_loop live event args after
      (invoke h args (emit_loop live event args before s)).
Proof.
  intros ND I G L Q.
  destruct (in_split _ _ I) as [before [after ->]].
  apply NoDup_remove_2 in ND.
  assert (NB : ~ In id before) by (intros J; apply ND, in_or_app; auto).
  assert (NA : ~ In id after) by (intros J; apply ND, in_or_app; auto).
  assert (G1 : guarded event id h (emit_loop live event args before s)).
  { apply guarded_emit_loop; auto. intros id' J. apply Q. congruence. }
  exists before, after. repeat split; auto; try apply G1.
  rewrite emit_loop_app. simpl.
  destruct G1 as [-> _]. unfold deref. cbn [target]. now rewrite L.
Qed.

(** What one emission adds to the calls of [y], when the subscription [id]
    of a live [h] is the only one that may reach [y] or [h]. *)
Lemma emit_loop_one live event args id h y pending s :
  NoDup pending -> In id pending ->
  guarded event id h s -> live h = true ->
  (forall id', id' <> id -> ~ reaches live event s id' h) ->
  (forall id', id' <> id -> ~ reaches live event s id' y) ->
  invocations_of y (calls (emit_loop live event args pending s)) =
  invocations_of y (calls s) ++
  invocations_of y (map (fun x => (x, args)) (invoked_by h)).
Proof.
  intros ND I G L Q Qy.
  destruct (emit_loop_split live event args id h pending s ND I G L Q)
    as [before [after [-> [NB [NA [G1 ->]]]]]].
  rewrite emit_loop_quiet.
  - rewrite calls_invoke, invocations_of_app. f_equal.
    apply emit_loop_quiet. intros id' J. apply Qy. congruence.
  - intros id' J R. apply (Qy id'); [congruence|].
    eapply reaches_shrinks; [|exact R].
    eapply shrinks_trans; [apply shrinks_emit_loop | apply shrinks_invoke].
Qed.

(** [cleanDeadHandlers] and a subscription whose handler is live. *)
Lemma delete_reverse_kept eventId h id hm :
  NoDup (map_keys hm) -> map_get h hm = Some id -> eventId <> id ->
  map_get h (delete_reverse eventId hm) = Some id.
Proof.
  intros ND G N. unfold delete_reverse.
  destruct (find (fun e => Nat.eqb (snd e) eventId) hm) as [[x i]|] eqn:F; auto.
  apply find_some in F. destruct F as [I E]. simpl in E. apply Nat.eqb_eq in E. subst i.
  rewrite map_get_delete_neq; auto.
  intros ->. rewrite (In_map_get _ _ _ ND I) in G. congruence.
Qed.

Lemma purge_snd_kept ids h id : forall t,
  NoDup (map_keys (snd t)) -> map_get h (snd t) = Some id -> ~ In id ids ->
  map_get h (snd (fold_left purge ids t)) = Some id.
Proof.
  induction ids as [|i ids IH]; intros t ND G NI; simpl; auto.
  simpl in NI. apply IH; simpl; try tauto.
  - eapply sub_map_NoDup; [apply delete_reverse_sub | exact ND].
  - apply delete_reverse_kept; auto.
Qed.

Lemma live_not_dead live event s id h :
  well_formed s -> map_get id (table event (events s)) = Some (mkWeakRef h) ->
  live h = true -> ~ In id (deadEventIds live (table event (events s))).
Proof.
  intros W G L. rewrite In_deadEventIds. intros [w [Iw D]].
  apply In_map_get in Iw.
  - rewrite Iw in G. inversion G; subst. simpl in D. congruence.
  - apply table_get_In in G. destruct G. eapply wf_eventMap_keys; eauto.
Qed.

Lemma cleanDeadHandlers_kept live e event s id h :
  well_formed s -> map_get id (table event (events s)) = Some (mkWeakRef h) ->
  live h = true ->
  map_get id (table event (events (cleanDeadHandlers live e s))) = Some (mkWeakRef h).
Proof.
  intros W G L. unfold cleanDeadHandlers.
  destruct (map_has e (events s)) eqn:He; simpl; auto.
  destruct (map_has e (handlerMap s)) eqn:Hh; simpl; auto.
  cbn [set_tables events].
  destruct (string_dec e event) as [->|N].
  - rewrite table_set_eq, purge_fst_kept; auto. eapply live_not_dead; eauto.
  - now rewrite table_set_neq.
Qed.

Lemma guarded_cleanDeadHandlers live e event s id h :
  well_formed s -> guarded event id h s -> live h = true ->
  guarded event id h (cleanDeadHandlers live e s).
Proof.
  intros W [G P] L. split.
  - now apply cleanDeadHandlers_kept.
  - intros h' G'. apply P. eapply sub_map_get; [|exact G'].
    apply shrinks_cleanDeadHandlers.
Qed.

Lemma reverse_cleanDeadHandlers live e event s id h :
  well_formed s ->
  map_get id (table event (events s)) = Some (mkWeakRef h) ->
  map_get h (table event (handlerMap s)) = Some id -> live h = true ->
  map_get h (table event (handlerMap (cleanDeadHandlers live e s))) = Some id.
Proof.
  intros W Ge G L. unfold cleanDeadHandlers.
  destruct (map_has e (events s)) eqn:He; simpl; auto.
  destruct (map_has e (handlerMap s)) eqn:Hh; simpl; auto.
  cbn [set_tables handlerMap].
  destruct (string_dec e event) as [->|N].
  - rewrite table_set_eq. apply purge_snd_kept; simpl; auto.
    + eapply wf_reverse_keys; eauto using table_In.
    + eapply live_not_dead; eauto.
  - now rewrite table_set_neq.
Qed.

Lemma emit_unfold live event args s id w :
  map_get id (table event (events (cleanDeadHandlers live event s))) = Some w ->
  emit live event args s =
  emit_loop live event args
    (map_keys (table event (events (cleanDeadHandlers live event s))))
    (cleanDeadHandlers live event s).
Proof.
  intros G. unfold emit. now rewrite (table_get_has _ _ _ _ G).
Qed.

Lemma emit_one live event args id h y s :
  well_formed s -> guarded event id h s -> live h = true ->
  (forall id', id' <> id -> ~ reaches live event s id' h) ->
  (forall id', id' <> id -> ~ reaches live event s id' y) ->
  invocations_of y (calls (emit live event args s)) =
  invocations_of y (calls s) ++
  invocations_of y (map (fun x => (x, args)) (invoked_by h)).
Proof.
  intros W G L Q Qy.
  pose proof (shrinks_cleanDeadHandlers live event s) as S.
  pose proof (guarded_cleanDeadHandlers live event event s id h W G L) as G1.
  pose proof (wf_shrinks _ _ W S) as W1.
  rewrite (emit_unfold _ _ _ _ id (mkWeakRef h)) by apply G1.
  assert (C : calls (cleanDeadHandlers live event s) = calls s).
  { unfold cleanDeadHandlers. destruct (_ || _); auto. }
  rewrite <- C.
  destruct G1 as [Ge P]. pose proof (table_get_In _ _ _ _ Ge) as [Irow Ient].
  apply emit_loop_one with (id := id); auto.
  - eapply wf_eventMap_keys; eauto.
  - eapply In_map_keys; eauto.
  - split; auto.
  - intros id' N R. apply (Q id' N). eapply reaches_shrinks; eauto.
  - intros id' N R. apply (Qy id' N). eapply reaches_shrinks; eauto.
Qed.

Lemma cleanDeadHandlers_calls live event s : calls (cleanDeadHandlers live event s) = calls s.
Proof. unfold cleanDeadHandlers. destruct (_ || _); auto. Qed.

(** [cleanDeadHandlers] deletes a subscription whose handler is reclaimed. *)
Lemma cleanDeadHandlers_purged live event s id w :
  map_has event (handlerMap s) = true ->
  map_get id (table event (events s)) = Some w -> live (target w) = false ->
  map_get id (table event (events (cleanDeadHandlers live event s))) = None.
Proof.
  intros Hh G D. unfold cleanDeadHandlers.
  rewrite (table_get_has _ _ _ _ G), Hh. cbn [negb orb set_tables events].
  rewrite table_set_eq. apply purge_fst_deleted.
  apply In_deadEventIds. exists w. split; auto. now apply map_get_In.
Qed.


(** ** Emission with any handlers: small runs *)

(** A subscriber that throws ends the emission: the later one is not
    called. *)
Example run_throwing_subscriber :
  let prog := fun f (_ : Args) => if Nat.eqb f 1 then mkBody [] true else plain_body in
  let s := snd (on "e" (Fn 0) (snd (on "e" (Fn 1) empty))) in
  let r := emitX 9 prog all_live "e" [7] (start s) in
  snd r = Thrown /\ calls (pool (fst r)) = [(Fn 1, [7])].
Proof. split; reflexivity. Qed.

(** A handler that subscribes another one during the emission: the new
    subscriber is called by the same emission. *)
Example run_subscribing_subscriber :
  let prog := fun f (_ : Args) =>
                if Nat.eqb f 2 then mkBody [On "e" (Fn 3)] false else plain_body in
  let s := snd (on "e" (Fn 2) empty) in
  let r := emitX 9 prog all_live "e" [7] (start s) in
  snd r = Returned /\ calls (pool (fst r)) = [(Fn 2, [7]); (Fn 3, [7])].
Proof. split; reflexivity. Qed.

(** A handler that calls [removeAll()]: the tables are gone, and the loop
    still calls the subscriber that came after it. *)
Example run_removing_subscriber :
  let prog := fun f (_ : Args) =>
                if Nat.eqb f 4 then mkBody [RemoveAll] false else plain_body in
  let s := snd (on "e" (Fn 0) (snd (on "e" (Fn 4) empty))) in
  let r := emitX 9 prog all_live "e" [7] (start s) in
  snd r = Returned /\ events (pool (fst r)) = [] /\
  calls (pool (fst r)) = [(Fn 4, [7]); (Fn 0, [7])].
Proof. repeat split. Qed.

(** A handler that emits its own event never returns. *)
Example run_reentrant_emit :
  let prog := fun f (_ : Args) => mkBody [Emit "e" [1]] false in
  let s := snd (on "e" (Fn 0) empty) in
  snd (emitX 20 prog all_live "e" [1] (start s)) = OutOfFuel.
Proof. reflexivity. Qed.

(** ** With plain handlers the general emission is [emit] *)

Lemma lift_lift f g x : lift f (lift g x) = lift (fun s => f (g s)) x.
Proof. reflexivity. Qed.

Lemma lift_id x : lift (fun s => s) x = x.
Proof. destruct x; reflexivity. Qed.

Lemma plain_inner prog c e h : plain prog (OnceHandler c e h) -> plain prog h.
Proof. intros P f I. apply P. simpl. auto. Qed.

Lemma invokeX_plain prog live args h : forall fuel x,
  plain prog h -> depth h < fuel ->
  invokeX fuel prog live h args x = (lift (invoke h args) x, Returned).
Proof.
  induction h as [f|c e h IH]; intros fuel x P D;
    (destruct fuel as [|n]; [lia|]); cbn [invokeX].
  - rewrite (P f (or_introl eq_refl) args). reflexivity.
  - rewrite IH; [reflexivity | eapply plain_inner; eauto | simpl in D; lia].
Qed.

Lemma unseen_nil known obj :
  (forall k, In k (map_keys obj) -> In k known) -> unseen known obj = [].
Proof.
  intros K. unfold unseen.
  destruct (filter _ (map_keys obj)) as [|k l] eqn:F; auto.
  assert (I : In k (filter (fun k => negb (existsb (Nat.eqb k) known)) (map_keys obj)))
    by (rewrite F; simpl; auto).
  apply filter_In in I. destruct I as [I N].
  assert (X : existsb (Nat.eqb k) known = true).
  { apply existsb_exists. exists k. split; [auto | apply Nat.eqb_refl]. }
  rewrite X in N. discriminate.
Qed.

Lemma unseen_all obj : unseen [] obj = map_keys obj.
Proof.
  unfold unseen. simpl. apply forallb_filter_id. apply forallb_forall. reflexivity.
Qed.

Lemma sub_map_keys {K V : Type} `{EqDec K} (m' m : JsMap K V) k :
  sub_map m' m -> In k (map_keys m') -> In k (map_keys m).
Proof.
  intros S I. unfold map_keys in *. apply in_map_iff in I.
  destruct I as [[k' v] [E I]]. simpl in E. subst k'.
  apply in_map_iff. exists (k, v). split; auto. eapply sub_map_In; eauto.
Qed.

(** The loop, once it has taken the keys of a [Map] that is still the row
    of the event and whose live handlers are plain. *)
Lemma loopX_plain prog live event args n0 d : forall pending fuel known x,
  nth_error (retired_of event x) n0 = None ->
  (forall k, In k (map_keys (table event (events (pool x)))) -> In k known) ->
  (forall id w, map_get id (table event (events (pool x))) = Some w ->
                live (target w) = true ->
                plain prog (target w) /\ depth (target w) < d) ->
  length pending + d < fuel ->
  loopX fuel prog live event args n0 known pending x =
  (lift (emit_loop live event args pending) x, Returned).
Proof.
  induction pending as [|id rest IH]; intros fuel known x At K P F;
    (destruct fuel as [|n]; [lia|]); cbn [loopX];
    unfold object; rewrite At, (unseen_nil _ _ K), !app_nil_r.
  - cbn [emit_loop]. now rewrite lift_id.
  - change (lift (emit_loop live event args (id :: rest)) x)
      with (mkXPool (emit_loop live event args (id :: rest) (pool x)) (retired x)).
    cbn [emit_loop]. simpl in F.
    destruct (map_get id (table event (events (pool x)))) as [w|] eqn:G.
    + unfold deref. destruct (live (target w)) eqn:L.
      * destruct (P id w G L) as [Pw Dw].
        rewrite invokeX_plain by (auto; lia).
        rewrite IH; [reflexivity | exact At | | | lia].
        -- intros k I. apply K. eapply sub_map_keys; [|exact I].
           apply (shrinks_events _ _ (shrinks_invoke (target w) args (pool x))).
        -- intros id' w' G' L'. apply (P id'); auto.
           eapply sub_map_get; [|exact G'].
           apply (shrinks_events _ _ (shrinks_invoke (target w) args (pool x))).
      * apply IH; auto; lia.
    + apply IH; auto; lia.
Qed.

Lemma loopX_first prog live event args n0 fuel x :
  loopX fuel prog live event args n0 [] [] x =
  loopX fuel prog live event args n0
    (map_keys (object event n0 x)) (map_keys (object event n0 x)) x.
Proof.
  destruct fuel as [|n]; [reflexivity|]. cbn [loopX].
  rewrite unseen_all, (unseen_nil (map_keys (object event n0 x))) by auto.
  now rewrite !app_nil_r.
Qed.

Lemma nth_error_length {A : Type} (l : list A) : nth_error l (length l) = None.
Proof. apply nth_error_None. lia. Qed.

Lemma sub_map_length {K V : Type} `{EqDec K} (m' m : JsMap K V) :
  sub_map m' m -> length m' <= length m.
Proof.
  induction 1; auto. etransitivity; [|eassumption].
  rewrite map_delete_filter. apply filter_length_le.
Qed.

Lemma depth_le_max (m : list (symbol * WeakRef)) id w :
  In (id, w) m -> depth (target w) <= list_max (map (fun e => depth (target (snd e))) m).
Proof.
  intros I.
  assert (F : Forall (fun k => k <= list_max (map (fun e => depth (target (snd e))) m))
                     (map (fun e => depth (target (snd e))) m))
    by (apply list_max_le; lia).
  rewrite Forall_forall in F. apply F.
  apply in_map_iff. exists (id, w). auto.
Qed.

Lemma fuel_bound_shrinks event s s' :
  shrinks s s' -> fuel_bound event s' <= fuel_bound event s.
Proof.
  intros S. unfold fuel_bound.
  pose proof (sub_map_length _ _ (shrinks_events _ _ S event)) as L.
  assert (M : list_max (map (fun e => depth (target (snd e))) (table event (events s'))) <=
              list_max (map (fun e => depth (target (snd e))) (table event (events s)))).
  { apply list_max_le. apply Forall_forall. intros k I.
    apply in_map_iff in I. destruct I as [[id w] [<- I]]. simpl.
    apply (depth_le_max _ id). eapply sub_map_In; [apply S | exact I]. }
  lia.
Qed.

(** When the handlers that the resolving subscriptions of [event] refer to
    are plain, [emitX] returns normally, given the fuel, and does what
    [emit] does. *)
Lemma emitX_plain fuel prog live event args x :
  (forall id w, map_get id (table event (events (pool x))) = Some w ->
                live (target w) = true -> plain prog (target w)) ->
  fuel_bound event (pool x) <= fuel ->
  emitX fuel prog live event args x = (lift (emit live event args) x, Returned).
Proof.
  intros P F.
  pose proof (shrinks_cleanDeadHandlers live event (pool x)) as Sh.
  change (lift (emit live event args) x)
    with (mkXPool (emit live event args (pool x)) (retired x)).
  unfold emitX, emit_with, emit. cbn [lift pool].
  destruct (negb (map_has event (events (cleanDeadHandlers live event (pool x))))); auto.
  rewrite loopX_first. unfold object. rewrite nth_error_length.
  cbn [lift pool].
  rewrite (loopX_plain prog live event args _
             (S (list_max (map (fun e => depth (target (snd e)))
                               (table event (events (pool x))))))).
  - reflexivity.
  - apply nth_error_length.
  - auto.
  - cbn [lift pool]. intros id w G L.
    pose proof (sub_map_get _ _ _ _ (shrinks_events _ _ Sh event) G) as G0.
    split; [eauto|]. apply Nat.lt_succ_r. apply (depth_le_max _ id).
    now apply map_get_In.
  - unfold fuel_bound in F. unfold map_keys. rewrite length_map.
    pose proof (sub_map_length _ _ (shrinks_events _ _ Sh event)). cbn [lift pool]. lia.
Qed.

Lemma emitsX_plain fuel prog event es : forall x,
  (forall id w, map_get id (table event (events (pool x))) = Some w ->
                plain prog (target w)) ->
  fuel_bound event (pool x) <= fuel ->
  emitsX fuel prog event es x =
  (lift (emits event es) x, map (fun _ => Returned) es).
Proof.
  induction es as [|[live args] es IH]; intros x P F; cbn [emitsX emits map].
  - now rewrite lift_id.
  - rewrite emitX_plain by eauto. cbn [fst snd].
    pose proof (shrinks_emit live event args (pool x)) as S.
    rewrite IH.
    + reflexivity.
    + cbn [lift pool]. intros id w G. apply (P id).
      eapply sub_map_get; [apply S | exact G].
    + cbn [lift pool]. etransitivity; [apply fuel_bound_shrinks; exact S | exact F].
Qed.

(** ** Subscribing, then emitting *)

Lemma guarded_on event handler s :
  well_formed s -> guarded event (nextSymbol s) handler (snd (on event handler s)).
Proof.
  intros W. unfold guarded. rewrite on_events, on_handlerMap, !table_set_eq. split.
  - apply map_get_set_eq.
  - intros h G. destruct (Handler_eq_dec handler h) as [|N]; auto.
    rewrite map_get_set_neq in G by assumption.
    apply table_get_In in G. destruct G as [Ir Ih].
    pose proof (wf_reverse_ids _ W _ _ _ _ Ir Ih). lia.
Qed.

Lemma on_get_other event handler s id :
  id <> nextSymbol s ->
  map_get id (table event (events (snd (on event handler s)))) =
  map_get id (table event (events s)).
Proof.
  intros N. rewrite on_events, table_set_eq. apply map_get_set_neq. auto.
Qed.

Lemma reaches_on_other live event handler s id h :
  id <> nextSymbol s ->
  reaches live event (snd (on event handler s)) id h -> reaches live event s id h.
Proof.
  intros N [w [G R]]. exists w. split; auto. now rewrite on_get_other in G.
Qed.

(** With plain handlers: among those that the resolving subscriptions of
    [event] lead to, only the new subscription calls [handler]. *)
Lemma on_emit_once live s event handler args :
  well_formed s -> live handler = true ->
  (forall id, ~ reaches live event s id handler) ->
  invocations_of handler (calls (emit live event args (snd (on event handler s)))) =
  invocations_of handler (calls s) ++ [args].
Proof.
  intros W L Q.
  rewrite (emit_one live event args (nextSymbol s) handler handler).
  - now rewrite invocations_of_self, on_calls.
  - now apply wf_on.
  - now apply guarded_on.
  - exact L.
  - intros id N R. apply (Q id). eapply reaches_on_other; eauto.
  - intros id N R. apply (Q id). eapply reaches_on_other; eauto.
Qed.

Lemma on_plain prog live event handler s :
  plain prog handler ->
  (forall id w, map_get id (table event (events s)) = Some w ->
                live (target w) = true -> plain prog (target w)) ->
  forall id w,
    map_get id (table event (events (snd (on event handler s)))) = Some w ->
    live (target w) = true -> plain prog (target w).
Proof.
  intros Ph P id w G L. rewrite on_events, table_set_eq in G.
  destruct (Nat.eq_dec (nextSymbol s) id) as [<-|N].
  - rewrite map_get_set_eq in G. inversion G; subst w. exact Ph.
  - rewrite map_get_set_neq in G by assumption. eauto.
Qed.

(** C1, as amended: in a well-formed registry where no live subscription of
    [event] already leads to [handler], and where [handler] and the handlers
    of the live subscriptions of [event] return normally and do not call the
    registry, [on(event, handler)] followed at once by [emit(event, args)]
    returns normally and calls [handler] exactly once, with [args]. *)
Theorem on_then_emit_invokes_once fuel prog live s rt event handler args :
  well_formed s -> live handler = true ->
  (forall id, ~ reaches live event s id handler) ->
  plain prog handler ->
  (forall id w, map_get id (table event (events s)) = Some w ->
                live (target w) = true -> plain prog (target w)) ->
  fuel_bound event (snd (on event handler s)) <= fuel ->
  let r := emitX fuel prog live event args (mkXPool (snd (on event handler s)) rt) in
  snd r = Returned /\
  invocations_of handler (calls (pool (fst r))) =
  invocations_of handler (calls s) ++ [args].
Proof.
  intros W L Q Ph P F r. unfold r.
  rewrite emitX_plain; [| now apply on_plain | exact F].
  split; [reflexivity|]. now apply on_emit_once.
Qed.

Lemma on_then_emit_invokes_once_witness :
  let prog := fun (_ : nat) (_ : Args) => plain_body in
  let s := snd (on "e" (Fn 1) empty) in
  let r := emitX 9 prog all_live "e" [7] (mkXPool (snd (on "e" (Fn 0) s)) []) in
  snd r = Returned /\
  invocations_of (Fn 0) (calls (pool (fst r))) = invocations_of (Fn 0) (calls s) ++ [[7]].
Proof.
  intros prog s.
  apply (on_then_emit_invokes_once 9 prog all_live s [] "e" (Fn 0) [7]).
  - apply wf_on, wf_empty.
  - reflexivity.
  - intros id [w [G [_ I]]]. simpl in G.
    destruct (eq_dec id 0); [|discriminate].
    inversion G; subst. simpl in I. destruct I as [E|[]]. discriminate.
  - intros f _ a. reflexivity.
  - intros id w _ _ f _ a. reflexivity.
  - vm_compute. lia.
Defined.

(** C1 as worded fails when the handler is subscribed already: [on] adds a
    second subscription entry, and the emission calls the handler twice. *)
Lemma on_then_emit_counterexample :
  let s := snd (on "e" (Fn 0) empty) in
  let s' := emit all_live "e" [7] (snd (on "e" (Fn 0) s)) in
  invocations_of (Fn 0) (calls s') = [[7]; [7]] /\
  invocations_of (Fn 0) (calls s') <> invocations_of (Fn 0) (calls s) ++ [[7]].
Proof. split; [reflexivity | discriminate]. Qed.

(** ** What the class keeps alive *)

Lemma strongly_held_row event hm handler rows :
  In (event, hm) rows -> In handler (map_keys hm) ->
  In handler (flat_map (fun row : string * list (Handler * nat) => map_keys (snd row)) rows).
Proof. intros I J. apply in_flat_map. exists (event, hm). auto. Qed.

(** C2 fails on the code: after [on(event, handler)] the handler is a key of
    the reverse [Map], which holds it strongly, whatever the caller drops. *)
Theorem on_holds_handler_strongly event handler s :
  In handler (strongly_held (snd (on event handler s))).
Proof.
  unfold strongly_held. rewrite on_handlerMap.
  apply strongly_held_row with (event := event)
    (hm := map_set handler (nextSymbol s) (table event (handlerMap s))).
  - apply map_get_In, map_get_set_eq.
  - apply (In_map_keys handler (nextSymbol s)). apply map_get_In, map_get_set_eq.
Qed.

(** ** Invariant I1 *)

Lemma reachable_invariant live s :
  reachable live s -> well_formed s /\ allocated s /\ consistent live s.
Proof.
  induction 1 as [live|live live' s R [W [A C]] L|live op s R [W [A C]] Ad].
  - auto using wf_empty, allocated_empty, consistent_empty.
  - eauto using consistent_gc.
  - auto using wf_run, allocated_run, consistent_run.
Qed.

(** The subscription-to-reverse half of I1. *)

Lemma forward_on event handler s :
  well_formed s -> forward s ->
  (forall id, map_get id (table event (events s)) <> Some (mkWeakRef handler)) ->
  forward (snd (on event handler s)).
Proof.
  intros W Fw Fr e id h. rewrite on_events, on_handlerMap.
  destruct (string_dec event e) as [<-|N].
  - rewrite !table_set_eq. destruct (Nat.eq_dec (nextSymbol s) id) as [<-|Ni].
    + rewrite map_get_set_eq. intros E. inversion E; subst h. apply map_get_set_eq.
    + rewrite map_get_set_neq by assumption. intros G.
      rewrite map_get_set_neq; [now apply Fw|].
      intros ->. exact (Fr id G).
  - rewrite !table_set_neq by assumption. apply Fw.
Qed.

Lemma forward_once event handler s :
  well_formed s -> allocated s -> forward s -> forward (snd (once event handler s)).
Proof.
  intros W A Fw. unfold once. apply forward_on.
  - now apply wf_closure_allocated.
  - exact Fw.
  - cbn [events]. intros id G. apply table_get_In in G. destruct G as [Ir Ie].
    pose proof (al_events _ A _ _ _ _ Ir Ie) as C. simpl in C. lia.
Qed.

Lemma forward_off event handler s : forward s -> forward (off event handler s).
Proof.
  intros Fw. unfold off.
  destruct (negb (map_has event (events s)) || negb (map_has event (handlerMap s))); auto.
  destruct (map_get handler (table event (handlerMap s))) as [id0|] eqn:G0; auto.
  intros e id h. cbn [set_tables events handlerMap].
  destruct (string_dec event e) as [<-|N].
  - rewrite !table_set_eq. intros G. apply map_get_delete_Some in G.
    destruct G as [G Ni]. pose proof (Fw _ _ _ G) as Gh.
    rewrite map_get_delete_neq; auto. intros <-. congruence.
  - rewrite !table_set_neq by assumption. apply Fw.
Qed.

Lemma forward_offById live eventId s :
  well_formed s -> forward s -> forward (offById live eventId s).
Proof.
  intros W Fw. unfold offById.
  destruct (owner eventId (events s)) as [[event em]|] eqn:O; auto.
  apply owner_Some in O. destruct O as [I _].
  pose proof (In_table _ _ _ (wf_events_keys _ W) I) as T. subst em.
  intros e id h. cbn [set_tables events handlerMap].
  destruct (string_dec event e) as [<-|N].
  - rewrite table_set_eq. intros G. apply map_get_delete_Some in G.
    destruct G as [G Ni]. pose proof (Fw _ _ _ G) as Gh.
    destruct (map_get eventId (table event (events s))) as [[h0]|] eqn:G0; auto.
    unfold deref. cbn [target]. destruct (live h0); auto.
    destruct (map_get event (handlerMap s)) as [hm|] eqn:Gm; auto.
    rewrite table_set_eq.
    assert (Th : table event (handlerMap s) = hm) by (unfold table; now rewrite Gm).
    rewrite <- Th. rewrite map_get_delete_neq; auto.
    intros <-. pose proof (Fw _ _ _ G0). congruence.
  - rewrite table_set_neq by assumption. intros G. pose proof (Fw _ _ _ G) as Gh.
    destruct (match map_get eventId (table event (events s)) with
              | Some w => deref live w | None => None end); auto.
    destruct (map_get event (handlerMap s)); auto.
    now rewrite table_set_neq.
Qed.

Lemma forward_removeAllListeners event s :
  forward s -> forward (removeAllListeners event s).
Proof.
  intros Fw e id h. cbn [removeAllListeners set_tables events handlerMap].
  destruct (string_dec event e) as [<-|N].
  - rewrite table_delete_eq. discriminate.
  - rewrite !table_delete_neq by assumption. apply Fw.
Qed.

Lemma forward_cleanDeadHandlers live event s :
  well_formed s -> forward s -> forward (cleanDeadHandlers live event s).
Proof.
  intros W Fw. unfold cleanDeadHandlers.
  destruct (map_has event (events s)) eqn:He; cbn [negb orb]; auto.
  destruct (map_has event (handlerMap s)) eqn:Hh; cbn [negb orb]; auto.
  intros e id h. cbn [set_tables events handlerMap].
  destruct (string_dec event e) as [<-|N].
  - rewrite !table_set_eq. intros G.
    destruct (in_dec Nat.eq_dec id (deadEventIds live (table event (events s))))
      as [D|ND].
    + rewrite purge_fst_deleted in G by assumption. discriminate.
    + rewrite purge_fst_kept in G by assumption. simpl in G.
      apply purge_snd_kept; simpl; auto.
      eapply wf_reverse_keys; eauto using table_In.
  - rewrite !table_set_neq by assumption. apply Fw.
Qed.

Lemma forward_invoke h args : forall s, forward s -> forward (invoke h args s).
Proof.
  induction h as [f|c e h IH]; intros s Fw; simpl; auto.
  apply forward_off. apply IH. exact Fw.
Qed.

Lemma forward_emit_loop live event args pending : forall s,
  forward s -> forward (emit_loop live event args pending s).
Proof.
  induction pending as [|id rest IH]; intros s Fw; simpl; auto.
  destruct (map_get id _) as [w|]; auto.
  destruct (deref live w); auto using forward_invoke.
Qed.

Lemma forward_sweep_fold live l : forall s,
  well_formed s -> forward s ->
  forward (fold_left (fun acc e => cleanDeadHandlers live e acc) l s).
Proof.
  induction l as [|e l IH]; intros s W Fw; simpl; auto.
  apply IH.
  - eapply wf_shrinks; [exact W | apply shrinks_cleanDeadHandlers].
  - now apply forward_cleanDeadHandlers.
Qed.

Lemma forward_run live op s :
  well_formed s -> allocated s -> first_subscription s op -> forward s ->
  forward (run live op s).
Proof.
  intros W A Fs Fw. destruct op; cbn [run].
  - now apply forward_on.
  - now apply forward_once.
  - now apply forward_off.
  - now apply forward_offById.
  - now apply forward_removeAllListeners.
  - intros e id h. discriminate.
  - unfold emit.
    pose proof (forward_cleanDeadHandlers live event s W Fw).
    destruct (negb _); auto. now apply forward_emit_loop.
  - now apply forward_sweep_fold.
Qed.

Lemma reachable_fresh_reachable live s : reachable_fresh live s -> reachable live s.
Proof.
  induction 1; [apply reachable_empty | eapply reachable_gc; eauto
               | now apply reachable_run].
Qed.

Lemma reachable_fresh_forward live s : reachable_fresh live s -> forward s.
Proof.
  induction 1 as [live|live live' s R IH L|live op s R IH Ad Fs].
  - intros e id h. discriminate.
  - exact IH.
  - destruct (reachable_invariant live s (reachable_fresh_reachable live s R))
      as [W [A _]].
    now apply forward_run.
Qed.

(** C3, as amended: as long as [on] is not called with a handler that the
    event's subscription table already refers to, in every state reached from
    the empty registry by public operations (and garbage collections), for
    every event and every live handler: a symbol is in the subscription table
    of the event with a reference to the handler if and only if the reverse
    table of the event maps the handler to that symbol. *)
Theorem I1_without_resubscription live s event id handler :
  reachable_fresh live s -> live handler = true ->
  (map_get id (table event (events s)) = Some (mkWeakRef handler) <->
   map_get handler (table event (handlerMap s)) = Some id).
Proof.
  intros R L. split.
  - apply (reachable_fresh_forward live s R).
  - intros G.
    destruct (reachable_invariant live s (reachable_fresh_reachable live s R))
      as [_ [_ C]].
    now apply C.
Qed.

Lemma I1_without_resubscription_witness :
  let s := run all_live (Off "e" (Fn 0))
             (run all_live (On "e" (Fn 1)) (run all_live (On "e" (Fn 0)) empty)) in
  map_get (Fn 1) (table "e" (handlerMap s)) = Some 1 /\
  map_get 1 (table "e" (events s)) = Some (mkWeakRef (Fn 1)).
Proof.
  intros s.
  assert (R : reachable_fresh all_live s).
  { apply reachable_fresh_run; [|exact I|exact I].
    apply reachable_fresh_run; [|exact I|].
    - apply reachable_fresh_run; [apply reachable_fresh_empty|exact I|].
      intros id. discriminate.
    - intros id. simpl. destruct (eq_dec id 0); discriminate. }
  destruct (I1_without_resubscription all_live s "e" 1 (Fn 1) R eq_refl) as [A B].
  split; [apply A; reflexivity | apply B; reflexivity].
Defined.

(** C3 as worded fails after a second [on] of the same handler: the first
    subscription is in the table with a live handler, and the reverse table
    maps the handler to the second symbol. *)
Lemma I1_counterexample :
  let s := run all_live (On "e" (Fn 0)) (run all_live (On "e" (Fn 0)) empty) in
  reachable all_live s /\ ~ I1 all_live s.
Proof.
  split.
  - repeat (apply reachable_run; [|exact I]). apply reachable_empty.
  - intros C. destruct (C "e" 0 (Fn 0)) as [F _].
    specialize (F (conj eq_refl eq_refl)). discriminate.
Qed.

(** ** Removal by symbol and by handler *)

Lemma owner_found eventId : forall evs event em,
  NoDup (map_keys evs) -> In (event, em) evs -> map_has eventId em = true ->
  (forall e m, In (e, m) evs -> e <> event -> map_has eventId m = false) ->
  owner eventId evs = Some (event, em).
Proof.
  induction evs as [|[e m] evs IH]; intros event em ND I Hm O; [contradiction|].
  simpl in *. inversion ND as [|? ? NI ND']; subst.
  destruct I as [E|I].
  - inversion E; subst. now rewrite Hm.
  - destruct (string_dec e event) as [->|N].
    + exfalso. apply NI. eapply In_map_keys; eauto.
    + rewrite (O e m) by auto. apply IH; auto. intros e' m' I'. apply O. auto.
Qed.

Lemma on_owner event handler s :
  well_formed s ->
  owner (nextSymbol s) (events (snd (on event handler s))) =
  Some (event, table event (events (snd (on event handler s)))).
Proof.
  intros W. pose proof (wf_on event handler s W) as W'.
  apply owner_found.
  - apply W'.
  - apply table_In. rewrite on_events. apply map_has_true.
    eexists. apply map_get_set_eq.
  - rewrite on_events, table_set_eq. apply map_has_true.
    eexists. apply map_get_set_eq.
  - intros e m I N. rewrite on_events in I. apply In_map_set in I.
    destruct I as [[-> _]|I]; [congruence|].
    apply map_has_false. destruct (map_get (nextSymbol s) m) eqn:G; auto.
    apply map_get_In in G. pose proof (wf_event_ids _ W _ _ _ _ I G). lia.
Qed.

(** C4: on a well-formed registry, [offById] with the symbol [on(event,
    handler)] has just returned leaves the same state as [off(event,
    handler)]. *)
Theorem offById_same_as_off live s event handler :
  well_formed s -> live handler = true ->
  offById live (fst (on event handler s)) (snd (on event handler s)) =
  off event handler (snd (on event handler s)).
Proof.
  intros W L. rewrite on_fst. unfold offById. rewrite (on_owner _ _ _ W).
  unfold off.
  assert (Ge : map_get (nextSymbol s) (table event (events (snd (on event handler s))))
               = Some (mkWeakRef handler))
    by (rewrite on_events, table_set_eq; apply map_get_set_eq).
  assert (Gh : map_get handler (table event (handlerMap (snd (on event handler s))))
               = Some (nextSymbol s))
    by (rewrite on_handlerMap, table_set_eq; apply map_get_set_eq).
  rewrite (table_get_has _ _ _ _ Ge), (table_get_has _ _ _ _ Gh). cbn [negb orb].
  rewrite Ge, Gh. unfold deref. cbn [target]. rewrite L.
  pose proof (table_get_has _ _ _ _ Gh) as Hh. apply map_has_true in Hh.
  destruct Hh as [hm G]. rewrite G. unfold table at 3. now rewrite G.
Qed.

Lemma offById_same_as_off_witness :
  let s := snd (on "a" (Fn 1) empty) in
  offById all_live (fst (on "e" (Fn 0) s)) (snd (on "e" (Fn 0) s)) =
  off "e" (Fn 0) (snd (on "e" (Fn 0) s)).
Proof.
  apply (offById_same_as_off all_live (snd (on "a" (Fn 1) empty)) "e" (Fn 0)).
  - apply wf_on, wf_empty.
  - reflexivity.
Defined.

(** ** Removing what is not there *)

(** C7: [off] for an event without tables or a handler without recorded
    subscription, and [offById] for a symbol no subscription table holds,
    return normally and leave the whole state as it was. *)
Theorem unknown_removal_is_noop live s op : unknown s op -> run live op s = s.
Proof.
  destruct op; simpl; try contradiction.
  - unfold off. intros [E | [E | E]]; rewrite E; simpl; auto.
    + now rewrite orb_true_r.
    + now destruct (_ || _).
  - intros U. unfold offById. apply owner_None in U. now rewrite U.
Qed.

Lemma unknown_removal_is_noop_witness :
  let s := snd (on "e" (Fn 0) empty) in
  run all_live (Off "e" (Fn 1)) s = s /\
  run all_live (Off "x" (Fn 0)) s = s /\
  run all_live (OffById 5) s = s.
Proof.
  split; [|split].
  - apply (unknown_removal_is_noop all_live _ (Off "e" (Fn 1))).
    right. right. reflexivity.
  - apply (unknown_removal_is_noop all_live _ (Off "x" (Fn 0))).
    left. reflexivity.
  - apply (unknown_removal_is_noop all_live _ (OffById 5)).
    intros event em [E|[]]. inversion E. reflexivity.
Defined.

(** ** The rows of the two fields *)

Lemma offById_keys live eventId s :
  map_keys (events (offById live eventId s)) = map_keys (events s) /\
  map_keys (handlerMap (offById live eventId s)) = map_keys (handlerMap s).
Proof.
  unfold offById.
  destruct (owner eventId (events s)) as [[event em]|] eqn:O; auto.
  apply owner_Some in O. destruct O as [I _].
  cbn [set_tables events handlerMap]. split.
  - apply map_keys_set_present. eapply In_map_keys; eauto.
  - destruct (match map_get eventId em with Some w => deref live w | None => None end);
      auto.
    destruct (map_get event (handlerMap s)) eqn:G; auto.
    apply map_keys_set_present. apply map_get_In in G. eapply In_map_keys; eauto.
Qed.

Lemma has_of_keys {V : Type} (m m' : JsMap string V) event :
  map_keys m' = map_keys m -> map_has event m' = map_has event m.
Proof. intros E. apply eq_true_iff_eq. now rewrite !map_has_keys, E. Qed.

Lemma on_keeps_rows event handler s e :
  (map_has e (events s) = true -> map_has e (events (snd (on event handler s))) = true) /\
  (map_has e (handlerMap s) = true ->
   map_has e (handlerMap (snd (on event handler s))) = true).
Proof. rewrite on_events, on_handlerMap. split; apply map_has_set. Qed.

Lemma map_has_delete_neq {V : Type} (m : JsMap string V) e e' :
  e <> e' -> map_has e' (map_delete e m) = map_has e' m.
Proof. intros N. unfold map_has. now rewrite map_get_delete_neq. Qed.

(** C9, as amended: only [removeAllListeners(event)] and [removeAll] destroy
    the rows of an event; every other operation leaves a row that was present
    in place, emptied or not. *)
Theorem rows_destroyed_only_by_bulk_removal live op s event :
  (map_has event (events s) = true /\
   map_has event (events (run live op s)) = false) \/
  (map_has event (handlerMap s) = true /\
   map_has event (handlerMap (run live op s)) = false) ->
  op = RemoveAllListeners event \/ op = RemoveAll.
Proof.
  assert (K : forall s', shrinks s s' ->
            map_has event (events s') = map_has event (events s) /\
            map_has event (handlerMap s') = map_has event (handlerMap s)).
  { intros s' S. split; apply has_of_keys, S. }
  assert (Done : forall s',
            map_has event (events s') = map_has event (events s) /\
            map_has event (handlerMap s') = map_has event (handlerMap s) ->
            (map_has event (events s) = true /\ map_has event (events s') = false) \/
            (map_has event (handlerMap s) = true /\
             map_has event (handlerMap s') = false) -> False).
  { intros s' [A B] [[C D]|[C D]]; congruence. }
  destruct op; cbn [run]; intros Hd; auto.
  - exfalso. destruct (on_keeps_rows event0 handler s event) as [A B].
    destruct Hd as [[C D]|[C D]]; [rewrite (A C) in D | rewrite (B C) in D];
      discriminate.
  - exfalso. unfold once in Hd.
    match type of Hd with context [on event0 ?h ?t] =>
      destruct (on_keeps_rows event0 h t event) as [A B] end.
    destruct Hd as [[C D]|[C D]]; [rewrite (A C) in D | rewrite (B C) in D];
      discriminate.
  - exfalso. eapply Done; [|exact Hd]. apply K, shrinks_off.
  - exfalso. eapply Done; [|exact Hd].
    destruct (offById_keys live eventId s). split; now apply has_of_keys.
  - destruct (string_dec event0 event) as [->|N]; auto.
    exfalso. eapply Done; [|exact Hd].
    cbn [removeAllListeners set_tables events handlerMap].
    split; now apply map_has_delete_neq.
  - exfalso. eapply Done; [|exact Hd]. apply K, shrinks_emit.
  - exfalso. eapply Done; [|exact Hd]. apply K, shrinks_sweepDeadHandlers.
Qed.

Lemma rows_destroyed_only_by_bulk_removal_witness :
  RemoveAllListeners "e" = RemoveAllListeners "e" \/ RemoveAllListeners "e" = RemoveAll.
Proof.
  apply (rows_destroyed_only_by_bulk_removal all_live (RemoveAllListeners "e")
           (snd (on "e" (Fn 0) empty)) "e").
  left. split; reflexivity.
Defined.

(** C9 as worded fails: after the one subscription of an event is removed by
    [off] (or by [offById], or swept once reclaimed), both tables of the
    event stay in place, empty. *)
Lemma empty_tables_counterexample :
  let s := snd (on "e" (Fn 0) empty) in
  map_get "e" (events (off "e" (Fn 0) s)) = Some [] /\
  map_get "e" (handlerMap (off "e" (Fn 0) s)) = Some [] /\
  map_get "e" (events (offById all_live 0 s)) = Some [] /\
  map_get "e" (events (sweepDeadHandlers (fun _ => false) s)) = Some [].
Proof. repeat split. Qed.

(** ** Other events are left alone *)

Lemma untouched_refl event s : untouched event s s.
Proof. split; reflexivity. Qed.

Lemma untouched_trans event s1 s2 s3 :
  untouched event s1 s2 -> untouched event s2 s3 -> untouched event s1 s3.
Proof. intros [A B] [C D]. split; congruence. Qed.

Lemma untouched_set_tables e event em hm s :
  e <> event ->
  untouched event s (set_tables (map_set e em (events s)) (map_set e hm (handlerMap s)) s).
Proof.
  intros N. split; cbn [set_tables events handlerMap]; now apply map_get_set_neq.
Qed.

Lemma untouched_on e event handler s :
  e <> event -> untouched event s (snd (on e handler s)).
Proof.
  intros N. split; [rewrite on_events | rewrite on_handlerMap];
    now apply map_get_set_neq.
Qed.

Lemma untouched_off e event handler s :
  e <> event -> untouched event s (off e handler s).
Proof.
  intros N. unfold off. destruct (_ || _); [apply untouched_refl|].
  destruct (map_get handler _); [|apply untouched_refl].
  now apply untouched_set_tables.
Qed.

Lemma untouched_cleanDeadHandlers live e event s :
  e <> event -> untouched event s (cleanDeadHandlers live e s).
Proof.
  intros N. unfold cleanDeadHandlers. destruct (_ || _); [apply untouched_refl|].
  now apply untouched_set_tables.
Qed.

Lemma untouched_invoke e event h args : forall s,
  e <> event -> scoped_to e h -> untouched event s (invoke h args s).
Proof.
  induction h as [f|c e0 h IH]; intros s N Sc; simpl.
  - split; reflexivity.
  - destruct Sc as [-> Sc].
    eapply untouched_trans; [|now apply untouched_off].
    eapply untouched_trans; [|now apply IH]. split; reflexivity.
Qed.

Lemma untouched_emit_loop live e event args pending : forall s,
  e <> event ->
  (forall id w, map_get id (table e (events s)) = Some w ->
                live (target w) = true -> scoped_to e (target w)) ->
  untouched event s (emit_loop live e args pending s).
Proof.
  induction pending as [|id rest IH]; intros s N Sc; simpl; [apply untouched_refl|].
  destruct (map_get id (table e (events s))) as [w|] eqn:G; auto.
  unfold deref. destruct (live (target w)) eqn:L; auto.
  eapply untouched_trans; [apply (untouched_invoke e); eauto|].
  apply IH; auto. intros id' w' G' L'. apply (Sc id'); auto.
  eapply sub_map_get; [|exact G']. apply shrinks_invoke.
Qed.

(** C10: an operation that works on [event] leaves both tables of every other
    event as they were. *)
Theorem other_events_untouched live s event event' op :
  event <> event' -> scoped live s event op ->
  untouched event' s (run live op s).
Proof.
  intros N Sc. destruct op; simpl in Sc; try contradiction; subst; cbn [run].
  - now apply untouched_on.
  - unfold once.
    match goal with |- context [on event ?h ?t] =>
      apply (untouched_on event event' h t N) end.
  - now apply untouched_off.
  - destruct Sc as [em O]. unfold offById. rewrite O.
    split; cbn [set_tables events handlerMap].
    + now apply map_get_set_neq.
    + destruct (match map_get eventId em with Some w => deref live w | None => None end);
        auto.
      destruct (map_get event (handlerMap s)); auto. now apply map_get_set_neq.
  - split; cbn [removeAllListeners set_tables events handlerMap];
      now apply map_get_delete_neq.
  - destruct Sc as [-> Sc]. unfold emit.
    pose proof (untouched_cleanDeadHandlers live event event' s N) as U.
    destruct (negb _); auto.
    eapply untouched_trans; [exact U|].
    apply untouched_emit_loop; auto.
    intros id w G L. apply (Sc id); auto.
    eapply sub_map_get; [|exact G]. apply shrinks_cleanDeadHandlers.
Qed.

Lemma other_events_untouched_witness :
  let s := snd (once "e" (Fn 1) (snd (on "a" (Fn 0) empty))) in
  untouched "a" s (run all_live (Emit "e" [4]) s).
Proof.
  apply (other_events_untouched all_live _ "e" "a" (Emit "e" [4])).
  - discriminate.
  - split; [reflexivity|].
    intros id w G _. simpl in G. destruct (eq_dec id 1); [|discriminate].
    inversion G; subst. simpl. auto.
Defined.

(** ** Sweeping *)

Lemma table_get {V : Type} (event : string) (m : JsMap string (list V)) :
  map_has event m = true -> map_get event m = Some (table event m).
Proof.
  intros Hm. apply map_has_true in Hm. destruct Hm as [t G].
  unfold table. now rewrite G.
Qed.

Lemma cleanDeadHandlers_swept_id live event s :
  swept live event s -> cleanDeadHandlers live event s = s.
Proof.
  intros Sw. unfold cleanDeadHandlers.
  destruct (map_has event (events s)) eqn:He; simpl; auto.
  destruct (map_has event (handlerMap s)) eqn:Hh; simpl; auto.
  rewrite (Sw He Hh). simpl.
  rewrite !map_set_same by now apply table_get.
  destruct s; reflexivity.
Qed.

Lemma deadEventIds_nil live em :
  (forall id w, In (id, w) em -> live (target w) = true) -> deadEventIds live em = [].
Proof.
  intros A. destruct (deadEventIds live em) as [|id l] eqn:D; auto.
  assert (I : In id (deadEventIds live em)) by (rewrite D; simpl; auto).
  apply In_deadEventIds in I. destruct I as [w [I L]].
  rewrite (A _ _ I) in L. discriminate.
Qed.

Lemma cleanDeadHandlers_swept live event s : swept live event (cleanDeadHandlers live event s).
Proof.
  unfold cleanDeadHandlers.
  destruct (map_has event (events s)) eqn:He; simpl.
  2:{ intros A. congruence. }
  destruct (map_has event (handlerMap s)) eqn:Hh; simpl.
  2:{ intros A B. congruence. }
  intros _ _. cbn [set_tables events]. rewrite table_set_eq.
  apply deadEventIds_nil. intros id w I.
  destruct (live (target w)) eqn:L; auto. exfalso.
  destruct (purge_sub (deadEventIds live (table event (events s)))
              (table event (events s), table event (handlerMap s))) as [Se _].
  pose proof (sub_map_In _ _ _ _ Se I) as I0. simpl in I0.
  assert (D : In id (deadEventIds live (table event (events s))))
    by (apply In_deadEventIds; eauto).
  pose proof (purge_fst_deleted _ id
                (table event (events s), table event (handlerMap s)) D) as G.
  apply map_get_None in G. apply G. eapply In_map_keys; eauto.
Qed.

Lemma cleanDeadHandlers_swept_other live e event s :
  swept live event s -> swept live event (cleanDeadHandlers live e s).
Proof.
  intros Sw. destruct (string_dec e event) as [->|N].
  - apply cleanDeadHandlers_swept.
  - pose proof (shrinks_cleanDeadHandlers live e s) as S.
    unfold swept.
    rewrite (shrinks_has_events _ _ _ S), (shrinks_has_handlerMap _ _ _ S).
    intros He Hh. rewrite <- (Sw He Hh). f_equal.
    destruct (untouched_cleanDeadHandlers live e event s N) as [A _].
    unfold table. now rewrite A.
Qed.

Lemma sweep_fold_swept live event l : forall s,
  In event l \/ swept live event s ->
  swept live event (fold_left (fun acc e => cleanDeadHandlers live e acc) l s).
Proof.
  induction l as [|e l IH]; intros s Hs; simpl.
  - destruct Hs as [[]|Sw]. exact Sw.
  - apply IH. destruct Hs as [[->|I]|Sw]; auto.
    + right. apply cleanDeadHandlers_swept.
    + right. now apply cleanDeadHandlers_swept_other.
Qed.

Lemma sweep_fold_id live l : forall s,
  (forall event, swept live event s) ->
  fold_left (fun acc e => cleanDeadHandlers live e acc) l s = s.
Proof.
  induction l as [|e l IH]; intros s Sw; simpl; auto.
  rewrite cleanDeadHandlers_swept_id by apply Sw. now apply IH.
Qed.

Lemma sweepDeadHandlers_swept live s event : swept live event (sweepDeadHandlers live s).
Proof.
  destruct (map_has event (events s)) eqn:He.
  - apply sweep_fold_swept. left. now apply map_has_keys.
  - intros He'. rewrite (shrinks_has_events _ _ _ (shrinks_sweepDeadHandlers live s)) in He'.
    congruence.
Qed.

Lemma sweep_fold_kept live event id h l : forall s,
  well_formed s ->
  map_get id (table event (events s)) = Some (mkWeakRef h) -> live h = true ->
  map_get id (table event
    (events (fold_left (fun acc e => cleanDeadHandlers live e acc) l s)))
  = Some (mkWeakRef h).
Proof.
  induction l as [|e l IH]; intros s W G L; simpl; auto.
  apply IH; auto.
  - eapply wf_shrinks; [exact W | apply shrinks_cleanDeadHandlers].
  - now apply cleanDeadHandlers_kept.
Qed.

Lemma sweep_fold_reverse_kept live event id h l : forall s,
  well_formed s -> consistent live s ->
  map_get h (table event (handlerMap s)) = Some id -> live h = true ->
  map_get h (table event
    (handlerMap (fold_left (fun acc e => cleanDeadHandlers live e acc) l s)))
  = Some id.
Proof.
  induction l as [|e l IH]; intros s W C G L; simpl; auto.
  apply IH; auto.
  - eapply wf_shrinks; [exact W | apply shrinks_cleanDeadHandlers].
  - now apply consistent_cleanDeadHandlers.
  - apply reverse_cleanDeadHandlers; auto.
Qed.

(** C6: [sweepDeadHandlers] run twice with nothing in between gives the state
    of one run, and it removes no subscription whose handler is live: the
    subscription entry stays, and so does the reverse entry. *)
Theorem sweep_idempotent_keeps_live live s :
  well_formed s -> consistent live s ->
  sweepDeadHandlers live (sweepDeadHandlers live s) = sweepDeadHandlers live s /\
  (forall event id w,
     map_get id (table event (events s)) = Some w -> live (target w) = true ->
     map_get id (table event (events (sweepDeadHandlers live s))) = Some w) /\
  (forall event handler id,
     map_get handler (table event (handlerMap s)) = Some id -> live handler = true ->
     map_get handler (table event (handlerMap (sweepDeadHandlers live s))) = Some id).
Proof.
  intros W C. split; [|split].
  - apply sweep_fold_id. intros event. apply sweepDeadHandlers_swept.
  - intros event id [h] G L. now apply sweep_fold_kept.
  - intros event h id G L. now apply sweep_fold_reverse_kept.
Qed.

Lemma sweep_idempotent_keeps_live_witness :
  let live := fun h => match h with Fn 1 => false | _ => true end in
  let s := snd (on "e" (Fn 1) (snd (on "e" (Fn 0) empty))) in
  sweepDeadHandlers live (sweepDeadHandlers live s) = sweepDeadHandlers live s /\
  map_get 0 (table "e" (events (sweepDeadHandlers live s))) = Some (mkWeakRef (Fn 0)).
Proof.
  intros live s.
  destruct (sweep_idempotent_keeps_live live s) as [A [B _]].
  - apply wf_on, wf_on, wf_empty.
  - apply consistent_on; [apply wf_on, wf_empty|].
    apply consistent_on; [apply wf_empty | apply consistent_empty].
  - split; [exact A|]. apply (B "e" 0 (mkWeakRef (Fn 0))); reflexivity.
Defined.

(** ** Subscribing the same handler twice *)

Lemma off_tables event handler id s :
  map_has event (events s) = true ->
  map_get handler (table event (handlerMap s)) = Some id ->
  table event (events (off event handler s)) = map_delete id (table event (events s)) /\
  table event (handlerMap (off event handler s)) =
  map_delete handler (table event (handlerMap s)).
Proof.
  intros He G. unfold off. rewrite He, (table_get_has _ _ _ _ G). cbn [negb orb].
  rewrite G. cbn [set_tables events handlerMap]. now rewrite !table_set_eq.
Qed.

Lemma off_calls event handler s : calls (off event handler s) = calls s.
Proof.
  unfold off. destruct (_ || _); auto. destruct (map_get handler _); auto.
Qed.

(** A subscription that no reverse entry records is out of reach of [off]:
    it stays until its turn in the loop of [emit]. *)

Lemma unrecorded_off event id e x s w :
  (forall h, map_get h (table event (handlerMap s)) <> Some id) ->
  map_get id (table event (events s)) = Some w ->
  map_get id (table event (events (off e x s))) = Some w.
Proof.
  intros U G. unfold off.
  destruct (negb (map_has e (events s)) || negb (map_has e (handlerMap s))); auto.
  destruct (map_get x (table e (handlerMap s))) as [id0|] eqn:G0; auto.
  cbn [set_tables events].
  destruct (string_dec e event) as [->|N].
  - rewrite table_set_eq, map_get_delete_neq; auto.
    intros ->. exact (U x G0).
  - now rewrite table_set_neq.
Qed.

Lemma unrecorded_shrinks event id s s' :
  shrinks s s' ->
  (forall h, map_get h (table event (handlerMap s)) <> Some id) ->
  forall h, map_get h (table event (handlerMap s')) <> Some id.
Proof.
  intros S U h G. apply (U h). eapply sub_map_get; [apply S | exact G].
Qed.

Lemma unrecorded_invoke event id w x args : forall s,
  (forall h, map_get h (table event (handlerMap s)) <> Some id) ->
  map_get id (table event (events s)) = Some w ->
  map_get id (table event (events (invoke x args s))) = Some w.
Proof.
  induction x as [f|c e x IH]; intros s U G; simpl; auto.
  apply unrecorded_off.
  - apply (unrecorded_shrinks event id s); auto.
    eapply shrinks_trans; [apply shrinks_record_call | apply shrinks_invoke].
  - apply IH; auto.
Qed.

Lemma unrecorded_emit_loop live event args id w pending : forall s,
  (forall h, map_get h (table event (handlerMap s)) <> Some id) ->
  map_get id (table event (events s)) = Some w ->
  map_get id (table event (events (emit_loop live event args pending s))) = Some w.
Proof.
  induction pending as [|i rest IH]; intros s U G; simpl; auto.
  destruct (map_get i (table event (events s))) as [w'|]; auto.
  destruct (deref live w') as [x|]; auto.
  apply IH.
  - apply (unrecorded_shrinks event id s); auto. apply shrinks_invoke.
  - now apply unrecorded_invoke.
Qed.

Lemma invocations_repeat h (args : Args) hs :
  exists k, invocations_of h (map (fun x => (x, args)) hs) = repeat args k.
Proof.
  induction hs as [|x hs [k IH]]; [exists 0; reflexivity|].
  unfold invocations_of in *. simpl. destruct (eq_dec x h).
  - exists (S k). simpl. now rewrite IH.
  - exists k. exact IH.
Qed.

Lemma emit_loop_repeat live event args h pending : forall s,
  exists k, invocations_of h (calls (emit_loop live event args pending s)) =
            invocations_of h (calls s) ++ repeat args k.
Proof.
  induction pending as [|i rest IH]; intros s; simpl.
  - exists 0. now rewrite app_nil_r.
  - destruct (map_get i (table event (events s))) as [w|]; auto.
    destruct (deref live w) as [x|]; auto.
    destruct (IH (invoke x args s)) as [k E].
    destruct (invocations_repeat h args (invoked_by x)) as [k' E'].
    exists (k' + k). rewrite E, calls_invoke, invocations_of_app, E'.
    now rewrite <- app_assoc, repeat_app.
Qed.

Lemma repeat_middle {A : Type} (a : A) k1 k2 :
  repeat a k1 ++ [a] ++ repeat a k2 = repeat a (S (k1 + k2)).
Proof. induction k1 as [|k IH]; simpl; [reflexivity|]. f_equal. exact IH. Qed.

Lemma emit_at_least_once live event args id h s :
  well_formed s -> live h = true ->
  map_get id (table event (events s)) = Some (mkWeakRef h) ->
  (forall x, map_get x (table event (handlerMap s)) <> Some id) ->
  exists n, invocations_of h (calls (emit live event args s)) =
            invocations_of h (calls s) ++ repeat args (S n).
Proof.
  intros W L G U.
  pose proof (shrinks_cleanDeadHandlers live event s) as Sh.
  pose proof (wf_shrinks _ _ W Sh) as Wc.
  pose proof (cleanDeadHandlers_kept live event event s id h W G L) as Gc.
  pose proof (unrecorded_shrinks event id _ _ Sh U) as Uc.
  rewrite (emit_unfold _ _ _ _ id (mkWeakRef h) Gc).
  rewrite <- (cleanDeadHandlers_calls live event s).
  pose proof (table_get_In _ _ _ _ Gc) as [Irow Ient].
  assert (ND : NoDup (map_keys (table event (events (cleanDeadHandlers live event s)))))
    by (eapply wf_eventMap_keys; eauto).
  assert (Ik : In id (map_keys (table event (events (cleanDeadHandlers live event s)))))
    by (eapply In_map_keys; eauto).
  destruct (in_split _ _ Ik) as [before [after E]]. rewrite E. clear ND Ik E.
  rewrite emit_loop_app.
  set (t := emit_loop live event args before (cleanDeadHandlers live event s)).
  assert (Gt : map_get id (table event (events t)) = Some (mkWeakRef h))
    by now apply unrecorded_emit_loop.
  destruct (emit_loop_repeat live event args h before (cleanDeadHandlers live event s))
    as [k1 E1]. fold t in E1.
  cbn [emit_loop]. rewrite Gt. unfold deref. cbn [target]. rewrite L.
  destruct (emit_loop_repeat live event args h after (invoke h args t)) as [k2 E2].
  exists (k1 + k2).
  rewrite E2, calls_invoke, invocations_of_app, invocations_of_self, E1.
  rewrite <- !app_assoc. f_equal. apply repeat_middle.
Qed.

Lemma sweep_fold_purges_entry live event id w l : forall s,
  (In event l /\ map_has event (handlerMap s) = true /\
   map_get id (table event (events s)) = Some w) \/
  map_get id (table event (events s)) = None ->
  live (target w) = false ->
  map_get id (table event
    (events (fold_left (fun acc e => cleanDeadHandlers live e acc) l s))) = None.
Proof.
  induction l as [|e l IH]; intros s J D; simpl.
  - destruct J as [[[] _]|J]. exact J.
  - pose proof (shrinks_cleanDeadHandlers live e s) as Sh.
    apply IH; auto.
    destruct J as [[I [Hh G]]|G].
    + destruct (string_dec e event) as [->|N].
      * right. eapply cleanDeadHandlers_purged; eauto.
      * left. destruct I as [I|I]; [contradiction|].
        destruct (untouched_cleanDeadHandlers live e event s N) as [Ue Uh].
        rewrite (shrinks_has_handlerMap _ _ _ Sh). unfold table. rewrite Ue. auto.
    + right. eapply sub_map_get_None; [apply Sh | assumption].
Qed.

(** C5, as amended: when [handler] is subscribed to [event] under [id1] and
    [on(event, handler)] returns [id2], the reverse entry of the handler
    becomes [id2] and no reverse entry holds [id1] any more, while [id1]
    stays in the subscription table, referring to the handler.  While the
    handler is live neither [sweepDeadHandlers] nor [off(event, handler)]
    removes [id1]; a sweep purges it once the handler is reclaimed.  After
    that [off], an emission on [event] whose live subscribers return
    normally and do not call the registry still calls the handler through
    [id1]: at least once, and exactly once when no other subscription of
    [event] leads to it. *)
Theorem duplicate_subscription_stays fuel prog live live' s rt event handler id1 args :
  well_formed s -> live handler = true ->
  map_get handler (table event (handlerMap s)) = Some id1 ->
  map_get id1 (table event (events s)) = Some (mkWeakRef handler) ->
  (forall id w, map_get id (table event (events s)) = Some w ->
                live (target w) = true -> plain prog (target w)) ->
  live' handler = false ->
  fuel_bound event (snd (on event handler s)) <= fuel ->
  let id2 := fst (on event handler s) in
  let s' := snd (on event handler s) in
  let r := emitX fuel prog live event args (mkXPool (off event handler s') rt) in
  id2 <> id1 /\
  map_get handler (table event (handlerMap s')) = Some id2 /\
  (forall h, map_get h (table event (handlerMap s')) <> Some id1) /\
  map_get id1 (table event (events s')) = Some (mkWeakRef handler) /\
  map_get id1 (table event (events (sweepDeadHandlers live s')))
    = Some (mkWeakRef handler) /\
  map_get id1 (table event (events (off event handler s')))
    = Some (mkWeakRef handler) /\
  map_get id1 (table event (events (sweepDeadHandlers live' s'))) = None /\
  snd r = Returned /\
  (exists n, invocations_of handler (calls (pool (fst r))) =
             invocations_of handler (calls s) ++ repeat args (S n)) /\
  ((forall id, id <> id1 -> ~ reaches live event s id handler) ->
   invocations_of handler (calls (pool (fst r))) =
   invocations_of handler (calls s) ++ [args]).
Proof.
  intros W L Gh Ge P D F id2 s' r. subst id2 s' r. rewrite on_fst.
  pose proof (wf_on event handler s W) as W'.
  pose proof (shrinks_off event handler (snd (on event handler s))) as So.
  assert (N : nextSymbol s <> id1).
  { apply table_get_In in Gh. destruct Gh as [Ir Ih].
    pose proof (wf_reverse_ids _ W _ _ _ _ Ir Ih). lia. }
  assert (G2 : map_get handler (table event (handlerMap (snd (on event handler s))))
               = Some (nextSymbol s))
    by (rewrite on_handlerMap, table_set_eq; apply map_get_set_eq).
  assert (R1 : forall h, map_get h (table event (handlerMap (snd (on event handler s))))
                         <> Some id1).
  { intros h G. rewrite on_handlerMap, table_set_eq in G.
    destruct (Handler_eq_dec handler h) as [<-|Nh].
    - rewrite map_get_set_eq in G. congruence.
    - rewrite map_get_set_neq in G by assumption. apply Nh.
      apply table_get_In in Gh. destruct Gh as [Ir Ih]. apply map_get_In in G.
      exact (wf_reverse_inj _ W _ _ _ _ _ Ir Ih G). }
  assert (G1 : map_get id1 (table event (events (snd (on event handler s))))
               = Some (mkWeakRef handler))
    by (rewrite on_get_other; auto).
  destruct (off_tables event handler (nextSymbol s) (snd (on event handler s))
              (table_get_has _ _ _ _ G1) G2) as [Te Th].
  assert (G1' : map_get id1 (table event (events (off event handler (snd (on event handler s)))))
                = Some (mkWeakRef handler))
    by (rewrite Te, map_get_delete_neq; auto).
  assert (Wo : well_formed (off event handler (snd (on event handler s))))
    by (eapply wf_shrinks; eauto).
  assert (Uo : forall h,
            map_get h (table event (handlerMap (off event handler (snd (on event handler s)))))
            <> Some id1)
    by (apply (unrecorded_shrinks event id1 _ _ So R1)).
  assert (Co : calls (off event handler (snd (on event handler s))) = calls s)
    by now rewrite off_calls, on_calls.
  rewrite emitX_plain.
  2:{ cbn [pool]. intros id w G Lw.
      apply (on_plain prog live event handler s (P id1 _ Ge L) P id w); auto.
      eapply sub_map_get; [apply So | exact G]. }
  2:{ cbn [pool]. etransitivity; [apply fuel_bound_shrinks; exact So | exact F]. }
  cbn [fst snd lift pool].
  repeat split; auto.
  - now apply sweep_fold_kept.
  - apply (sweep_fold_purges_entry live' event id1 (mkWeakRef handler)); auto.
    left. repeat split; auto.
    + apply map_has_keys. eapply table_get_has; eauto.
    + eapply table_get_has; eauto.
  - rewrite <- Co. now apply (emit_at_least_once live event args id1).
  - intros Q.
    rewrite (emit_one live event args id1 handler handler); auto.
    + now rewrite invocations_of_self, Co.
    + split; auto. intros h G. exfalso. exact (Uo h G).
    + intros id Ni [w [G R]]. apply (Q id Ni). exists w. split; auto.
      rewrite Te in G. apply map_get_delete_Some in G. destruct G as [G N2].
      rewrite on_get_other in G; auto.
    + intros id Ni [w [G R]]. apply (Q id Ni). exists w. split; auto.
      rewrite Te in G. apply map_get_delete_Some in G. destruct G as [G N2].
      rewrite on_get_other in G; auto.
Qed.

Lemma duplicate_subscription_stays_witness :
  let prog := fun (_ : nat) (_ : Args) => plain_body in
  let s := snd (on "e" (Fn 0) empty) in
  let s' := snd (on "e" (Fn 0) s) in
  let r := emitX 9 prog all_live "e" [7] (mkXPool (off "e" (Fn 0) s') []) in
  map_get 0 (table "e" (events (sweepDeadHandlers all_live s'))) = Some (mkWeakRef (Fn 0)) /\
  map_get 0 (table "e" (events (sweepDeadHandlers (fun _ => false) s'))) = None /\
  snd r = Returned /\
  invocations_of (Fn 0) (calls (pool (fst r))) =
  invocations_of (Fn 0) (calls s) ++ [[7]].
Proof.
  intros prog s s' r.
  destruct (duplicate_subscription_stays 9 prog all_live (fun _ => false) s []
              "e" (Fn 0) 0 [7])
    as [_ [_ [_ [_ [A [_ [B [C [_ E]]]]]]]]].
  - apply wf_on, wf_empty.
  - reflexivity.
  - reflexivity.
  - reflexivity.
  - intros id w _ _ f _ a. reflexivity.
  - reflexivity.
  - vm_compute. lia.
  - split; [exact A|]. split; [exact B|]. split; [exact C|]. apply E.
    intros id N [w [G _]]. simpl in G. destruct (eq_dec id 0); [congruence | discriminate].
Defined.

(** C5 as worded fails in its last part: the first subscription is never
    purged while the handler lives.  After a sweep and [off(event, handler)]
    it is still in the table, and the next emission calls the handler. *)
Lemma orphan_not_purged_counterexample :
  let s := snd (on "e" (Fn 0) (snd (on "e" (Fn 0) empty))) in
  let s' := off "e" (Fn 0) (sweepDeadHandlers all_live s) in
  map_get 0 (table "e" (events (sweepDeadHandlers all_live s'))) = Some (mkWeakRef (Fn 0)) /\
  map_get (Fn 0) (table "e" (handlerMap s')) = None /\
  calls (emit all_live "e" [7] s') = [(Fn 0, [7])].
Proof. repeat split. Qed.

(** ** One-shot subscriptions *)

Lemma shrinks_clean_emit live event args s :
  shrinks (cleanDeadHandlers live event s) (emit live event args s).
Proof. unfold emit. destruct (negb _); [apply shrinks_refl | apply shrinks_emit_loop]. Qed.

Lemma emit_quiet live event args y s :
  (forall id, ~ reaches live event s id y) ->
  invocations_of y (calls (emit live event args s)) = invocations_of y (calls s).
Proof.
  intros Q. rewrite <- (cleanDeadHandlers_calls live event s). unfold emit.
  destruct (negb _); auto.
  apply emit_loop_quiet. intros id _ R. apply (Q id).
  eapply reaches_shrinks; [apply shrinks_cleanDeadHandlers | exact R].
Qed.

Lemma reaches_all_live live event s id y :
  reaches live event s id y -> reaches all_live event s id y.
Proof. intros [w [G [_ I]]]. exists w. auto. Qed.

Lemma emits_quiet event y later : forall s,
  (forall id, ~ reaches all_live event s id y) ->
  invocations_of y (calls (emits event later s)) = invocations_of y (calls s).
Proof.
  induction later as [|[live args] later IH]; intros s Q; simpl; auto.
  rewrite IH.
  - apply emit_quiet. intros id R. apply (Q id). eapply reaches_all_live; eauto.
  - intros id R. apply (Q id). eapply reaches_shrinks; [apply shrinks_emit | exact R].
Qed.

Lemma calls_emit_loop live event args pending : forall s,
  exists post, calls (emit_loop live event args pending s) = calls s ++ post.
Proof.
  induction pending as [|id rest IH]; intros s; simpl.
  - exists []. now rewrite app_nil_r.
  - destruct (map_get id _) as [w|]; auto.
    destruct (deref live w); auto.
    destruct (IH (invoke h args s)) as [post E]. rewrite E, calls_invoke.
    eexists. now rewrite <- app_assoc.
Qed.

Lemma invoked_by_head h : exists rest, invoked_by h = h :: rest.
Proof. destruct h; simpl; eauto. Qed.

Section Once.
Variables (live : Heap) (s : Pool) (event : string) (handler : Handler) (args : Args).
Hypothesis W : well_formed s.

Let onceHandler := OnceHandler (nextClosure s) event handler.
Let id := nextSymbol s.
Let s1 := snd (once event handler s).
Let s2 := emit live event args s1.

(** No subscription of [event] leads to the closure before it exists. *)
Hypothesis Fresh : forall id', ~ reaches all_live event s id' onceHandler.

Lemma once_events :
  events s1 =
  map_set event (map_set id (mkWeakRef onceHandler) (table event (events s))) (events s).
Proof. unfold s1, once. now rewrite on_events. Qed.

Lemma once_handlerMap :
  handlerMap s1 =
  map_set event (map_set onceHandler id (table event (handlerMap s))) (handlerMap s).
Proof. unfold s1, once. now rewrite on_handlerMap. Qed.

Lemma once_calls : calls s1 = calls s.
Proof. reflexivity. Qed.

Lemma once_wf : well_formed s1.
Proof. now apply wf_once. Qed.

Lemma once_guarded : guarded event id onceHandler s1.
Proof.
  exact (guarded_on event onceHandler _ (wf_closure_allocated s W)).
Qed.

Lemma once_reverse : map_get onceHandler (table event (handlerMap s1)) = Some id.
Proof. rewrite once_handlerMap, table_set_eq. apply map_get_set_eq. Qed.

Lemma once_get_other id' :
  id' <> id ->
  map_get id' (table event (events s1)) = map_get id' (table event (events s)).
Proof. intros N. rewrite once_events, table_set_eq. now apply map_get_set_neq. Qed.

Lemma once_reaches_other live' id' y :
  id' <> id -> reaches live' event s1 id' y -> reaches all_live event s id' y.
Proof.
  intros N [w [G [_ I]]]. exists w. rewrite once_get_other in G by assumption. auto.
Qed.

Lemma once_others_quiet live' t id' y :
  shrinks s1 t -> (forall i, ~ reaches all_live event s i y) ->
  id' <> id -> ~ reaches live' event t id' y.
Proof.
  intros S Q N R. apply (Q id'). apply (once_reaches_other live' id' y N).
  eapply reaches_shrinks; eauto.
Qed.

(** The first emission when the closure is live: the loop reaches its
    subscription in a state [t] where both entries are still there. *)
Lemma once_first_emission :
  live onceHandler = true ->
  exists after t pre,
    guarded event id onceHandler t /\
    map_get onceHandler (table event (handlerMap t)) = Some id /\
    calls t = calls s ++ pre /\
    s2 = emit_loop live event args after (invoke onceHandler args t).
Proof.
  intros L.
  pose proof once_wf as W1. pose proof once_guarded as G1.
  pose proof (shrinks_cleanDeadHandlers live event s1) as S.
  pose proof (wf_shrinks _ _ W1 S) as Wc.
  pose proof (guarded_cleanDeadHandlers live event event s1 id onceHandler W1 G1 L) as Gc.
  assert (Rc : map_get onceHandler
                 (table event (handlerMap (cleanDeadHandlers live event s1))) = Some id).
  { apply reverse_cleanDeadHandlers; auto using once_reverse. apply G1. }
  assert (Q : forall id', id' <> id ->
                ~ reaches live event (cleanDeadHandlers live event s1) id' onceHandler)
    by (intros id'; now apply once_others_quiet).
  destruct Gc as [Ge P]. pose proof (table_get_In _ _ _ _ Ge) as [Irow Ient].
  destruct (emit_loop_split live event args id onceHandler
              (map_keys (table event (events (cleanDeadHandlers live event s1))))
              (cleanDeadHandlers live event s1))
    as [before [after [Ek [NB [NA [Gt Es]]]]]]; auto.
  - eapply wf_eventMap_keys; eauto.
  - eapply In_map_keys; eauto.
  - split; auto.
  - exists after, (emit_loop live event args before (cleanDeadHandlers live event s1)).
    destruct (calls_emit_loop live event args before (cleanDeadHandlers live event s1))
      as [pre Ec].
    exists pre. repeat split; try apply Gt.
    + apply reverse_emit_loop; auto. intros id' I. apply Q. congruence.
    + now rewrite Ec, cleanDeadHandlers_calls.
    + unfold s2. now rewrite (emit_unfold _ _ _ _ id (mkWeakRef onceHandler) Ge).
Qed.

(** After the first emission the subscription of the closure is gone, called
    or reclaimed. *)
Lemma once_subscription_removed : map_get id (table event (events s2)) = None.
Proof.
  destruct (live onceHandler) eqn:L.
  - destruct (once_first_emission L) as [after [t [pre [Gt [Rt [_ ->]]]]]].
    eapply sub_map_get_None; [apply shrinks_emit_loop|].
    change (invoke onceHandler args t)
      with (off event onceHandler (invoke handler args (record_call onceHandler args t))).
    set (t' := invoke handler args (record_call onceHandler args t)).
    assert (Gt' : guarded event id onceHandler t').
    { apply guarded_invoke; [exact Gt | apply invoked_by_inner]. }
    assert (Rt' : map_get onceHandler (table event (handlerMap t')) = Some id).
    { apply reverse_invoke; [exact Rt | apply invoked_by_inner]. }
    destruct Gt' as [Ge' _].
    destruct (off_tables event onceHandler id t' (table_get_has _ _ _ _ Ge') Rt') as [-> _].
    apply map_get_delete_eq.
  - eapply sub_map_get_None; [apply (shrinks_clean_emit live event args s1)|].
    destruct once_guarded as [Ge _].
    apply (cleanDeadHandlers_purged live event s1 id (mkWeakRef onceHandler)); auto.
    apply (table_get_has _ _ _ _ once_reverse).
Qed.

Lemma once_reverse_removed :
  live onceHandler = true -> map_get onceHandler (table event (handlerMap s2)) = None.
Proof.
  intros L. destruct (once_first_emission L) as [after [t [pre [Gt [Rt [_ ->]]]]]].
  eapply sub_map_get_None; [apply shrinks_emit_loop|].
  change (invoke onceHandler args t)
    with (off event onceHandler (invoke handler args (record_call onceHandler args t))).
  set (t' := invoke handler args (record_call onceHandler args t)).
  assert (Gt' : guarded event id onceHandler t').
  { apply guarded_invoke; [exact Gt | apply invoked_by_inner]. }
  assert (Rt' : map_get onceHandler (table event (handlerMap t')) = Some id).
  { apply reverse_invoke; [exact Rt | apply invoked_by_inner]. }
  destruct Gt' as [Ge' _].
  destruct (off_tables event onceHandler id t' (table_get_has _ _ _ _ Ge') Rt') as [_ ->].
  apply map_get_delete_eq.
Qed.

Lemma once_call_order :
  live onceHandler = true ->
  exists pre post,
    calls s2 = calls s ++ pre ++ (onceHandler, args) :: (handler, args) :: post.
Proof.
  intros L. destruct (once_first_emission L) as [after [t [pre [_ [_ [Ec ->]]]]]].
  destruct (calls_emit_loop live event args after (invoke onceHandler args t))
    as [post ->].
  rewrite calls_invoke, Ec.
  change (invoked_by onceHandler) with (onceHandler :: invoked_by handler).
  destruct (invoked_by_head handler) as [rest ->]. cbn [map].
  exists pre, (map (fun x => (x, args)) rest ++ post).
  now rewrite <- !app_assoc.
Qed.

(** The calls of [y] over the first emission and all later ones, when no
    subscription of [event] led to [y] before. *)
Lemma once_trace y later :
  (forall id', ~ reaches all_live event s id' y) ->
  invocations_of y (calls (emits event later s2)) =
  invocations_of y (calls s) ++
  (if live onceHandler
   then invocations_of y (map (fun x => (x, args)) (invoked_by onceHandler))
   else []).
Proof.
  intros Q. rewrite emits_quiet.
  - unfold s2. destruct (live onceHandler) eqn:L.
    + rewrite (emit_one live event args id onceHandler y);
        auto using once_wf, once_guarded.
      * intros id'. apply once_others_quiet; auto using shrinks_refl.
      * intros id'. apply once_others_quiet; auto using shrinks_refl.
    + rewrite app_nil_r. rewrite emit_quiet; auto.
      intros id' R. destruct (Nat.eq_dec id' id) as [->|N].
      * destruct R as [w [G [Lw _]]]. destruct once_guarded as [Ge _].
        rewrite Ge in G. inversion G; subst w. cbn [target] in Lw. congruence.
      * revert R. apply once_others_quiet; auto using shrinks_refl.
  - intros id' R. destruct (Nat.eq_dec id' id) as [->|N].
    + destruct R as [w [G _]]. rewrite once_subscription_removed in G. discriminate.
    + revert R. apply once_others_quiet; auto. apply shrinks_emit.
Qed.

End Once.

Lemma allocated_fresh s event handler id :
  allocated s ->
  ~ reaches all_live event s id (OnceHandler (nextClosure s) event handler).
Proof.
  intros A [w [G [_ I]]]. apply table_get_In in G. destruct G as [Irow Ient].
  revert I. apply fresh_closure_not_invoked. eapply al_events; eauto.
Qed.

Lemma invocations_of_wrapped c e h (args : Args) :
  invocations_of h (map (fun x => (x, args)) (invoked_by (OnceHandler c e h))) = [args].
Proof.
  cbn [invoked_by map]. unfold invocations_of. cbn [filter fst].
  destruct (eq_dec (OnceHandler c e h) h) as [E|N].
  - exfalso. apply (f_equal depth) in E. simpl in E. lia.
  - apply invocations_of_self.
Qed.

(** The closure of [once] over the emissions that follow, with plain
    handlers. *)
Lemma once_emits live s event handler args later :
  well_formed s -> allocated s ->
  let onceHandler := OnceHandler (nextClosure s) event handler in
  let id := fst (once event handler s) in
  let s2 := emit live event args (snd (once event handler s)) in
  invocations_of onceHandler (calls (emits event later s2)) =
    invocations_of onceHandler (calls s) ++ (if live onceHandler then [args] else []) /\
  (live onceHandler = true ->
   exists pre post,
     calls s2 = calls s ++ pre ++ (onceHandler, args) :: (handler, args) :: post) /\
  map_get id (table event (events s2)) = None /\
  (live onceHandler = true ->
   map_get onceHandler (table event (handlerMap s2)) = None) /\
  ((forall id', ~ reaches all_live event s id' handler) ->
   invocations_of handler (calls (emits event later s2)) =
     invocations_of handler (calls s) ++ (if live onceHandler then [args] else [])).
Proof.
  intros W A onceHandler id s2.
  assert (Fresh : forall id', ~ reaches all_live event s id' onceHandler)
    by (intros id'; now apply allocated_fresh).
  split; [|split; [|split; [|split]]].
  - unfold s2. rewrite (once_trace live s event handler args W Fresh onceHandler later Fresh).
    now rewrite invocations_of_self.
  - exact (once_call_order live s event handler args W Fresh).
  - exact (once_subscription_removed live s event handler args W Fresh).
  - exact (once_reverse_removed live s event handler args W Fresh).
  - intros Q. unfold s2.
    rewrite (once_trace live s event handler args W Fresh handler later Q).
    now rewrite invocations_of_wrapped.
Qed.

Lemma once_plain prog event handler s :
  plain prog handler ->
  (forall id w, map_get id (table event (events s)) = Some w -> plain prog (target w)) ->
  forall id w,
    map_get id (table event (events (snd (once event handler s)))) = Some w ->
    plain prog (target w).
Proof.
  intros Ph P id w G. unfold once in G. rewrite on_events, table_set_eq in G.
  cbn [nextSymbol events] in G.
  destruct (Nat.eq_dec (nextSymbol s) id) as [<-|N].
  - rewrite map_get_set_eq in G. inversion G; subst w. cbn [target].
    intros f I. apply Ph. simpl in I. destruct I as [E|I]; [discriminate | exact I].
  - rewrite map_get_set_neq in G by assumption. eauto.
Qed.

(** C8, as amended: when [handler] and the handlers subscribed to [event]
    return normally and do not call the registry, the closure that
    [once(event, handler)] subscribes is called at most once over all the
    emissions on [event] that follow: by the first one, with its arguments,
    if the closure still resolves then, and never by a later one.  That call
    passes the arguments on to [handler], and the closure's subscription and
    reverse entry are removed by [off] before it returns.  [handler] itself
    is called that once and no more provided no other subscription of
    [event] leads to it. *)
Theorem once_fires_once fuel prog live s rt event handler args later :
  well_formed s -> allocated s ->
  plain prog handler ->
  (forall id w, map_get id (table event (events s)) = Some w -> plain prog (target w)) ->
  fuel_bound event (snd (once event handler s)) <= fuel ->
  let onceHandler := OnceHandler (nextClosure s) event handler in
  let id := fst (once event handler s) in
  let r := emitX fuel prog live event args (mkXPool (snd (once event handler s)) rt) in
  let rs := emitsX fuel prog event later (fst r) in
  (snd r = Returned /\ forall o, In o (snd rs) -> o = Returned) /\
  invocations_of onceHandler (calls (pool (fst rs))) =
    invocations_of onceHandler (calls s) ++ (if live onceHandler then [args] else []) /\
  (live onceHandler = true ->
   exists pre post,
     calls (pool (fst r)) =
     calls s ++ pre ++ (onceHandler, args) :: (handler, args) :: post) /\
  map_get id (table event (events (pool (fst r)))) = None /\
  (live onceHandler = true ->
   map_get onceHandler (table event (handlerMap (pool (fst r)))) = None) /\
  ((forall id', ~ reaches all_live event s id' handler) ->
   invocations_of handler (calls (pool (fst rs))) =
     invocations_of handler (calls s) ++ (if live onceHandler then [args] else [])).
Proof.
  intros W A Ph P F onceHandler id r rs. subst r rs.
  pose proof (once_plain prog event handler s Ph P) as P1.
  rewrite emitX_plain; [| cbn [pool]; eauto | exact F]. cbn [fst snd].
  pose proof (shrinks_emit live event args (snd (once event handler s))) as Sh.
  rewrite emitsX_plain.
  2:{ cbn [lift pool]. intros i w G. apply (P1 i).
      eapply sub_map_get; [apply Sh | exact G]. }
  2:{ cbn [lift pool]. etransitivity; [apply fuel_bound_shrinks; exact Sh | exact F]. }
  cbn [fst snd lift pool].
  destruct (once_emits live s event handler args later W A) as [E1 [E2 [E3 [E4 E5]]]].
  split; [split; [reflexivity|]|].
  - intros o I. apply in_map_iff in I. destruct I as [_ [<- _]]. reflexivity.
  - repeat split; auto.
Qed.

Lemma once_fires_once_witness :
  let prog := fun (_ : nat) (_ : Args) => plain_body in
  let s := snd (on "e" (Fn 1) empty) in
  let r := emitX 9 prog all_live "e" [1] (mkXPool (snd (once "e" (Fn 0) s)) []) in
  let rs := emitsX 9 prog "e" [(all_live, [2]); (all_live, [3])] (fst r) in
  invocations_of (OnceHandler 0 "e" (Fn 0)) (calls (pool (fst rs))) = [[1]] /\
  map_get 1 (table "e" (events (pool (fst r)))) = None /\
  invocations_of (Fn 0) (calls (pool (fst rs))) = [[1]].
Proof.
  intros prog s r rs.
  destruct (once_fires_once 9 prog all_live s [] "e" (Fn 0) [1]
              [(all_live, [2]); (all_live, [3])])
    as [_ [A [_ [B [_ C]]]]].
  - apply wf_on, wf_empty.
  - apply allocated_on; [apply allocated_empty | exact I].
  - intros f _ a. reflexivity.
  - intros i w _ f _ a. reflexivity.
  - vm_compute. lia.
  - split; [exact A|]. split; [exact B|]. apply C.
    intros id' [w [G [_ J]]]. simpl in G.
    destruct (eq_dec id' 0); [|discriminate].
    inversion G; subst. simpl in J. destruct J as [E|[]]. discriminate.
Defined.

(** C8 as worded fails in two ways.  A handler that is also subscribed by
    [on] is called by every emission, whatever [once] does.  And a handler
    that throws leaves [onceHandler] before its [off]: the closure stays
    subscribed and calls the handler again at the next emission. *)
Lemma once_counterexample :
  (let s := snd (once "e" (Fn 0) (snd (on "e" (Fn 0) empty))) in
   invocations_of (Fn 0)
     (calls (emits "e" [(all_live, [1]); (all_live, [2])] s)) = [[1]; [1]; [2]]) /\
  (let prog := fun (_ : nat) (_ : Args) => mkBody [] true in
   let s := snd (once "e" (Fn 0) empty) in
   let rs := emitsX 9 prog "e" [(all_live, [1]); (all_live, [2])] (start s) in
   snd rs = [Thrown; Thrown] /\
   invocations_of (Fn 0) (calls (pool (fst rs))) = [[1]; [2]]).
Proof. repeat split. Qed.

(** ** Further invariants of the reachable states *)

Lemma map_keys_delete {V : Type} (k : string) (m : JsMap string V) :
  map_keys (map_delete k m) = remove string_dec k (map_keys m).
Proof.
  induction m as [|[k' v] m IH]; simpl; auto.
  change (eq_dec k k') with (string_dec k k').
  destruct (string_dec k k'); simpl; congruence.
Qed.

Lemma map_keys_set {V : Type} (k : string) (v : V) (m : JsMap string V) :
  map_keys (map_set k v m) =
  if map_has k m then map_keys m else map_keys m ++ [k].
Proof.
  destruct (map_has k m) eqn:Hm.
  - apply map_keys_set_present. now apply map_has_keys.
  - apply map_keys_set_absent. apply map_has_false in Hm. now apply map_get_None.
Qed.

Lemma paired_has s event :
  paired s -> map_has event (handlerMap s) = map_has event (events s).
Proof. intros P. apply eq_true_iff_eq. rewrite !map_has_keys. now rewrite P. Qed.

Lemma paired_shrinks s s' : paired s -> shrinks s s' -> paired s'.
Proof.
  intros P S. unfold paired.
  now rewrite (shrinks_events_keys _ _ S), (shrinks_handlerMap_keys _ _ S).
Qed.

Lemma paired_on event handler s : paired s -> paired (snd (on event handler s)).
Proof.
  intros P. unfold paired. rewrite on_events, on_handlerMap, !map_keys_set.
  rewrite (paired_has _ event P). destruct (map_has event (events s)); congruence.
Qed.

Lemma paired_run live op s : paired s -> paired (run live op s).
Proof.
  intros P. destruct op; cbn [run].
  - now apply paired_on.
  - unfold once. now apply paired_on.
  - eapply paired_shrinks; eauto using shrinks_off.
  - unfold paired. destruct (offById_keys live eventId s) as [-> ->]. exact P.
  - unfold paired. cbn [removeAllListeners set_tables events handlerMap].
    rewrite !map_keys_delete. now f_equal.
  - reflexivity.
  - eapply paired_shrinks; eauto using shrinks_emit.
  - eapply paired_shrinks; eauto using shrinks_sweepDeadHandlers.
Qed.

(** X1: in every state reached from the empty registry, the two fields have
    rows for the same events, in the same order: [on] creates them together
    and the two bulk removals delete them together. *)
Theorem reachable_paired live s :
  reachable live s -> map_keys (events s) = map_keys (handlerMap s).
Proof.
  induction 1 as [live|live live' s R IH L|live op s R IH Ad].
  - reflexivity.
  - exact IH.
  - now apply paired_run.
Qed.

Lemma reachable_paired_witness :
  let s := run all_live (RemoveAllListeners "a")
             (run all_live (Once "b" (Fn 1)) (run all_live (On "a" (Fn 0)) empty)) in
  map_keys (events s) = map_keys (handlerMap s).
Proof.
  apply (reachable_paired all_live).
  repeat (apply reachable_run; [|exact I]). apply reachable_empty.
Defined.

Lemma one_owner_shrinks s s' : one_owner s -> shrinks s s' -> one_owner s'.
Proof.
  intros O S e1 e2 id w1 w2 G1 G2.
  apply (O e1 e2 id w1 w2); (eapply sub_map_get; [apply S | eassumption]).
Qed.

Lemma one_owner_on event handler s :
  well_formed s -> one_owner s -> one_owner (snd (on event handler s)).
Proof.
  intros W O e1 e2 id w1 w2. rewrite on_events.
  assert (F : forall e w, map_get id (table e (events s)) = Some w -> id <> nextSymbol s).
  { intros e w G. apply table_get_In in G. destruct G as [Ir Ie].
    pose proof (wf_event_ids _ W _ _ _ _ Ir Ie). lia. }
  destruct (string_dec event e1) as [<-|N1]; destruct (string_dec event e2) as [<-|N2];
    auto; rewrite ?table_set_eq, ?table_set_neq by assumption.
  - destruct (Nat.eq_dec (nextSymbol s) id) as [<-|Ni].
    + intros _ G. exfalso. eapply F; eauto.
    + rewrite map_get_set_neq by assumption. apply O.
  - destruct (Nat.eq_dec (nextSymbol s) id) as [<-|Ni].
    + intros G _. exfalso. eapply F; eauto.
    + rewrite map_get_set_neq by assumption. apply O.
  - apply O.
Qed.

Lemma one_owner_run live op s : well_formed s -> one_owner s -> one_owner (run live op s).
Proof.
  intros W O. destruct op; cbn [run].
  - now apply one_owner_on.
  - unfold once. apply one_owner_on; [now apply wf_closure_allocated | exact O].
  - eapply one_owner_shrinks; eauto using shrinks_off.
  - eapply one_owner_shrinks; eauto. apply shrinks_offById, W.
  - intros e1 e2 id w1 w2. cbn [removeAllListeners set_tables events].
    destruct (string_dec event e1) as [<-|N1]; [rewrite table_delete_eq; discriminate|].
    destruct (string_dec event e2) as [<-|N2]; [rewrite table_delete_eq; discriminate|].
    rewrite !table_delete_neq by assumption. apply O.
  - intros e1 e2 id w1 w2. discriminate.
  - eapply one_owner_shrinks; eauto using shrinks_emit.
  - eapply one_owner_shrinks; eauto using shrinks_sweepDeadHandlers.
Qed.

Lemma reachable_one_owner live s : reachable live s -> one_owner s.
Proof.
  induction 1 as [live|live live' s R IH L|live op s R IH Ad].
  - intros e1 e2 id w1 w2. discriminate.
  - exact IH.
  - apply one_owner_run; auto. now apply (reachable_invariant live s).
Qed.

(** X2: in every reachable state a subscription symbol is in the table of
    one event only, and within an event the reverse table records a symbol
    for one handler only. *)
Theorem reachable_symbols_unambiguous live s :
  reachable live s ->
  (forall e1 e2 id w1 w2,
     map_get id (table e1 (events s)) = Some w1 ->
     map_get id (table e2 (events s)) = Some w2 -> e1 = e2) /\
  (forall event h1 h2 id,
     map_get h1 (table event (handlerMap s)) = Some id ->
     map_get h2 (table event (handlerMap s)) = Some id -> h1 = h2).
Proof.
  intros R. split.
  - exact (reachable_one_owner live s R).
  - intros event h1 h2 id G1 G2.
    destruct (reachable_invariant live s R) as [W _].
    apply table_get_In in G1. apply map_get_In in G2. destruct G1 as [Ir I1].
    exact (wf_reverse_inj _ W _ _ _ _ _ Ir I1 G2).
Qed.

Lemma reachable_symbols_unambiguous_witness :
  let s := run all_live (On "e" (Fn 1)) (run all_live (On "e" (Fn 0)) empty) in
  map_get 1 (table "e" (events s)) = Some (mkWeakRef (Fn 1)) /\ Fn 1 = Fn 1.
Proof.
  intros s.
  destruct (reachable_symbols_unambiguous all_live s) as [_ B].
  - repeat (apply reachable_run; [|exact I]). apply reachable_empty.
  - split; [reflexivity|]. apply (B "e" (Fn 1) (Fn 1) 1); reflexivity.
Defined.

(** ** Removal *)

Lemma map_delete_set_new {K V : Type} `{EqDec K} (k : K) (v : V) (m : JsMap K V) :
  map_get k m = None -> map_delete k (map_set k v m) = m.
Proof.
  induction m as [|[k' v'] m IH]; simpl.
  - destruct (eq_dec k k); congruence.
  - destruct (eq_dec k k') as [->|N]; [discriminate|]. intros G. simpl.
    destruct (eq_dec k k'); [contradiction|]. f_equal. auto.
Qed.

Lemma set_table_back {V : Type} (event : string) (t : list V) (m : JsMap string (list V)) :
  map_set event (table event m) (map_set event t m) =
  if map_has event m then m else map_set event [] m.
Proof.
  rewrite map_set_set. destruct (map_has event m) eqn:Hm.
  - apply map_set_same. unfold table. apply map_has_true in Hm.
    destruct Hm as [x G]. now rewrite G.
  - now rewrite (table_absent _ _ Hm).
Qed.

(** X3: [on(event, handler)] followed by [off(event, handler)], for a handler
    that had no reverse entry in [event], gives both fields back as they
    were (the rows of [event] being created empty if they were missing); only
    the symbol is spent. *)
Theorem on_then_off_restores event handler s :
  well_formed s ->
  map_get handler (table event (handlerMap s)) = None ->
  off event handler (snd (on event handler s)) =
  mkPool (if map_has event (events s) then events s else map_set event [] (events s))
         (if map_has event (handlerMap s) then handlerMap s
          else map_set event [] (handlerMap s))
         (S (nextSymbol s)) (nextClosure s) (calls s).
Proof.
  intros W Gh.
  assert (Ge' : map_get (nextSymbol s) (table event (events (snd (on event handler s))))
                = Some (mkWeakRef handler))
    by (rewrite on_events, table_set_eq; apply map_get_set_eq).
  assert (Gh' : map_get handler (table event (handlerMap (snd (on event handler s))))
                = Some (nextSymbol s))
    by (rewrite on_handlerMap, table_set_eq; apply map_get_set_eq).
  assert (Fresh : map_get (nextSymbol s) (table event (events s)) = None).
  { destruct (map_get (nextSymbol s) (table event (events s))) eqn:G; auto.
    apply table_get_In in G. destruct G as [Ir Ie].
    pose proof (wf_event_ids _ W _ _ _ _ Ir Ie). lia. }
  unfold off. rewrite (table_get_has _ _ _ _ Ge'), (table_get_has _ _ _ _ Gh').
  cbn [negb orb]. rewrite Gh'. unfold set_tables.
  rewrite on_events, on_handlerMap, !table_set_eq.
  rewrite !map_delete_set_new by assumption.
  now rewrite !set_table_back.
Qed.

Lemma on_then_off_restores_witness :
  let s := snd (on "e" (Fn 1) empty) in
  off "e" (Fn 0) (snd (on "e" (Fn 0) s)) =
  mkPool (events s) (handlerMap s) 2 0 [].
Proof.
  apply (on_then_off_restores "e" (Fn 0) (snd (on "e" (Fn 1) empty))).
  - apply wf_on, wf_empty.
  - reflexivity.
Defined.

(** X4: [off] twice is [off] once, in every state: teardown code may call it
    without knowing whether it has already unsubscribed. *)
Theorem off_idempotent event handler s :
  off event handler (off event handler s) = off event handler s.
Proof.
  unfold off at 2.
  destruct (map_has event (events s)) eqn:He; cbn [negb orb].
  2:{ unfold off. now rewrite He. }
  destruct (map_has event (handlerMap s)) eqn:Hh; cbn [negb orb].
  2:{ unfold off. now rewrite He, Hh. }
  destruct (map_get handler (table event (handlerMap s))) as [id|] eqn:G.
  2:{ unfold off. now rewrite He, Hh, G. }
  unfold off. cbn [set_tables events handlerMap].
  rewrite ?(map_has_set event event) by assumption. cbn [negb orb].
  rewrite table_set_eq, map_get_delete_eq, He, Hh, G. reflexivity.
Qed.

(** X5: [offById] twice with the same symbol is [offById] once, in every
    state where a symbol has one owner (every reachable state): a symbol
    that was removed is unknown from then on. *)
Theorem offById_idempotent live eventId s :
  well_formed s -> one_owner s ->
  offById live eventId (offById live eventId s) = offById live eventId s.
Proof.
  intros W O.
  pose proof (wf_shrinks _ _ W (shrinks_offById live eventId s (wf_events_keys _ W))) as W'.
  revert W'. unfold offById at 1 3 4.
  destruct (owner eventId (events s)) as [[event em]|] eqn:Ow.
  2:{ intros _. unfold offById. now rewrite Ow. }
  intros W'. apply owner_Some in Ow. destruct Ow as [I Hm].
  pose proof (In_table _ _ _ (wf_events_keys _ W) I) as T.
  match goal with |- offById _ _ ?t = _ => set (s' := t) in * end.
  unfold offById.
  assert (N : owner eventId (events s') = None); [|now rewrite N].
  apply owner_None. intros e m Im.
  apply (In_map_get _ _ _ (wf_events_keys _ W')) in Im.
  unfold s' in Im. cbn [set_tables events] in Im.
  destruct (string_dec event e) as [<-|Ne].
  - rewrite map_get_set_eq in Im. inversion Im; subst m.
    apply map_has_false, map_get_delete_eq.
  - rewrite map_get_set_neq in Im by assumption.
    destruct (map_has eventId m) eqn:Hm'; auto.
    apply map_has_true in Hm'. destruct Hm' as [w' G'].
    apply map_has_true in Hm. destruct Hm as [w G].
    exfalso. apply Ne. apply (O event e eventId w w').
    + now rewrite T.
    + unfold table. now rewrite Im.
Qed.

Lemma offById_idempotent_witness :
  let s := snd (on "b" (Fn 1) (snd (on "a" (Fn 0) empty))) in
  offById all_live 0 (offById all_live 0 s) = offById all_live 0 s.
Proof.
  apply (offById_idempotent all_live 0).
  - apply wf_on, wf_on, wf_empty.
  - apply (reachable_one_owner all_live).
    apply (reachable_run all_live (On "b" (Fn 1))); [|exact I].
    apply (reachable_run all_live (On "a" (Fn 0))); [|exact I].
    apply reachable_empty.
Defined.

(** X6: [off] deletes the subscription its handler is recorded for and that
    reverse entry, nothing else: every other subscription entry and every
    other reverse entry, of any event, is as before. *)
Theorem off_leaves_others event handler s e id h :
  (e <> event \/ map_get handler (table event (handlerMap s)) <> Some id) ->
  (e <> event \/ h <> handler) ->
  map_get id (table e (events (off event handler s))) = map_get id (table e (events s)) /\
  map_get h (table e (handlerMap (off event handler s))) =
  map_get h (table e (handlerMap s)).
Proof.
  intros Hi Hh. unfold off.
  destruct (negb (map_has event (events s)) || negb (map_has event (handlerMap s))); auto.
  destruct (map_get handler (table event (handlerMap s))) as [id0|] eqn:G; auto.
  cbn [set_tables events handlerMap].
  destruct (string_dec event e) as [<-|Ne].
  - rewrite !table_set_eq. split; apply map_get_delete_neq.
    + intros ->. destruct Hi; congruence.
    + intros ->. destruct Hh; congruence.
  - now rewrite !table_set_neq.
Qed.

Lemma off_leaves_others_witness :
  let s := snd (on "e" (Fn 1) (snd (on "e" (Fn 0) empty))) in
  map_get 1 (table "e" (events (off "e" (Fn 0) s))) = map_get 1 (table "e" (events s)) /\
  map_get (Fn 1) (table "e" (handlerMap (off "e" (Fn 0) s))) =
  map_get (Fn 1) (table "e" (handlerMap s)).
Proof.
  apply (off_leaves_others "e" (Fn 0) _ "e" 1 (Fn 1)).
  - right. discriminate.
  - right. discriminate.
Defined.

(** X7: [offById(eventId)] deletes the subscription [eventId] and the
    reverse entry of the handler it refers to, nothing else. *)
Theorem offById_leaves_others live eventId s e id h :
  well_formed s ->
  id <> eventId ->
  (forall w, map_get eventId (table e (events s)) = Some w -> target w <> h) ->
  map_get id (table e (events (offById live eventId s))) = map_get id (table e (events s)) /\
  map_get h (table e (handlerMap (offById live eventId s))) =
  map_get h (table e (handlerMap s)).
Proof.
  intros W Ni Nh. unfold offById.
  destruct (owner eventId (events s)) as [[event em]|] eqn:Ow; auto.
  apply owner_Some in Ow. destruct Ow as [I Hm].
  pose proof (In_table _ _ _ (wf_events_keys _ W) I) as T. subst em.
  cbn [set_tables events handlerMap]. split.
  - destruct (string_dec event e) as [<-|Ne].
    + rewrite table_set_eq. apply map_get_delete_neq. auto.
    + now rewrite table_set_neq.
  - destruct (map_get eventId (table event (events s))) as [w|] eqn:G; auto.
    unfold deref. destruct (live (target w)); auto.
    destruct (map_get event (handlerMap s)) as [hm|] eqn:Gh; auto.
    destruct (string_dec event e) as [<-|Ne].
    + rewrite table_set_eq.
      assert (Th : table event (handlerMap s) = hm) by (unfold table; now rewrite Gh).
      rewrite Th. apply map_get_delete_neq. exact (Nh w G).
    + now rewrite table_set_neq.
Qed.

Lemma offById_leaves_others_witness :
  let s := snd (on "e" (Fn 1) (snd (on "e" (Fn 0) empty))) in
  map_get 1 (table "e" (events (offById all_live 0 s))) = map_get 1 (table "e" (events s)) /\
  map_get (Fn 1) (table "e" (handlerMap (offById all_live 0 s))) =
  map_get (Fn 1) (table "e" (handlerMap s)).
Proof.
  apply (offById_leaves_others all_live 0 _ "e" 1 (Fn 1)).
  - apply wf_on, wf_on, wf_empty.
  - discriminate.
  - intros w G. inversion G. discriminate.
Defined.

(** ** Emission *)

Lemma emit_no_table live event args s :
  map_has event (events s) = false -> emit live event args s = s.
Proof.
  intros He. unfold emit, cleanDeadHandlers. rewrite He. cbn [negb orb].
  now rewrite He.
Qed.

(** X8: after [removeAllListeners(event)] an emission on [event], and after
    [removeAll()] an emission on any event, calls nothing and changes
    nothing. *)
Theorem emit_after_bulk_removal live event args s :
  emit live event args (removeAllListeners event s) = removeAllListeners event s /\
  emit live event args (removeAll s) = removeAll s.
Proof.
  split; apply emit_no_table.
  - cbn [removeAllListeners set_tables events]. apply map_has_false, map_get_delete_eq.
  - reflexivity.
Qed.

Lemma filter_filter_and {A : Type} (f g : A -> bool) (l : list A) :
  filter f (filter g l) = filter (fun x => g x && f x) l.
Proof.
  induction l as [|x l IH]; simpl; auto.
  destruct (g x); simpl; [destruct (f x)|]; congruence.
Qed.

Lemma purge_fst_filter ids : forall t,
  fst (fold_left purge ids t) =
  filter (fun e => negb (existsb (Nat.eqb (fst e)) ids)) (fst t).
Proof.
  induction ids as [|i ids IH]; intros [em hm]; simpl.
  - symmetry. apply filter_true.
  - rewrite IH. simpl. rewrite map_delete_filter, filter_filter_and.
    apply filter_ext. intros [k w]. simpl.
    change (eq_dec i k) with (Nat.eq_dec i k).
    destruct (Nat.eq_dec i k) as [->|N].
    + now rewrite Nat.eqb_refl.
    + assert (E : Nat.eqb k i = false) by (apply Nat.eqb_neq; congruence).
      now rewrite E.
Qed.

(** With unique keys, [cleanDeadHandlers] keeps the resolving entries, in
    their order. *)
Lemma purge_live live em hm :
  NoDup (map_keys em) ->
  fst (fold_left purge (deadEventIds live em) (em, hm)) =
  filter (fun e => live (target (snd e))) em.
Proof.
  intros ND. rewrite purge_fst_filter. simpl. apply filter_ext_in.
  intros [k w] I. simpl.
  destruct (existsb (Nat.eqb k) (deadEventIds live em)) eqn:X; simpl.
  - apply existsb_exists in X. destruct X as [i [Ii E]].
    apply Nat.eqb_eq in E. subst i. apply In_deadEventIds in Ii.
    destruct Ii as [w' [I' D]].
    apply (In_map_get _ _ _ ND) in I'. rewrite (In_map_get _ _ _ ND I) in I'.
    inversion I'; subst w'. now rewrite D.
  - destruct (live (target w)) eqn:L; auto.
    assert (Y : existsb (Nat.eqb k) (deadEventIds live em) = true); [|congruence].
    apply existsb_exists. exists k. split; [|apply Nat.eqb_refl].
    apply In_deadEventIds. eauto.
Qed.

Lemma clean_table_live live event s :
  well_formed s ->
  filter (fun e => live (target (snd e)))
         (table event (events (cleanDeadHandlers live event s))) =
  filter (fun e => live (target (snd e))) (table event (events s)).
Proof.
  intros W. unfold cleanDeadHandlers.
  destruct (map_has event (events s)) eqn:He; cbn [negb orb]; auto.
  destruct (map_has event (handlerMap s)) eqn:Hh; cbn [negb orb]; auto.
  cbn [set_tables events]. rewrite table_set_eq, purge_live.
  - rewrite filter_filter_and. apply filter_ext. intros e. apply andb_diag.
  - eapply wf_eventMap_keys; eauto using table_In.
Qed.

Lemma emit_loop_plain live event args : forall es s,
  (forall id w, In (id, w) es -> map_get id (table event (events s)) = Some w) ->
  (forall id w, In (id, w) es -> live (target w) = true -> exists f, target w = Fn f) ->
  emit_loop live event args (map fst es) s =
  mkPool (events s) (handlerMap s) (nextSymbol s) (nextClosure s)
         (calls s ++ map (fun e => (target (snd e), args))
                         (filter (fun e => live (target (snd e))) es)).
Proof.
  induction es as [|[id w] es IH]; intros s G P; simpl.
  - rewrite app_nil_r. destruct s; reflexivity.
  - rewrite (G id w) by (simpl; auto). unfold deref.
    destruct (live (target w)) eqn:L.
    + destruct (P id w) as [f E]; [simpl; auto | exact L |].
      rewrite E. cbn [invoke]. rewrite IH.
      * cbn [record_call events handlerMap nextSymbol nextClosure calls map snd].
        rewrite E. now rewrite <- app_assoc.
      * intros id' w' I. apply G. simpl. auto.
      * intros id' w' I. apply (P id' w'). simpl. auto.
    + apply IH.
      * intros id' w' I. apply G. simpl. auto.
      * intros id' w' I. apply (P id' w'). simpl. auto.
Qed.

(** The emission over functions of the caller that are plain. *)
Lemma emit_order live event args s :
  well_formed s ->
  (forall id w, map_get id (table event (events s)) = Some w ->
                live (target w) = true -> exists f, target w = Fn f) ->
  calls (emit live event args s) =
    calls s ++ map (fun e => (target (snd e), args))
                   (filter (fun e => live (target (snd e))) (table event (events s))) /\
  events (emit live event args s) = events (cleanDeadHandlers live event s) /\
  handlerMap (emit live event args s) = handlerMap (cleanDeadHandlers live event s).
Proof.
  intros W P.
  pose proof (shrinks_cleanDeadHandlers live event s) as S.
  pose proof (wf_shrinks _ _ W S) as Wc.
  unfold emit.
  destruct (map_has event (events (cleanDeadHandlers live event s))) eqn:He; cbn [negb].
  - change (map_keys (table event (events (cleanDeadHandlers live event s))))
      with (map fst (table event (events (cleanDeadHandlers live event s)))).
    rewrite emit_loop_plain.
    + cbn [calls events handlerMap]. rewrite cleanDeadHandlers_calls.
      now rewrite clean_table_live.
    + intros id w I. apply In_map_get; auto.
      eapply wf_eventMap_keys; eauto using table_In.
    + intros id w I. apply (P id). eapply sub_map_get; [apply S|].
      apply In_map_get; auto. eapply wf_eventMap_keys; eauto using table_In.
  - rewrite cleanDeadHandlers_calls. rewrite (shrinks_has_events _ _ _ S) in He.
    rewrite (table_absent _ _ He). simpl. now rewrite app_nil_r.
Qed.

(** X9: when the live subscribers of [event] are functions of the caller
    that return normally and do not call the registry, [emit] returns
    normally and calls each of them exactly once with the arguments, in the
    order of subscription, and nothing else; its effect on the two fields is
    that of [cleanDeadHandlers(event)]. *)
Theorem emit_calls_in_order fuel prog live event args x :
  well_formed (pool x) ->
  (forall id w, map_get id (table event (events (pool x))) = Some w ->
                live (target w) = true ->
                exists f, target w = Fn f /\ forall a, prog f a = plain_body) ->
  fuel_bound event (pool x) <= fuel ->
  let r := emitX fuel prog live event args x in
  snd r = Returned /\
  calls (pool (fst r)) =
    calls (pool x) ++
    map (fun e => (target (snd e), args))
        (filter (fun e => live (target (snd e))) (table event (events (pool x)))) /\
  events (pool (fst r)) = events (cleanDeadHandlers live event (pool x)) /\
  handlerMap (pool (fst r)) = handlerMap (cleanDeadHandlers live event (pool x)).
Proof.
  intros W P F r. subst r. rewrite emitX_plain; [| | exact F].
  - split; [reflexivity|]. cbn [fst lift pool]. apply emit_order; auto.
    intros id w G L. destruct (P id w G L) as [f [E _]]. eauto.
  - intros id w G L. destruct (P id w G L) as [f [E Pf]]. rewrite E.
    intros f' [I|[]] a. inversion I; subst f'. apply Pf.
Qed.

Lemma emit_calls_in_order_witness :
  let prog := fun (_ : nat) (_ : Args) => plain_body in
  let live := fun h => match h with Fn 1 => false | _ => true end in
  let s := snd (on "e" (Fn 2) (snd (on "e" (Fn 1) (snd (on "e" (Fn 0) empty))))) in
  let r := emitX 9 prog live "e" [9] (start s) in
  snd r = Returned /\ calls (pool (fst r)) = [(Fn 0, [9]); (Fn 2, [9])].
Proof.
  intros prog live s r.
  destruct (emit_calls_in_order 9 prog live "e" [9] (start s)) as [A [B _]].
  - apply wf_on, wf_on, wf_on, wf_empty.
  - intros id w G _. simpl in G.
    destruct (eq_dec id 0); [inversion G; simpl; eauto|].
    destruct (eq_dec id 1); [inversion G; simpl; eauto|].
    destruct (eq_dec id 2); [inversion G; simpl; eauto | discriminate].
  - vm_compute. lia.
  - split; [exact A | exact B].
Defined.

(** Handlers that do not call the registry change it only through the
    [off] of [onceHandler]: the tables lose entries, and no row is taken
    out. *)
Lemma invokeX_passive prog live args h : forall fuel x,
  passive prog h ->
  shrinks (pool x) (pool (fst (invokeX fuel prog live h args x))) /\
  retired (fst (invokeX fuel prog live h args x)) = retired x /\
  exists added,
    calls (pool (fst (invokeX fuel prog live h args x))) = calls (pool x) ++ added /\
    forall c, In c added -> snd c = args /\ In (fst c) (invoked_by h).
Proof.
  induction h as [f|c e h IH]; intros fuel x P;
    (destruct fuel as [|n];
     [cbn [invokeX fst]; split; [apply shrinks_refl|]; split; auto;
      exists []; split; [now rewrite app_nil_r | intros ? []]|]);
    cbn [invokeX].
  - rewrite (P f (or_introl eq_refl) args). cbn [body_with fst lift pool retired].
    split; [apply shrinks_record_call|]. split; auto.
    exists [(Fn f, args)]. split; auto.
    intros c' [<-|[]]. simpl. auto.
  - assert (Ph : passive prog h) by (intros f I; apply P; simpl; auto).
    destruct (IH n (lift (record_call (OnceHandler c e h) args) x) Ph)
      as [Sh [Rt [added [Ec Ia]]]].
    destruct (invokeX n prog live h args (lift (record_call (OnceHandler c e h) args) x))
      as [x2 o]. cbn [fst lift pool retired] in *.
    assert (Sx : shrinks (pool x) (pool x2))
      by (eapply shrinks_trans; [apply shrinks_record_call | exact Sh]).
    assert (Ea : exists added',
              calls (pool x2) = calls (pool x) ++ added' /\
              forall c', In c' added' ->
                snd c' = args /\ In (fst c') (invoked_by (OnceHandler c e h))).
    { exists ((OnceHandler c e h, args) :: added). split.
      - rewrite Ec. simpl. now rewrite <- app_assoc.
      - intros c' [<-|I]; simpl; auto. destruct (Ia c' I). auto. }
    destruct o; cbn [fst lift pool retired]; auto.
    split; [eapply shrinks_trans; [exact Sx | apply shrinks_off]|].
    split; auto. now rewrite off_calls.
Qed.

Lemma loopX_passive prog live event args n0 : forall fuel known pending x,
  nth_error (retired_of event x) n0 = None ->
  (forall id w, map_get id (table event (events (pool x))) = Some w ->
                live (target w) = true -> passive prog (target w)) ->
  exists added,
    calls (pool (fst (loopX fuel prog live event args n0 known pending x))) =
    calls (pool x) ++ added /\
    forall h a, In (h, a) added ->
      a = args /\ exists id, reaches live event (pool x) id h.
Proof.
  induction fuel as [|n IH]; intros known pending x At P; cbn [loopX].
  - exists []. split; [now rewrite app_nil_r | intros ? ? []].
  - unfold object. rewrite At.
    destruct (pending ++ unseen known (table event (events (pool x)))) as [|id rest].
    + exists []. split; [now rewrite app_nil_r | intros ? ? []].
    + destruct (map_get id (table event (events (pool x)))) as [w|] eqn:G; auto.
      unfold deref. destruct (live (target w)) eqn:L; auto.
      destruct (invokeX_passive prog live args (target w) n x (P id w G L))
        as [Sh [Rt [added [Ec Ia]]]].
      destruct (invokeX n prog live (target w) args x) as [x' o].
      cbn [fst] in *.
      assert (First : forall h a, In (h, a) added ->
                a = args /\ exists i, reaches live event (pool x) i h).
      { intros h a I. destruct (Ia _ I) as [E J]. simpl in *. split; auto.
        exists id, w. auto. }
      destruct o; cbn [fst]; eauto.
      destruct (IH (known ++ unseen known (table event (events (pool x)))) rest x')
        as [added' [Ec' Ia']].
      * unfold retired_of in *. now rewrite Rt.
      * intros i w' G' L'. apply (P i); auto.
        eapply sub_map_get; [apply Sh | exact G'].
      * exists (added ++ added'). split.
        -- now rewrite Ec', Ec, <- app_assoc.
        -- intros h a I. apply in_app_or in I. destruct I as [I|I]; auto.
           destruct (Ia' h a I) as [E [i R]]. split; auto. exists i.
           eapply reaches_shrinks; eauto.
Qed.

(** X10: when the handlers of the live subscriptions of [event] do not call
    the registry (they may throw), every call [emit(event, args)] makes is a
    call, with [args], of a handler that a resolving subscription of [event]
    leads to: no reclaimed handler is called, no handler of another event,
    and no other arguments are passed. *)
Theorem emit_calls_only_subscribers fuel prog live event args x :
  (forall id w, map_get id (table event (events (pool x))) = Some w ->
                live (target w) = true -> passive prog (target w)) ->
  exists added,
    calls (pool (fst (emitX fuel prog live event args x))) = calls (pool x) ++ added /\
    forall h a, In (h, a) added ->
      a = args /\ exists id, reaches live event (pool x) id h.
Proof.
  intros P. unfold emitX, emit_with.
  pose proof (shrinks_cleanDeadHandlers live event (pool x)) as Sh.
  destruct (negb (map_has event (events (pool (lift (cleanDeadHandlers live event) x))))).
  - exists []. cbn [fst lift pool]. rewrite cleanDeadHandlers_calls.
    split; [now rewrite app_nil_r | intros ? ? []].
  - destruct (loopX_passive prog live event args
                (length (retired_of event (lift (cleanDeadHandlers live event) x)))
                fuel [] [] (lift (cleanDeadHandlers live event) x))
      as [added [Ec Ia]].
    + apply nth_error_length.
    + cbn [lift pool]. intros id w G L. apply (P id); auto.
      eapply sub_map_get; [apply Sh | exact G].
    + exists added. split.
      * rewrite Ec. cbn [lift pool]. now rewrite cleanDeadHandlers_calls.
      * intros h a I. destruct (Ia h a I) as [E [id R]]. split; auto. exists id.
        eapply reaches_shrinks; [exact Sh | exact R].
Qed.

Lemma emit_calls_only_subscribers_witness :
  let prog := fun f (_ : Args) => if Nat.eqb f 1 then mkBody [] true else plain_body in
  let s := snd (on "a" (Fn 2) (snd (on "e" (Fn 0) (snd (on "e" (Fn 1) empty))))) in
  exists added,
    calls (pool (fst (emitX 9 prog all_live "e" [3] (start s)))) = calls s ++ added /\
    forall h a, In (h, a) added ->
      a = [3] /\ exists id, reaches all_live "e" s id h.
Proof.
  intros prog s.
  apply (emit_calls_only_subscribers 9 prog all_live "e" [3] (start s)).
  intros id w _ _ f _ a. unfold prog. destruct (Nat.eqb f 1); reflexivity.
Defined.

(** ** Unsubscribing, then emitting *)

(** X11: once [off(event, handler)] has deleted the subscription the handler
    was recorded for, no later emission on [event] calls the handler, unless
    another subscription of [event] leads to it. *)
Theorem off_then_emits_silent event handler id later s :
  map_has event (events s) = true ->
  map_get handler (table event (handlerMap s)) = Some id ->
  (forall id', id' <> id -> ~ reaches all_live event s id' handler) ->
  invocations_of handler (calls (emits event later (off event handler s))) =
  invocations_of handler (calls s).
Proof.
  intros He Gh Q. rewrite emits_quiet, off_calls; auto.
  intros id' [w [G R]].
  destruct (off_tables event handler id s He Gh) as [Te _]. rewrite Te in G.
  apply map_get_delete_Some in G. destruct G as [G N].
  apply (Q id'); [congruence|]. exists w. auto.
Qed.

Lemma off_then_emits_silent_witness :
  let s := snd (on "e" (Fn 1) (snd (on "e" (Fn 0) empty))) in
  invocations_of (Fn 0)
    (calls (emits "e" [(all_live, [1]); (all_live, [2])] (off "e" (Fn 0) s))) =
  invocations_of (Fn 0) (calls s).
Proof.
  apply (off_then_emits_silent "e" (Fn 0) 0).
  - reflexivity.
  - reflexivity.
  - intros id' N [w [G [_ I]]]. simpl in G.
    destruct (eq_dec id' 0); [contradiction|].
    destruct (eq_dec id' 1); [|discriminate].
    inversion G; subst. simpl in I. destruct I as [E|[]]. discriminate.
Defined.

Lemma offById_calls live eventId s : calls (offById live eventId s) = calls s.
Proof. unfold offById. destruct (owner eventId (events s)) as [[e em]|]; auto. Qed.

Lemma offById_removes live eventId s event em :
  well_formed s -> owner eventId (events s) = Some (event, em) ->
  table event (events (offById live eventId s)) =
  map_delete eventId (table event (events s)).
Proof.
  intros W O. unfold offById. rewrite O. cbn [set_tables events].
  apply owner_Some in O. destruct O as [I _].
  rewrite (In_table _ _ _ (wf_events_keys _ W) I). apply table_set_eq.
Qed.

(** X12: once [offById(eventId)] has deleted a subscription of [event], no
    later emission on [event] calls a handler that only this subscription
    led to. *)
Theorem offById_then_emits_silent live eventId event em handler later s :
  well_formed s -> owner eventId (events s) = Some (event, em) ->
  (forall id', id' <> eventId -> ~ reaches all_live event s id' handler) ->
  invocations_of handler (calls (emits event later (offById live eventId s))) =
  invocations_of handler (calls s).
Proof.
  intros W O Q. rewrite emits_quiet, offById_calls; auto.
  intros id' [w [G R]]. rewrite (offById_removes live eventId s event em W O) in G.
  apply map_get_delete_Some in G. destruct G as [G N].
  apply (Q id'); [congruence|]. exists w. auto.
Qed.

Lemma offById_then_emits_silent_witness :
  let s := snd (on "e" (Fn 0) empty) in
  invocations_of (Fn 0)
    (calls (emits "e" [(all_live, [1]); (all_live, [2])] (offById all_live 0 s))) =
  invocations_of (Fn 0) (calls s).
Proof.
  apply (offById_then_emits_silent all_live 0 "e" [(0, mkWeakRef (Fn 0))]).
  - apply wf_on, wf_empty.
  - reflexivity.
  - intros id' N [w [G _]]. simpl in G.
    destruct (eq_dec id' 0); [contradiction | discriminate].
Defined.

(** ** Subscribing *)

(** X13: [on(event, handler)] puts the new subscription last in the table of
    [event] and keeps every subscription entry there was, of every event; the
    reverse entries of the other handlers are kept too. *)
Theorem on_appends event handler s :
  well_formed s ->
  map_keys (table event (events (snd (on event handler s)))) =
    map_keys (table event (events s)) ++ [fst (on event handler s)] /\
  (forall e id w,
     map_get id (table e (events s)) = Some w ->
     map_get id (table e (events (snd (on event handler s)))) = Some w) /\
  (forall e h,
     e <> event \/ h <> handler ->
     map_get h (table e (handlerMap (snd (on event handler s)))) =
     map_get h (table e (handlerMap s))).
Proof.
  intros W. rewrite on_fst, on_events, on_handlerMap.
  assert (F : forall e id w, map_get id (table e (events s)) = Some w ->
                             nextSymbol s <> id).
  { intros e id w G. apply table_get_In in G. destruct G as [Ir Ie].
    pose proof (wf_event_ids _ W _ _ _ _ Ir Ie). lia. }
  split; [|split].
  - rewrite table_set_eq. apply map_keys_set_absent. apply map_get_None.
    destruct (map_get (nextSymbol s) (table event (events s))) eqn:G; auto.
    exfalso. eapply F; eauto.
  - intros e id w G. destruct (string_dec event e) as [<-|N].
    + rewrite table_set_eq, map_get_set_neq; eauto.
    + now rewrite table_set_neq.
  - intros e h N. destruct (string_dec event e) as [<-|Ne].
    + rewrite table_set_eq. apply map_get_set_neq. destruct N; congruence.
    + now rewrite table_set_neq.
Qed.

Lemma on_appends_witness :
  let s := snd (on "e" (Fn 0) empty) in
  map_keys (table "e" (events (snd (on "e" (Fn 1) s)))) = [0] ++ [1].
Proof.
  intros s. destruct (on_appends "e" (Fn 1) s) as [A _].
  - apply wf_on, wf_empty.
  - exact A.
Defined.

(** ** Reclaimed handlers *)

Lemma delete_reverse_found eventId h hm :
  (forall h1 h2 i, In (h1, i) hm -> In (h2, i) hm -> h1 = h2) ->
  map_get h hm = Some eventId ->
  map_get h (delete_reverse eventId hm) = None.
Proof.
  intros Inj G. unfold delete_reverse.
  destruct (find (fun e => Nat.eqb (snd e) eventId) hm) as [[x i]|] eqn:F.
  - apply find_some in F. destruct F as [I E]. simpl in E.
    apply Nat.eqb_eq in E. subst i.
    rewrite (Inj x h eventId I (map_get_In _ _ _ G)). apply map_get_delete_eq.
  - apply map_get_In in G. apply (find_none _ _ F) in G. simpl in G.
    rewrite Nat.eqb_refl in G. discriminate.
Qed.

Lemma purge_snd_deleted ids h id : forall t,
  NoDup (map_keys (snd t)) ->
  (forall h1 h2 i, In (h1, i) (snd t) -> In (h2, i) (snd t) -> h1 = h2) ->
  map_get h (snd t) = Some id -> In id ids ->
  map_get h (snd (fold_left purge ids t)) = None.
Proof.
  induction ids as [|i ids IH]; intros [em hm] ND Inj G I; [contradiction|].
  simpl in *. destruct (Nat.eq_dec i id) as [->|N].
  - destruct (purge_sub ids (map_delete id em, delete_reverse id hm)) as [_ S].
    eapply sub_map_get_None; [exact S|]. simpl. now apply delete_reverse_found.
  - apply IH; simpl.
    + eapply sub_map_NoDup; [apply delete_reverse_sub | exact ND].
    + intros h1 h2 j I1 I2.
      apply (Inj h1 h2 j); eapply sub_map_In; eauto using delete_reverse_sub.
    + apply delete_reverse_kept; auto.
    + destruct I; [contradiction | assumption].
Qed.

Lemma cleanDeadHandlers_purges_both live event s id h :
  well_formed s ->
  map_get id (table event (events s)) = Some (mkWeakRef h) ->
  map_get h (table event (handlerMap s)) = Some id ->
  live h = false ->
  map_get id (table event (events (cleanDeadHandlers live event s))) = None /\
  map_get h (table event (handlerMap (cleanDeadHandlers live event s))) = None.
Proof.
  intros W Ge Gh D.
  pose proof (table_get_has _ _ _ _ Gh) as Hh.
  split; [apply (cleanDeadHandlers_purged live event s id (mkWeakRef h)); auto|].
  assert (Dead : In id (deadEventIds live (table event (events s)))).
  { apply In_deadEventIds. exists (mkWeakRef h). split; auto. now apply map_get_In. }
  unfold cleanDeadHandlers. rewrite (table_get_has _ _ _ _ Ge), Hh.
  cbn [negb orb set_tables handlerMap]. rewrite table_set_eq.
  apply (purge_snd_deleted _ h id); simpl; auto.
  - eapply wf_reverse_keys; eauto using table_In.
  - intros h1 h2 i. eapply wf_reverse_inj; eauto using table_In.
Qed.

Lemma sweep_fold_purges live event id h l : forall s,
  well_formed s ->
  (In event l /\
   map_get id (table event (events s)) = Some (mkWeakRef h) /\
   map_get h (table event (handlerMap s)) = Some id) \/
  (map_get id (table event (events s)) = None /\
   map_get h (table event (handlerMap s)) = None) ->
  live h = false ->
  map_get id (table event
    (events (fold_left (fun acc e => cleanDeadHandlers live e acc) l s))) = None /\
  map_get h (table event
    (handlerMap (fold_left (fun acc e => cleanDeadHandlers live e acc) l s))) = None.
Proof.
  induction l as [|e l IH]; intros s W J D; simpl.
  - destruct J as [[[] _]|J]. exact J.
  - pose proof (shrinks_cleanDeadHandlers live e s) as S.
    apply IH; auto; [eapply wf_shrinks; eauto|].
    destruct J as [[I [Ge Gh]]|[Ge Gh]].
    + destruct (string_dec e event) as [->|N].
      * right. now apply cleanDeadHandlers_purges_both.
      * left. destruct I as [I|I]; [contradiction|].
        destruct (untouched_cleanDeadHandlers live e event s N) as [Ue Uh].
        unfold table. rewrite Ue, Uh. auto.
    + right. split; (eapply sub_map_get_None; [apply S | assumption]).
Qed.

(** X14: a subscription whose handler has been reclaimed loses both its
    entries, the subscription entry and the reverse entry, at the next
    [sweepDeadHandlers()] and at the next [emit] on its event. *)
Theorem reclaimed_subscription_purged live event args s id h :
  well_formed s ->
  map_get id (table event (events s)) = Some (mkWeakRef h) ->
  map_get h (table event (handlerMap s)) = Some id ->
  live h = false ->
  (map_get id (table event (events (sweepDeadHandlers live s))) = None /\
   map_get h (table event (handlerMap (sweepDeadHandlers live s))) = None) /\
  (map_get id (table event (events (emit live event args s))) = None /\
   map_get h (table event (handlerMap (emit live event args s))) = None).
Proof.
  intros W Ge Gh D. split.
  - apply sweep_fold_purges; auto. left. split; auto.
    apply map_has_keys. eapply table_get_has; eauto.
  - destruct (cleanDeadHandlers_purges_both live event s id h W Ge Gh D) as [A B].
    pose proof (shrinks_clean_emit live event args s) as S.
    split; (eapply sub_map_get_None; [apply S | assumption]).
Qed.

Lemma reclaimed_subscription_purged_witness :
  let live := fun h => match h with Fn 1 => false | _ => true end in
  let s := snd (on "e" (Fn 1) (snd (on "e" (Fn 0) empty))) in
  map_get 1 (table "e" (events (sweepDeadHandlers live s))) = None /\
  map_get (Fn 1) (table "e" (handlerMap (sweepDeadHandlers live s))) = None.
Proof.
  intros live s.
  destruct (reclaimed_subscription_purged live "e" [] s 1 (Fn 1)) as [A _].
  - apply wf_on, wf_on, wf_empty.
  - reflexivity.
  - reflexivity.
  - reflexivity.
  - exact A.
Defined.

Lemma sweep_fold_leak live event id h l : forall s,
  well_formed s ->
  map_get id (table event (events s)) = None ->
  map_get h (table event (handlerMap s)) = Some id ->
  map_get h (table event
    (handlerMap (fold_left (fun acc e => cleanDeadHandlers live e acc) l s))) = Some id.
Proof.
  induction l as [|e l IH]; intros s W Ge Gh; simpl; auto.
  pose proof (shrinks_cleanDeadHandlers live e s) as S.
  apply IH.
  - eapply wf_shrinks; eauto.
  - eapply sub_map_get_None; [apply S | assumption].
  - unfold cleanDeadHandlers.
    destruct (map_has e (events s)) eqn:He; cbn [negb orb]; auto.
    destruct (map_has e (handlerMap s)) eqn:Hh; cbn [negb orb]; auto.
    cbn [set_tables handlerMap].
    destruct (string_dec e event) as [->|N].
    + rewrite table_set_eq. apply purge_snd_kept; simpl; auto.
      * eapply wf_reverse_keys; eauto using table_In.
      * rewrite In_deadEventIds. intros [w [I _]].
        apply map_get_None in Ge. apply Ge. eapply In_map_keys; eauto.
    + now rewrite table_set_neq.
Qed.

(** X15: [offById] on a subscription whose handler is already reclaimed
    deletes the subscription entry and leaves the reverse entry (the handler
    to delete it by is gone), and no [sweepDeadHandlers] removes that reverse
    entry afterwards. *)
Theorem offById_reclaimed_leaves_reverse_entry live live' s event em id h :
  well_formed s ->
  owner id (events s) = Some (event, em) ->
  map_get id em = Some (mkWeakRef h) ->
  map_get h (table event (handlerMap s)) = Some id ->
  live h = false ->
  map_get id (table event (events (offById live id s))) = None /\
  map_get h (table event (handlerMap (sweepDeadHandlers live' (offById live id s))))
    = Some id.
Proof.
  intros W O Ge Gh D.
  assert (A : map_get id (table event (events (offById live id s))) = None)
    by (rewrite (offById_removes live id s event em W O); apply map_get_delete_eq).
  split; auto. apply sweep_fold_leak; auto.
  - eapply wf_shrinks; [exact W | apply shrinks_offById, W].
  - unfold offById. rewrite O, Ge. unfold deref. cbn [target]. rewrite D.
    exact Gh.
Qed.

Lemma offById_reclaimed_leaves_reverse_entry_witness :
  let dead := fun _ : Handler => false in
  let s := snd (on "e" (Fn 0) empty) in
  map_get 0 (table "e" (events (offById dead 0 s))) = None /\
  map_get (Fn 0) (table "e" (handlerMap (sweepDeadHandlers dead (offById dead 0 s))))
    = Some 0.
Proof.
  intros dead s.
  apply (offById_reclaimed_leaves_reverse_entry dead dead s "e" [(0, mkWeakRef (Fn 0))]).
  - apply wf_on, wf_empty.
  - reflexivity.
  - reflexivity.
  - reflexivity.
  - reflexivity.
Defined.

(** ** Cancelling a one-shot subscription *)

(** X16: [offById] with the symbol [once(event, handler)] returned, before
    any emission, cancels the one-shot: its subscription is deleted and no
    later emission on [event] calls the closure, nor [handler] unless
    another subscription of [event] leads to it. *)
Theorem once_cancelled_by_offById live s event handler later :
  well_formed s -> allocated s ->
  let onceHandler := OnceHandler (nextClosure s) event handler in
  let id := fst (once event handler s) in
  let s' := offById live id (snd (once event handler s)) in
  map_get id (table event (events s')) = None /\
  invocations_of onceHandler (calls (emits event later s')) =
    invocations_of onceHandler (calls s) /\
  ((forall id', ~ reaches all_live event s id' handler) ->
   invocations_of handler (calls (emits event later s')) =
     invocations_of handler (calls s)).
Proof.
  intros W A onceHandler id s'.
  set (s0 := mkPool (events s) (handlerMap s) (nextSymbol s) (S (nextClosure s)) (calls s)).
  assert (W0 : well_formed s0) by now apply wf_closure_allocated.
  assert (E1 : once event handler s = on event onceHandler s0) by reflexivity.
  assert (W1 : well_formed (snd (on event onceHandler s0))) by now apply wf_on.
  pose proof (on_owner event onceHandler s0 W0) as O.
  assert (T : table event (events s') =
              map_delete id (table event (events (snd (on event onceHandler s0))))).
  { unfold s', id. rewrite E1. eapply offById_removes; eauto. }
  assert (Q : forall y, (forall id', ~ reaches all_live event s id' y) ->
              forall id', ~ reaches all_live event s' id' y).
  { intros y Qy id' [w [G R]]. rewrite T in G.
    apply map_get_delete_Some in G. destruct G as [G N].
    apply (Qy id'). exists w. split; auto.
    rewrite on_get_other in G by (intros ->; apply N; reflexivity). exact G. }
  assert (C : calls s' = calls s) by (unfold s'; now rewrite offById_calls).
  split; [|split].
  - rewrite T. apply map_get_delete_eq.
  - rewrite emits_quiet, C; auto. apply Q. intros id'. now apply allocated_fresh.
  - intros Qh. rewrite emits_quiet, C; auto.
Qed.

Lemma once_cancelled_by_offById_witness :
  let s := snd (on "e" (Fn 1) empty) in
  let s' := offById all_live 1 (snd (once "e" (Fn 0) s)) in
  invocations_of (OnceHandler 0 "e" (Fn 0))
    (calls (emits "e" [(all_live, [1]); (all_live, [2])] s')) = [].
Proof.
  intros s s'.
  destruct (once_cancelled_by_offById all_live s "e" (Fn 0)
              [(all_live, [1]); (all_live, [2])]) as [_ [A _]].
  - apply wf_on, wf_empty.
  - apply allocated_on; [apply allocated_empty | exact I].
  - exact A.
Defined.

(** ** The debug listing *)

(** X17: in a state where the two fields have the same rows (every reachable
    state), [gcDebug()] called right after [sweepDeadHandlers()] lists no
    subscription as reclaimed. *)
Theorem gcDebug_after_sweep live s event id :
  well_formed s -> paired s ->
  ~ In (DebugReclaimed event id) (gcDebug live (sweepDeadHandlers live s)).
Proof.
  intros W P I.
  pose proof (shrinks_sweepDeadHandlers live s) as S.
  pose proof (wf_shrinks _ _ W S) as W'.
  pose proof (paired_shrinks _ _ P S) as P'.
  unfold gcDebug in I. destruct I as [I|I]; [discriminate|].
  apply in_app_or in I. destruct I as [I|[I|[]]]; [|discriminate].
  apply in_flat_map in I. destruct I as [[e m] [Ir I]].
  apply in_map_iff in I. destruct I as [[i w] [E Ie]]. simpl in E.
  unfold deref in E. destruct (live (target w)) eqn:L; [discriminate|].
  inversion E; subst e i.
  pose proof (In_table _ _ _ (wf_events_keys _ W') Ir) as T.
  assert (He : map_has event (events (sweepDeadHandlers live s)) = true)
    by (apply map_has_keys; eapply In_map_keys; eauto).
  pose proof (sweepDeadHandlers_swept live s event He) as Sw.
  rewrite (paired_has _ event P') in Sw. specialize (Sw He).
  assert (Dd : In id (deadEventIds live (table event (events (sweepDeadHandlers live s))))).
  { apply In_deadEventIds. exists w. rewrite T. auto. }
  rewrite Sw in Dd. contradiction.
Qed.

Lemma gcDebug_after_sweep_witness :
  let live := fun h => match h with Fn 1 => false | _ => true end in
  let s := snd (on "e" (Fn 1) (snd (on "e" (Fn 0) empty))) in
  ~ In (DebugReclaimed "e" 1) (gcDebug live (sweepDeadHandlers live s)).
Proof.
  intros live s. apply (gcDebug_after_sweep live s "e" 1).
  - apply wf_on, wf_on, wf_empty.
  - reflexivity.
Defined.

Example run_gcDebug :
  let live := fun h => match h with Fn 1 => false | _ => true end in
  let s := snd (on "debugEvent" (Fn 1) (snd (on "debugEvent" (Fn 0) empty))) in
  gcDebug live s =
  [DebugStart; DebugHandler "debugEvent" 0 (Fn 0); DebugReclaimed "debugEvent" 1;
   DebugEnd].
Proof. reflexivity. Qed.

(** ** What a sweep keeps *)

Lemma clean_table_exact live event s :
  well_formed s -> paired s ->
  table event (events (cleanDeadHandlers live event s)) =
  filter (fun e => live (target (snd e))) (table event (events s)).
Proof.
  intros W P. unfold cleanDeadHandlers. rewrite (paired_has _ event P).
  destruct (map_has event (events s)) eqn:He; cbn [negb orb].
  - cbn [set_tables events]. rewrite table_set_eq. apply purge_live.
    eapply wf_eventMap_keys; eauto using table_In.
  - now rewrite (table_absent _ _ He).
Qed.

Lemma sweep_fold_exact live event l : forall s,
  well_formed s -> paired s ->
  table event (events (fold_left (fun acc e => cleanDeadHandlers live e acc) l s)) =
  if in_dec string_dec event l
  then filter (fun e => live (target (snd e))) (table event (events s))
  else table event (events s).
Proof.
  induction l as [|x l IH]; intros s W P; [reflexivity|].
  pose proof (shrinks_cleanDeadHandlers live x s) as S.
  cbn [fold_left]. rewrite IH; eauto using wf_shrinks, paired_shrinks.
  destruct (string_dec x event) as [->|N].
  - rewrite clean_table_exact by assumption.
    destruct (in_dec string_dec event (event :: l)) as [_|NI];
      [|exfalso; apply NI; simpl; auto].
    destruct (in_dec string_dec event l); auto.
    rewrite filter_filter_and. apply filter_ext. intros e. apply andb_diag.
  - destruct (untouched_cleanDeadHandlers live x event s N) as [Ue _].
    unfold table at 1 2. rewrite Ue. fold (table event (events s)).
    destruct (in_dec string_dec event l) as [I|NI];
      destruct (in_dec string_dec event (x :: l)) as [I'|NI']; auto.
    + exfalso. apply NI'. simpl. auto.
    + exfalso. destruct I' as [E|I']; [congruence | contradiction].
Qed.

(** X18: in a state where the two fields have the same rows (every reachable
    state), [sweepDeadHandlers()] leaves in the subscription table of every
    event exactly the subscriptions whose handler still resolves, in their
    order. *)
Theorem sweep_keeps_exactly_live live s event :
  well_formed s -> paired s ->
  table event (events (sweepDeadHandlers live s)) =
  filter (fun e => live (target (snd e))) (table event (events s)).
Proof.
  intros W P. unfold sweepDeadHandlers. rewrite sweep_fold_exact by assumption.
  destruct (in_dec string_dec event (map_keys (events s))) as [I|NI]; auto.
  assert (He : map_has event (events s) = false).
  { destruct (map_has event (events s)) eqn:He; auto.
    exfalso. apply NI. now apply map_has_keys. }
  now rewrite (table_absent _ _ He).
Qed.

Lemma sweep_keeps_exactly_live_witness :
  let live := fun h => match h with Fn 1 => false | _ => true end in
  let s := snd (on "e" (Fn 2) (snd (on "e" (Fn 1) (snd (on "e" (Fn 0) empty))))) in
  table "e" (events (sweepDeadHandlers live s)) =
  filter (fun e => live (target (snd e))) (table "e" (events s)).
Proof.
  intros live s. apply (sweep_keeps_exactly_live live s "e").
  - apply wf_on, wf_on, wf_on, wf_empty.
  - reflexivity.
Defined.
